(** * crazypdf: text-layout reconstruction, embedded and verified

  A shallow embedding of the text extraction paths of crazypdf:

  - [internal/pdf]: [PagePlainText] (the conservative word joiner),
    [PageTextByRow], [PageStyledTexts], [PhysicalLayoutText] (line
    assembler and 80-column grid renderer), [abs], [trimRight];
  - [pkg/crazypdf]: [Document], [Page], the page lookup and the
    closed-document guards;
  - [pkg/extract]: [Text], [PageText], [AllPages], [extractRawText]
    (the stream-order word joiner) and the functional options;
  - [cmd/crazypdf]: [parsePageRange] and the page loop of the [text]
    command;
  - [pkg/strings]: [cleanString], [processStrings] and the chunk loop of
    [extractStringsFromPage].

  Go's [float64] is the kernel's binary64 [float]: every arithmetic
  operation and comparison of the source is the primitive operation of
  the same name, rounded to nearest-even, evaluated operation by operation
  (no fused multiply-add).  Coordinates and font sizes range over all of
  binary64, infinities and NaN included; a statement that needs numbers
  says so.  Go strings are byte strings: [string] with
  [String.length] for [len].  A run-time panic of the source (index out of
  range, nil dereference) is [None] in the [option] layer of the model. *)

From Stdlib Require Import List String Ascii ZArith Bool Lia Setoid.
From Stdlib Require Import Permutation Sorted.
From Stdlib Require Import Floats Uint63.
From Stdlib Require Reals Lra.
Import ListNotations.

Set Warnings "-inexact-float".

Local Open Scope list_scope.
Local Open Scope string_scope.

(** ** Go primitives used by the source *)

Module Go.

Definition float64 := float.

(** [len(s)] of a string or a slice. *)
Definition len (s : string) : Z := Z.of_nat (String.length s).

(** [float64(n)] for a non-negative [int] (always a length here). *)
Definition float64_of_int (n : Z) : float := PrimFloat.of_uint63 (Uint63.of_Z n).

(** The integer part of a binary64 value, when it has one. *)
Definition truncSF (x : spec_float) : option Z :=
  match x with
  | S754_zero _ => Some 0%Z
  | S754_finite s m e =>
      Some (cond_Zopp s (match e with
                         | Zneg p => Z.shiftr (Zpos m) (Zpos p)
                         | _ => Z.shiftl (Zpos m) e
                         end))
  | _ => None
  end.

Definition minInt64 : Z := (- 2 ^ 63)%Z.
Definition maxInt64 : Z := (2 ^ 63 - 1)%Z.

(** The truncation of [f] when it fits an [int] (64 bits). *)
Definition int_of_float64_exact (f : float) : option Z :=
  match truncSF (Prim2SF f) with
  | Some z => if ((minInt64 <=? z) && (z <=? maxInt64))%Z then Some z else None
  | None => None
  end.

(** The Go run time: [sort.Slice] and the conversion [int(f)].

    [sort.Slice] is specified by its contract: the slice is permuted, and
    ends up ordered when [less] is a strict weak ordering of its elements.
    It is not stable.  [int(f)] truncates towards zero; when the value does
    not fit an [int] (or is a NaN) the language leaves the result to the
    implementation, which is [intOutOfRange] here. *)

Definition StrictWeakOn {A} (less : A -> A -> bool) (l : list A) : Prop :=
  (forall a, In a l -> less a a = false) /\
  (forall a b c, In a l -> In b l -> In c l ->
                 less a b = true -> less b c = true -> less a c = true) /\
  (forall a b c, In a l -> In b l -> In c l ->
                 less a b = false -> less b c = false -> less a c = false).

Class Runtime := {
  sortSlice : forall {A : Type}, (A -> A -> bool) -> list A -> list A;
  sortSlice_perm : forall A (less : A -> A -> bool) l,
      Permutation (sortSlice less l) l;
  sortSlice_sorted : forall A (less : A -> A -> bool) l,
      StrictWeakOn less l ->
      StronglySorted (fun a b => less b a = false) (sortSlice less l);
  intOutOfRange : float -> Z
}.

Definition int_of_float64 `{Runtime} (f : float) : Z :=
  match int_of_float64_exact f with
  | Some z => z
  | None => intOutOfRange f
  end.

End Go.

Import Go.

(** ** The row source: [github.com/ledongthuc/pdf] *)

Module gopdf.

(** [gopdf.Text]: one positioned glyph run. *)
Record Text := mkText {
  S : string; X : float; Y : float; Font : string; FontSize : float
}.

(** [gopdf.Row], with [Content] of type [TextHorizontal = []Text]. *)
Record Row := mkRow { Position : Z; Content : list Text }.

(** What [reader.Page(n)] and [page.GetTextByRow()] give for a page
    number: a null page, a failure of the content parser, or the rows. *)
Inductive PageContent :=
| NullPage
| FailingPage (cause : string)
| RowsPage (rows : list Row).

Record Reader := mkReader { NumPage : nat; Page : Z -> PageContent }.

End gopdf.

(** ** Errors and effects

  Go's [error] values: the sentinel of [pkg/crazypdf], and the
  [fmt.Errorf] wrappers of the source, each with its page number and the
  error it wraps with [%w]. *)

Inductive error :=
| ErrDocumentClosed
| ErrRowSource (cause : string)
| ErrPageNull (pageNum : Z)
| ErrFailedToGet (what : string) (pageNum : Z) (cause : error)
| ErrFailedToExtract (pageNum : Z) (cause : error).

(** Every call that reaches the row source is recorded, in order. *)
Inductive Access :=
| AccessPage (pageNum : Z)
| AccessRows (pageNum : Z).

Definition Trace := list Access.

(** Computations that touch the row source: a state monad over the trace,
  with [None] for a panic. *)
Definition M (A : Type) : Type := Trace -> option (A * Trace).

Definition ret {A} (a : A) : M A := fun t => Some (a, t).

Definition bind {A B} (m : M A) (k : A -> M B) : M B :=
fun t => match m t with
         | None => None
         | Some (a, t') => k a t'
         end.

Definition access (a : Access) : M unit := fun t => Some (tt, (t ++ [a])%list).

Definition orPanic {A} (o : option A) : M A :=
fun t => match o with
         | None => None
         | Some a => Some (a, t)
         end.

Declare Scope go_scope.
Notation "x <- m ;; k" := (bind m (fun x => k))
(at level 61, m at next level, right associativity) : go_scope.
Notation "' p <- m ;; k" := (bind m (fun x => match x with p => k end))
(at level 61, p pattern, m at next level, right associativity) : go_scope.
Local Open Scope go_scope.

(** ** [internal/pdf] *)

Module pdf.

Section WithRuntime.
Context `{RT : Runtime}.

(** *** [PagePlainText]: the conservative word joiner *)

(** The [less] closure of [sort.Slice(items, ...)]. *)
Definition lessX (a b : gopdf.Text) : bool := (gopdf.X a <? gopdf.X b)%float.

(** One turn of the first [for j] loop: [prev = items[j-1]],
    [curr = items[j]]. *)
Definition advanceStep (minCharWidth : float) (prev curr : gopdf.Text) : float :=
  if (0 <? len (gopdf.S prev))%Z then
    let advancePerChar :=
      ((gopdf.X curr - gopdf.X prev) / float64_of_int (len (gopdf.S prev)))%float in
    if ((0 <? advancePerChar)%float
        && ((minCharWidth =? 0)%float || (advancePerChar <? minCharWidth)%float))%bool
    then advancePerChar
    else minCharWidth
  else minCharWidth.

Fixpoint advanceLoop (minCharWidth : float) (prev : gopdf.Text)
         (rest : list gopdf.Text) : float :=
  match rest with
  | [] => minCharWidth
  | curr :: rest' => advanceLoop (advanceStep minCharWidth prev curr) curr rest'
  end.

(** The fallback [if minCharWidth == 0 { ... }] on [items[0]]. *)
Definition fallbackWidth (minCharWidth : float) (first : gopdf.Text) : float :=
  if (minCharWidth =? 0)%float then
    let fontSize := gopdf.FontSize first in
    let fontSize := if (fontSize <=? 0)%float then 12%float else fontSize in
    (fontSize * 0.6)%float
  else minCharWidth.

(** The estimate of a sorted, non-empty row [first :: rest]. *)
Definition estimateMinCharWidth (first : gopdf.Text) (rest : list gopdf.Text) : float :=
  fallbackWidth (advanceLoop 0%float first rest) first.

(** One turn of the second [for j] loop: what is written to [buf]. *)
Definition joinStep (minCharWidth : float) (prev curr : gopdf.Text) : string :=
  let prevEndX :=
    (gopdf.X prev + float64_of_int (len (gopdf.S prev)) * minCharWidth)%float in
  let gap := (gopdf.X curr - prevEndX)%float in
  (if (minCharWidth * 0.5 <? gap)%float then " " else "") ++ gopdf.S curr.

Fixpoint joinLoop (minCharWidth : float) (buf : string) (prev : gopdf.Text)
         (rest : list gopdf.Text) : string :=
  match rest with
  | [] => buf
  | curr :: rest' =>
      joinLoop minCharWidth (buf ++ joinStep minCharWidth prev curr) curr rest'
  end.

(** The body of the [for i, row] loop for a row that has runs: [items] is
    the sorted copy; [items[0]] panics on an empty slice. *)
Definition plainTextItems (buf : string) (items : list gopdf.Text) : option string :=
  match items with
  | [] => None
  | first :: rest =>
      let minCharWidth := estimateMinCharWidth first rest in
      Some (joinLoop minCharWidth (buf ++ gopdf.S first) first rest)
  end.

(** [if i < len(rows)-1 { buf.WriteString("\n") }]: [rest] is what follows
    row [i]. *)
Definition newlineUnlessLast {A} (rest : list A) : string :=
  match rest with
  | [] => ""
  | _ :: _ => String "010" ""
  end.

Fixpoint plainTextRows (buf : string) (rows : list gopdf.Row) : option string :=
  match rows with
  | [] => Some buf
  | row :: rest =>
      match gopdf.Content row with
      | [] => plainTextRows (buf ++ newlineUnlessLast rest) rest
      | _ :: _ =>
          match plainTextItems buf (sortSlice lessX (gopdf.Content row)) with
          | None => None
          | Some buf' => plainTextRows (buf' ++ newlineUnlessLast rest) rest
          end
      end
  end.


End WithRuntime.

(** *** [TextRow], [TextWord], [StyledText] and their producers *)

Record TextWord := mkTextWord {
  wS : string; wX : float; wY : float; wFont : string; wFontSize : float
}.

Record TextRow := mkTextRow { rPosition : Z; Words : list TextWord }.

Record StyledText := mkStyledText {
  Text : string; stX : float; stY : float; stFont : string; stFontSize : float
}.

Definition wordOfText (word : gopdf.Text) : TextWord :=
  {| wS := gopdf.S word; wX := gopdf.X word; wY := gopdf.Y word;
     wFont := gopdf.Font word; wFontSize := gopdf.FontSize word |}.

Definition styledOfText (word : gopdf.Text) : StyledText :=
  {| Text := gopdf.S word; stX := gopdf.X word; stY := gopdf.Y word;
     stFont := gopdf.Font word; stFontSize := gopdf.FontSize word |}.

(** The conversion loops of [PageTextByRow] and [PageStyledTexts]. *)
Definition textRowsOf (rows : list gopdf.Row) : list TextRow :=
  map (fun row => {| rPosition := gopdf.Position row;
                     Words := map wordOfText (gopdf.Content row) |}) rows.

Definition styledTextsOf (rows : list gopdf.Row) : list StyledText :=
  flat_map (fun row => map styledOfText (gopdf.Content row)) rows.

(** *** [PhysicalLayoutText]: line assembler and grid renderer *)

Definition abs (x : float) : float := if (x <? 0)%float then (- x)%float else x.

(** [trimRight]: [n] is [i + 1] for the loop index [i]. *)
Fixpoint trimRightLoop (s : string) (n : nat) : nat :=
  match n with
  | O => O
  | Datatypes.S i =>
      match String.get i s with
    | Some ch => if (ch =? " ")%char then trimRightLoop s i else n
    | None => n
    end
  end.

Definition trimRight (s : string) : string :=
  substring 0 (trimRightLoop s (String.length s)) s.

(** The [less] closure of the page-wide sort: [Y] descending, then [X]. *)
Definition lessYX (a b : StyledText) : bool :=
  if negb (stY a =? stY b)%float then (stY b <? stY a)%float
  else (stX a <? stX b)%float.

Definition lessStX (a b : StyledText) : bool := (stX a <? stX b)%float.

Definition yTolerance : float := 2.0%float.

Record line := mkLine { y : float; texts : list StyledText }.

(** [currentLine.texts = append(currentLine.texts, st)] through the
    pointer [currentLine = &lines[idx]]. *)
Definition appendToLine (lines : list line) (idx : nat) (st : StyledText)
  : option (list line) :=
  match nth_error lines idx with
  | None => None
  | Some ln =>
      Some (firstn idx lines
            ++ {| y := y ln; texts := (texts ln ++ [st])%list |}
            :: skipn (Datatypes.S idx) lines)%list
  end.

(** The clustering loop; its state is [lines] and the pointer
    [currentLine] ([None] is [nil]). *)
Definition groupStep (state : list line * option nat) (st : StyledText)
  : option (list line * option nat) :=
  let '(lines, currentLine) := state in
  let startNew :=
    match currentLine with
    | None => Some true
    | Some idx =>
        match nth_error lines idx with
        | None => None
        | Some ln => Some (yTolerance <? abs (y ln - stY st))%float
        end
    end in
  match startNew with
  | None => None
  | Some b =>
      let '(lines, idx) :=
        if b then
          let lines' := (lines ++ [ {| y := stY st; texts := [] |} ])%list in
          (lines', (List.length lines' - 1)%nat)
        else (lines, match currentLine with Some idx => idx | None => O end) in
      match appendToLine lines idx st with
      | None => None
      | Some lines' => Some (lines', Some idx)
      end
  end.

Fixpoint groupLoop (state : list line * option nat) (styledTexts : list StyledText)
  : option (list line * option nat) :=
  match styledTexts with
  | [] => Some state
  | st :: rest =>
      match groupStep state st with
      | None => None
      | Some state' => groupLoop state' rest
      end
  end.

Definition groupLines (styledTexts : list StyledText) : option (list line) :=
  option_map fst (groupLoop ([], None) styledTexts).

Definition charsPerLine : Z := 80.

(** [lineChars[pos] = ch], which panics out of range. *)
Definition setIndex (lineChars : list ascii) (pos : Z) (ch : ascii)
  : option (list ascii) :=
  if ((0 <=? pos) && (pos <? Z.of_nat (List.length lineChars)))%Z then
    Some (firstn (Z.to_nat pos) lineChars
          ++ ch :: skipn (Datatypes.S (Z.to_nat pos)) lineChars)%list
  else None.

(** [for ci, ch := range []byte(st.Text)]. *)
Fixpoint writeBytes (lineChars : list ascii) (col ci : Z) (text : list ascii)
  : option (list ascii) :=
  match text with
  | [] => Some lineChars
  | ch :: text' =>
      let pos := (col + ci)%Z in
      if (pos <? charsPerLine)%Z then
        match setIndex lineChars pos ch with
        | None => None
        | Some lineChars' => writeBytes lineChars' col (ci + 1) text'
        end
      else writeBytes lineChars col (ci + 1) text'
  end.

Section WithRuntimePhysical.
Context `{RT : Runtime}.

(** The column of a run: [int(st.X / charWidth)] clamped to the grid. *)
Definition column (charWidth : float) (st : StyledText) : Z :=
  let col := int_of_float64 (stX st / charWidth)%float in
  let col := if (col <? 0)%Z then 0%Z else col in
  if (col >=? charsPerLine)%Z then (charsPerLine - 1)%Z else col.

Fixpoint writeTexts (charWidth : float) (lineChars : list ascii)
         (lnTexts : list StyledText) : option (list ascii) :=
  match lnTexts with
  | [] => Some lineChars
  | st :: rest =>
      match writeBytes lineChars (column charWidth st) 0
                       (list_ascii_of_string (Text st)) with
      | None => None
      | Some lineChars' => writeTexts charWidth lineChars' rest
      end
  end.

(** One turn of [for i, ln := range lines], without the separator. *)
Definition renderLine (charWidth : float) (ln : line) : option string :=
  let lnTexts := sortSlice lessStX (texts ln) in
  let lineChars := repeat " "%char (Z.to_nat charsPerLine) in
  match writeTexts charWidth lineChars lnTexts with
  | None => None
  | Some lineChars' => Some (trimRight (string_of_list_ascii lineChars'))
  end.

Fixpoint renderLines (charWidth : float) (buf : string) (lines : list line)
  : option string :=
  match lines with
  | [] => Some buf
  | ln :: rest =>
      match renderLine charWidth ln with
      | None => None
      | Some trimmed =>
          renderLines charWidth (buf ++ trimmed ++ newlineUnlessLast rest) rest
      end
  end.

Definition charWidthOf (pageWidth : float) : float :=
  let pageWidth := if (pageWidth <=? 0)%float then 612%float else pageWidth in
  (pageWidth / float64_of_int charsPerLine)%float.

(** [PhysicalLayoutText] after [PageStyledTexts] has succeeded. *)
Definition physicalLayout (styledTexts : list StyledText) (pageWidth : float)
  : option string :=
  match styledTexts with
  | [] => Some ""
  | _ :: _ =>
      match groupLines (sortSlice lessYX styledTexts) with
      | None => None
      | Some lines => renderLines (charWidthOf pageWidth) "" lines
      end
  end.

(** *** The [Reader] methods *)

(** [r.reader.Page(pageNum)] followed by the null test and
    [page.GetTextByRow()]. *)
Definition getTextByRow (r : gopdf.Reader) (what : string) (pageNum : Z)
  : M (list gopdf.Row * option error) :=
  _ <- access (AccessPage pageNum) ;;
  match gopdf.Page r pageNum with
  | gopdf.NullPage => ret ([], Some (ErrPageNull pageNum))
  | gopdf.FailingPage cause =>
      _ <- access (AccessRows pageNum) ;;
      ret ([], Some (ErrFailedToGet what pageNum (ErrRowSource cause)))
  | gopdf.RowsPage rows =>
      _ <- access (AccessRows pageNum) ;;
      ret (rows, None)
  end.

Definition PagePlainText (r : gopdf.Reader) (pageNum : Z)
  : M (string * option error) :=
  '(rows, err) <- getTextByRow r "text" pageNum ;;
  match err with
  | Some e => ret ("", Some e)
  | None =>
      s <- orPanic (plainTextRows "" rows) ;;
      ret (s, None)
  end.

Definition PageTextByRow (r : gopdf.Reader) (pageNum : Z)
  : M (list TextRow * option error) :=
  '(rows, err) <- getTextByRow r "text rows" pageNum ;;
  match err with
  | Some e => ret ([], Some e)
  | None => ret (textRowsOf rows, None)
  end.

Definition PageStyledTexts (r : gopdf.Reader) (pageNum : Z)
  : M (list StyledText * option error) :=
  '(rows, err) <- getTextByRow r "styled texts" pageNum ;;
  match err with
  | Some e => ret ([], Some e)
  | None => ret (styledTextsOf rows, None)
  end.

Definition PhysicalLayoutText (r : gopdf.Reader) (pageNum : Z) (pageWidth : float)
  : M (string * option error) :=
  '(styledTexts, err) <- PageStyledTexts r pageNum ;;
  match err with
  | Some e => ret ("", Some e)
  | None =>
      s <- orPanic (physicalLayout styledTexts pageWidth) ;;
      ret (s, None)
  end.

End WithRuntimePhysical.

End pdf.

(** ** [pkg/crazypdf] *)

Module crazypdf.

(** A [Page] points to its [Document]; the methods below take the
    document the page belongs to as their first argument. *)
Record Page := mkPage { Number : Z }.

Record Document := mkDocument {
  filePath : string;
  reader : gopdf.Reader;
  pages : list Page;
  closed : bool
}.

(** The page list built by [Open] and [OpenBytes]. *)
Definition buildPages (numPages : nat) : list Page :=
  map (fun i => {| Number := Z.of_nat i + 1 |}) (seq 0 numPages).

Definition Open (path : string) (r : gopdf.Reader) : Document :=
  {| filePath := path; reader := r;
     pages := buildPages (gopdf.NumPage r); closed := false |}.

Definition Close (d : Document) : Document :=
  {| filePath := filePath d; reader := reader d; pages := pages d; closed := true |}.

Definition IsClosed (d : Document) : bool := closed d.
Definition Pages (d : Document) : list Page := pages d.

Definition NumPages (d : Document) : Z := Z.of_nat (List.length (pages d)).

(** The errors of [Document.Page]: the sentinel [ErrDocumentClosed], and
    [ErrPageOutOfRange] wrapped with the index asked for and the number of
    pages of the document. *)
Inductive pageError :=
| PageErr (e : error)
| ErrPageOutOfRange (requested numPages : Z).

(** The method [Document.Page(index)], [index] counting from 0; the
    pointer it returns is [nil] exactly when there is an error. *)
Definition DocumentPage (d : Document) (index : Z)
  : option Page * option pageError :=
  if closed d then (None, Some (PageErr ErrDocumentClosed))
  else if ((index <? 0) || (index >=? Z.of_nat (List.length (pages d))))%Z then
    (None, Some (ErrPageOutOfRange index (Z.of_nat (List.length (pages d)))))
  else (nth_error (pages d) (Z.to_nat index), None).

Section WithRuntime.
Context `{RT : Runtime}.

Definition PlainText (d : Document) (p : Page) : M (string * option error) :=
  if closed d then ret ("", Some ErrDocumentClosed)
  else pdf.PagePlainText (reader d) (Number p).

Definition TextByRow (d : Document) (p : Page)
  : M (list pdf.TextRow * option error) :=
  if closed d then ret ([], Some ErrDocumentClosed)
  else pdf.PageTextByRow (reader d) (Number p).

Definition StyledTexts (d : Document) (p : Page)
  : M (list pdf.StyledText * option error) :=
  if closed d then ret ([], Some ErrDocumentClosed)
  else pdf.PageStyledTexts (reader d) (Number p).

Definition PhysicalLayoutText (d : Document) (p : Page) (pageWidth : float)
  : M (string * option error) :=
  if closed d then ret ("", Some ErrDocumentClosed)
  else pdf.PhysicalLayoutText (reader d) (Number p) pageWidth.

End WithRuntime.

End crazypdf.

(** ** [pkg/extract] *)

Module extract.

(** [LayoutMode] is an [int]: any value can reach the [switch]. *)
Definition LayoutMode := Z.
Definition LayoutSimple : LayoutMode := 0%Z.
Definition LayoutRaw : LayoutMode := 1%Z.
Definition LayoutPhysical : LayoutMode := 2%Z.

Record textConfig := mkTextConfig {
  Layout : LayoutMode;
  PageSeparator : string;
  PageWidth : float
}.

Definition Option := textConfig -> textConfig.

Definition WithLayout (mode : LayoutMode) : Option :=
  fun c => {| Layout := mode; PageSeparator := PageSeparator c;
              PageWidth := PageWidth c |}.

Definition WithPageSeparator (sep : string) : Option :=
  fun c => {| Layout := Layout c; PageSeparator := sep; PageWidth := PageWidth c |}.

Definition WithPageWidth (width : float) : Option :=
  fun c => {| Layout := Layout c; PageSeparator := PageSeparator c;
              PageWidth := width |}.

Definition defaultConfig : textConfig :=
  {| Layout := LayoutSimple;
     PageSeparator := String "010" (String "010" "");
     PageWidth := 612%float |}.

Definition applyOptions (opts : list Option) : textConfig :=
  fold_left (fun cfg opt => opt cfg) opts defaultConfig.

(** *** [extractRawText]: the stream-order word joiner *)

Definition lessWX (a b : pdf.TextWord) : bool := (pdf.wX a <? pdf.wX b)%float.

(** One turn of the [for j] loop: what is written to [buf]. *)
Definition rawStep (prev curr : pdf.TextWord) : string :=
  let fontSize := pdf.wFontSize prev in
  let fontSize := if (fontSize <=? 0)%float then pdf.wFontSize curr else fontSize in
  let fontSize := if (fontSize <=? 0)%float then 12%float else fontSize in
  let avgCharWidth := (fontSize * 0.5)%float in
  let prevEndX :=
    (pdf.wX prev + float64_of_int (len (pdf.wS prev)) * avgCharWidth)%float in
  let gap := (pdf.wX curr - prevEndX)%float in
  (if (avgCharWidth * 0.3 <? gap)%float then " " else "") ++ pdf.wS curr.

Fixpoint rawLoop (buf : string) (prev : pdf.TextWord) (rest : list pdf.TextWord)
  : string :=
  match rest with
  | [] => buf
  | curr :: rest' => rawLoop (buf ++ rawStep prev curr) curr rest'
  end.

(** A row that has words: [words] is the sorted copy. *)
Definition rawWords (buf : string) (words : list pdf.TextWord) : option string :=
  match words with
  | [] => None
  | first :: rest => Some (rawLoop (buf ++ pdf.wS first) first rest)
  end.

Section WithRuntime.
Context `{RT : Runtime}.

Fixpoint rawRows (buf : string) (rows : list pdf.TextRow) : option string :=
  match rows with
  | [] => Some buf
  | row :: rest =>
      match pdf.Words row with
      | [] => rawRows (buf ++ pdf.newlineUnlessLast rest) rest
      | _ :: _ =>
          match rawWords buf (sortSlice lessWX (pdf.Words row)) with
          | None => None
          | Some buf' => rawRows (buf' ++ pdf.newlineUnlessLast rest) rest
          end
      end
  end.

Definition extractRawText (d : crazypdf.Document) (page : crazypdf.Page)
  : M (string * option error) :=
  '(rows, err) <- crazypdf.TextByRow d page ;;
  match err with
  | Some e => ret ("", Some e)
  | None =>
      s <- orPanic (rawRows "" rows) ;;
      ret (s, None)
  end.

(** *** The facade *)

Definition PageText (d : crazypdf.Document) (page : crazypdf.Page)
           (opts : list Option) : M (string * option error) :=
  let cfg := applyOptions opts in
  if (Layout cfg =? LayoutSimple)%Z then crazypdf.PlainText d page
  else if (Layout cfg =? LayoutRaw)%Z then extractRawText d page
  else if (Layout cfg =? LayoutPhysical)%Z then
    crazypdf.PhysicalLayoutText d page (PageWidth cfg)
  else crazypdf.PlainText d page.

(** The [for _, page := range pages] loop of [AllPages]. *)
Fixpoint allPagesLoop (d : crazypdf.Document) (opts : list Option)
         (result : list string) (pages : list crazypdf.Page)
  : M (list string * option error) :=
  match pages with
  | [] => ret (result, None)
  | page :: rest =>
      '(text, err) <- PageText d page opts ;;
      match err with
      | Some e => ret ([], Some (ErrFailedToExtract (crazypdf.Number page) e))
      | None => allPagesLoop d opts (result ++ [text])%list rest
      end
  end.

Definition AllPages (d : crazypdf.Document) (opts : list Option)
  : M (list string * option error) :=
  if crazypdf.IsClosed d then ret ([], Some ErrDocumentClosed)
  else allPagesLoop d opts [] (crazypdf.Pages d).

Definition Text (d : crazypdf.Document) (opts : list Option)
  : M (string * option error) :=
  if crazypdf.IsClosed d then ret ("", Some ErrDocumentClosed)
  else
    '(pages, err) <- AllPages d opts ;;
    match err with
    | Some e => ret ("", Some e)
    | None =>
        let cfg := applyOptions opts in
        ret (String.concat (PageSeparator cfg) pages, None)
    end.

End WithRuntime.

End extract.

(** ** [cmd/crazypdf]: the [text] command *)

Module cli.

(** The library functions [parsePageRange] calls: [strings.Split],
    [strings.TrimSpace], [strings.Contains], and [fmt.Sscanf] with the
    formats ["%d-%d"] and ["%d"] ([None] when it returns an error). *)
Class Library := {
  Split : string -> string -> list string;
  TrimSpace : string -> string;
  Contains : string -> string -> bool;
  SscanfRange : string -> option (Z * Z);
  SscanfInt : string -> option Z
}.

(** The five [fmt.Errorf] of [parsePageRange]. *)
Inductive rangeError :=
| ErrInvalidRange (part : string)
| ErrRangeOutOfBounds (part : string) (totalPages : Z)
| ErrStartAfterEnd (part : string)
| ErrInvalidNumber (part : string)
| ErrNumberOutOfRange (page totalPages : Z).

(** [for i := start; i <= end; i++ { indices = append(indices, i-1) }]:
    [fuel] bounds the number of turns. *)
Fixpoint rangeLoop (fuel : nat) (indices : list Z) (i end_ : Z) : list Z :=
  match fuel with
  | O => indices
  | Datatypes.S fuel' =>
      if (i <=? end_)%Z
      then rangeLoop fuel' (indices ++ [(i - 1)%Z])%list (i + 1)%Z end_
      else indices
  end.

Section WithLibrary.
Context `{LIB : Library}.

(** The [for _, part := range parts] loop. *)
Fixpoint partsLoop (totalPages : Z) (indices : list Z) (parts : list string)
  : list Z * option rangeError :=
  match parts with
  | [] => (indices, None)
  | part :: rest =>
      let part := TrimSpace part in
      if (part =? "")%string then partsLoop totalPages indices rest
      else if Contains part "-" then
        match SscanfRange part with
        | None => ([], Some (ErrInvalidRange part))
        | Some (start, end_) =>
            if ((start <? 1) || (end_ <? 1)
                || (start >? totalPages) || (end_ >? totalPages))%Z
            then ([], Some (ErrRangeOutOfBounds part totalPages))
            else if (start >? end_)%Z then ([], Some (ErrStartAfterEnd part))
            else partsLoop totalPages
                           (rangeLoop (Z.to_nat (end_ - start + 1)) indices start end_)
                           rest
        end
      else
        match SscanfInt part with
        | None => ([], Some (ErrInvalidNumber part))
        | Some page =>
            if ((page <? 1) || (page >? totalPages))%Z
            then ([], Some (ErrNumberOutOfRange page totalPages))
            else partsLoop totalPages (indices ++ [(page - 1)%Z])%list rest
        end
  end.

(** [make([]int, totalPages)] panics for a negative length. *)
Definition parsePageRange (pagesStr : string) (totalPages : Z)
  : option (list Z * option rangeError) :=
  if (pagesStr =? "")%string then
    if (totalPages <? 0)%Z then None
    else Some (map Z.of_nat (seq 0 (Z.to_nat totalPages)), None)
  else Some (partsLoop totalPages [] (Split pagesStr ",")).

End WithLibrary.

(** The [switch] on the flags [-layout] and [-raw]. *)
Definition layoutModeOf (layout raw : bool) : extract.LayoutMode :=
  if layout then extract.LayoutPhysical
  else if raw then extract.LayoutRaw
  else extract.LayoutSimple.

(** How [runTextCommand] ends once the document is open: with the text it
    prints or writes, or with [os.Exit(1)] after one of its three
    messages. *)
Inductive exit :=
| ExitParsingRange (e : rangeError)
| ExitAccessingPage (pageNumber : Z) (e : crazypdf.pageError)
| ExitExtracting (pageNumber : Z) (e : error).

Section WithRuntime.
Context `{RT : Runtime}.

(** The [for i, pageIdx := range pageIndices] loop; [result] is the
    [strings.Builder]. *)
Fixpoint pagesLoop (doc : crazypdf.Document) (extractOpts : list extract.Option)
         (result : string) (pageIndices : list Z) : M (string + exit) :=
  match pageIndices with
  | [] => ret (inl result)
  | pageIdx :: rest =>
      match crazypdf.DocumentPage doc pageIdx with
      | (_, Some e) => ret (inr (ExitAccessingPage (pageIdx + 1) e))
      | (page, None) =>
          page <- orPanic page ;;
          '(text, err) <- extract.PageText doc page extractOpts ;;
          match err with
          | Some e => ret (inr (ExitExtracting (pageIdx + 1) e))
          | None =>
              pagesLoop doc extractOpts
                        (result ++ text
                         ++ match rest with
                            | [] => ""
                            | _ :: _ => String "010" (String "010" "")
                            end)
                        rest
          end
      end
  end.

(** [runTextCommand] from the page range to
    [output := result.String()]. *)
Definition textCommand `{LIB : Library} (doc : crazypdf.Document)
           (layout raw : bool) (pagesFlag : string) : M (string + exit) :=
  r <- orPanic (parsePageRange pagesFlag (crazypdf.NumPages doc)) ;;
  match r with
  | (_, Some e) => ret (inr (ExitParsingRange e))
  | (pageIndices, None) =>
      pagesLoop doc [extract.WithLayout (layoutModeOf layout raw)] "" pageIndices
  end.

(** [strings.HasSuffix(s, suffix)]. *)
Definition HasSuffix (s suffix : string) : bool :=
  ((String.length suffix <=? String.length s)%nat
   && (substring (String.length s - String.length suffix) (String.length suffix) s
       =? suffix)%string)%bool.

(** What the command leaves behind when it does not exit early: the file
    written (with the page count of the message on the standard error), the
    text printed on the standard output, or the exit after a failed
    write. *)
Inductive delivery :=
| Written (outputFile content : string) (pages : Z)
| Printed (stdout : string)
| ExitWriting (cause : string).

(** The end of [runTextCommand], from [output := result.String()] on;
    [WriteFile] is [os.WriteFile], [None] when it returns no error. *)
Definition deliver (WriteFile : string -> string -> option string)
           (outputFile output : string) (pages : Z) : delivery :=
  if negb (outputFile =? "")%string then
    match WriteFile outputFile output with
    | Some cause => ExitWriting cause
    | None => Written outputFile output pages
    end
  else
    Printed (output ++ if negb (HasSuffix output (String "010" ""))
                       then String "010" "" else "").

(** [runTextCommand] from the page range to the end. *)
Definition runTextCommand `{LIB : Library}
           (WriteFile : string -> string -> option string)
           (doc : crazypdf.Document) (layout raw : bool)
           (pagesFlag outputFile : string) : M (delivery + exit) :=
  r <- orPanic (parsePageRange pagesFlag (crazypdf.NumPages doc)) ;;
  match r with
  | (_, Some e) => ret (inr (ExitParsingRange e))
  | (pageIndices, None) =>
      out <- pagesLoop doc [extract.WithLayout (layoutModeOf layout raw)] ""
                       pageIndices ;;
      match out with
      | inr e => ret (inr e)
      | inl output =>
          ret (inl (deliver WriteFile outputFile output
                            (Z.of_nat (List.length pageIndices))))
      end
  end.

End WithRuntime.

End cli.

(** ** [pkg/strings]: cleaning the extracted strings *)

Module strings.

(** The library functions [cleanString] calls: [strings.ReplaceAll],
    [strings.TrimSpace], and [ReplaceAllString(cleaned, "")] on the
    compiled pattern of the control characters. *)
Class Library := {
  ReplaceAll : string -> string -> string -> string;
  TrimSpace : string -> string;
  removeControl : string -> string
}.

Section WithLibrary.
Context `{LIB : Library}.

Definition cleanString (str : string) : string :=
  let cleaned := ReplaceAll str "\(" "(" in
  let cleaned := ReplaceAll cleaned "\)" ")" in
  let cleaned := ReplaceAll cleaned "\n" (String "010" "") in
  let cleaned := ReplaceAll cleaned "\r" (String "013" "") in
  let cleaned := ReplaceAll cleaned "\t" (String "009" "") in
  let cleaned := TrimSpace cleaned in
  removeControl cleaned.

(** The map [seen]: a missing key reads [false]. *)
Definition setSeen (seen : string -> bool) (key : string) : string -> bool :=
  fun k => if (k =? key)%string then true else seen k.

(** The [for _, str := range rawStrings] loop. *)
Fixpoint processLoop (seen : string -> bool) (processed : list string)
         (rawStrings : list string) : list string :=
  match rawStrings with
  | [] => processed
  | str :: rest =>
      let cleaned := cleanString str in
      if ((cleaned =? "")%string || (len cleaned <? 2)%Z)%bool
      then processLoop seen processed rest
      else if negb (seen cleaned)
           then processLoop (setSeen seen cleaned) (processed ++ [cleaned])%list rest
           else processLoop seen processed rest
  end.

Definition processStrings (rawStrings : list string) : list string :=
  processLoop (fun _ => false) [] rawStrings.

End WithLibrary.

(** *** The chunk loop of [extractStringsFromPage]

    One [content.Read(b)] on the 1024-byte buffer [b]: the bytes read
    (their number is [n]) and whether an error came with them. *)
Record read := mkRead { data : list ascii; failed : bool }.

(** [contentStr] after the loop: [reads] is what the successive calls of
    [Read] return; a full buffer is written, anything else ends the
    loop. *)
Fixpoint chunkLoop (contentStr : list ascii) (reads : list read) : list ascii :=
  match reads with
  | [] => contentStr
  | r :: rest =>
      if (failed r || (Z.of_nat (List.length (data r)) <? 1024)%Z)%bool
      then contentStr
      else chunkLoop (contentStr ++ data r)%list rest
  end.

End strings.

(** ** A run time: insertion sort

  [sort.Slice] sorts a slice of at most twelve elements by insertion
  ([insertionSortLessFunc]): element [i] moves down while it is [less]
  than its predecessor.  The instance below takes that for every length. *)

Module InsertionRuntime.

(** [revPrefix] is the sorted prefix [data[a:i]], last element first;
    [x] is [data[i]]. *)
Fixpoint insertDown {A} (less : A -> A -> bool) (x : A) (revPrefix : list A)
  : list A :=
  match revPrefix with
  | [] => [x]
  | y :: rest => if less x y then y :: insertDown less x rest else x :: y :: rest
  end.

Definition insertionSort {A} (less : A -> A -> bool) (data : list A) : list A :=
  rev (fold_left (fun revPrefix x => insertDown less x revPrefix) data []).

End InsertionRuntime.


(** * Specification vocabulary

    The notions the properties below are stated with: lines made of texts
    and spaces, the order of binary64 values, the walk and the grid as the
    specification words them, what the facade returns and touches, and the
    inputs of the examples. *)

Section Specification.

Context `{RT : Runtime}.

(** [withSpaces spaces texts]: every text in order, each preceded by one
    space exactly when its flag says so. *)
Fixpoint withSpaces (spaces : list bool) (texts : list string) : string :=
  match spaces, texts with
  | b :: spaces', t :: texts' =>
      (if b then " " else "") ++ t ++ withSpaces spaces' texts'
  | _, _ => ""
  end.

(** A line made of [texts] and nothing but single spaces between
    neighbours: the empty line for no text, else the first text followed by
    the others under some choice of flags, one flag per neighbour pair. *)
Definition LineOfTexts (texts : list string) (ln : string) : Prop :=
  match texts with
  | [] => ln = ""
  | first :: others =>
      exists spaces, List.length spaces = List.length others /\
                     ln = first ++ withSpaces spaces others
  end.

(** The flags the conservative policy chooses along a sorted row. *)
Fixpoint conservativeSpaces (minCharWidth : float) (prev : gopdf.Text)
         (rest : list gopdf.Text) : list bool :=
  match rest with
  | [] => []
  | curr :: rest' =>
      (minCharWidth * 0.5 <?
       gopdf.X curr - (gopdf.X prev
                       + float64_of_int (len (gopdf.S prev)) * minCharWidth))%float
      :: conservativeSpaces minCharWidth curr rest'
  end.

(** The stream-order policy's decision for one pair. *)
Definition rawSpace (prev curr : pdf.TextWord) : bool :=
  let fontSize := pdf.wFontSize prev in
  let fontSize := if (fontSize <=? 0)%float then pdf.wFontSize curr else fontSize in
  let fontSize := if (fontSize <=? 0)%float then 12%float else fontSize in
  (fontSize * 0.5 * 0.3 <?
   pdf.wX curr - (pdf.wX prev
                  + float64_of_int (len (pdf.wS prev)) * (fontSize * 0.5)))%float.

Fixpoint rawSpaces (prev : pdf.TextWord) (rest : list pdf.TextWord) : list bool :=
  match rest with
  | [] => []
  | curr :: rest' => rawSpace prev curr :: rawSpaces curr rest'
  end.

Definition newline : string := String "010" "".

(** The line the conservative policy writes for a row. *)
Definition conservativeLine (row : gopdf.Row) : string :=
  match sortSlice pdf.lessX (gopdf.Content row) with
  | [] => ""
  | first :: rest =>
      gopdf.S first
      ++ withSpaces (conservativeSpaces (pdf.estimateMinCharWidth first rest) first rest)
                    (map gopdf.S rest)
  end.

(** The line the stream-order policy writes for a row. *)
Definition rawLine (row : pdf.TextRow) : string :=
  match sortSlice extract.lessWX (pdf.Words row) with
  | [] => ""
  | first :: rest =>
      pdf.wS first ++ withSpaces (rawSpaces first rest) (map pdf.wS rest)
  end.

Definition Position3 := (Z * Z * Z)%type.

Definition lexCompare (a b : Position3) : comparison :=
  let '(a1, a2, a3) := a in
  let '(b1, b2, b3) := b in
  match (a1 ?= b1)%Z with
  | Eq => match (a2 ?= b2)%Z with
          | Eq => (a3 ?= b3)%Z
          | r => r
          end
  | r => r
  end.

Definition lexLt (a b : Position3) : Prop :=
  let '(a1, a2, a3) := a in
  let '(b1, b2, b3) := b in
  (a1 < b1 \/ (a1 = b1 /\ (a2 < b2 \/ (a2 = b2 /\ a3 < b3))))%Z.

Definition positionSF (x : spec_float) : option Position3 :=
  match x with
  | S754_nan => None
  | S754_infinity true => Some (-2, 0, 0)%Z
  | S754_finite true m e => Some (-1, - e, - Zpos m)%Z
  | S754_zero _ => Some (0, 0, 0)%Z
  | S754_finite false m e => Some (1, e, Zpos m)%Z
  | S754_infinity false => Some (2, 0, 0)%Z
  end.

Definition position (x : float) : option Position3 := positionSF (Prim2SF x).

(** [x] is a number: not a NaN. *)
Definition isNumber (x : float) : Prop := position x <> None.

Definition lessBy {A : Type} (key : A -> float) (a b : A) : bool :=
  (key a <? key b)%float.

(** Runs that tie under [less] are the same run. *)
Definition NoTies {A : Type} (less : A -> A -> bool) (l : list A) : Prop :=
  forall a b, In a l -> In b l -> less a b = true \/ less b a = true \/ a = b.

(** The font size of a pair as the specification words it: that of [prev]
    if positive, else that of [curr] if positive, else 12. *)
Definition specFontSize (prev curr : pdf.TextWord) : float :=
  if (0 <? pdf.wFontSize prev)%float then pdf.wFontSize prev
  else if (0 <? pdf.wFontSize curr)%float then pdf.wFontSize curr
       else 12%float.

Definition specAvgCharWidth (prev curr : pdf.TextWord) : float :=
  (specFontSize prev curr * 0.5)%float.

Definition specGap (prev curr : pdf.TextWord) : float :=
  (pdf.wX curr
   - (pdf.wX prev
      + float64_of_int (len (pdf.wS prev)) * specAvgCharWidth prev curr))%float.

(** A space is inserted iff [gap > avgCharWidth * 0.3]. *)
Definition specRawSpace (prev curr : pdf.TextWord) : bool :=
  (specAvgCharWidth prev curr * 0.3 <? specGap prev curr)%float.

Fixpoint specRawSpaces (prev : pdf.TextWord) (rest : list pdf.TextWord) : list bool :=
  match rest with
  | [] => []
  | curr :: rest' => specRawSpace prev curr :: specRawSpaces curr rest'
  end.

Definition numericFontSizes (words : list pdf.TextWord) : Prop :=
  Forall (fun w => isNumber (pdf.wFontSize w)) words.

(** The line of a row, with the decisions of the specification. *)
Definition specRawLine (row : pdf.TextRow) : string :=
  match sortSlice extract.lessWX (pdf.Words row) with
  | [] => ""
  | first :: rest =>
      pdf.wS first ++ withSpaces (specRawSpaces first rest) (map pdf.wS rest)
  end.

Definition exampleWords : list pdf.TextWord :=
  [ pdf.mkTextWord "world" 40%float 700%float "F1" 0%float;
    pdf.mkTextWord "Hello" 10%float 700%float "F1" 10%float;
    pdf.mkTextWord "!" 65%float 700%float "F1" 10%float ].

(** The per-character advances [(curr.x - prev.x) / len(prev.text)] of the
    consecutive pairs whose [prev.text] is not empty. *)
Fixpoint advances (prev : gopdf.Text) (rest : list gopdf.Text) : list float :=
  match rest with
  | [] => []
  | curr :: rest' =>
      (if (0 <? len (gopdf.S prev))%Z
       then [((gopdf.X curr - gopdf.X prev)
              / float64_of_int (len (gopdf.S prev)))%float]
       else [])
      ++ advances curr rest'
  end%list.

(** [w] is the smallest strictly positive member of [advs]. *)
Definition SmallestPositive (advs : list float) (w : float) : Prop :=
  In w advs /\ (0 <? w)%float = true /\
  forall a, In a advs -> (0 <? a)%float = true -> (w <=? a)%float = true.

Definition NonePositive (advs : list float) : Prop :=
  forall a, In a advs -> (0 <? a)%float = false.

(** The fallback: the first run's font size times 0.6, with 12 for a
    non-positive font size. *)
Definition specFallback (first : gopdf.Text) : float :=
  ((if (gopdf.FontSize first <=? 0)%float then 12 else gopdf.FontSize first) * 0.6)%float.

(** What the first loop knows after the advances [seen]. *)
Definition EstimateInv (seen : list float) (m : float) : Prop :=
  (m = 0%float /\ NonePositive seen) \/ SmallestPositive seen m.

Definition numericPosition (st : pdf.StyledText) : Prop :=
  isNumber (pdf.stX st) /\ isNumber (pdf.stY st).

(** [a] comes before [b] on the page: higher, or level and not to the
    right. *)
Definition pageOrder (a b : pdf.StyledText) : Prop :=
  (pdf.stY b <? pdf.stY a)%float = true
  \/ ((pdf.stY a =? pdf.stY b)%float = true
      /\ (pdf.stX a <=? pdf.stX b)%float = true).

(** [|anchorY - y| > 2.0]: the magnitude is that of IEEE 754
    ([PrimFloat.abs], the value with its sign cleared), not the function
    [abs] of the source. *)
Definition beyondTolerance (anchorY y : float) : bool :=
  (2.0 <? PrimFloat.abs (anchorY - y))%float.

(** The walk as the specification words it: [current] is the Line being
    filled and [anchorY] the [y] of the run that started it. *)
Fixpoint specWalk (anchorY : float) (current : list pdf.StyledText)
         (rest : list pdf.StyledText) : list pdf.line :=
  match rest with
  | [] => [pdf.mkLine anchorY current]
  | run :: rest' =>
      if beyondTolerance anchorY (pdf.stY run)
      then pdf.mkLine anchorY current :: specWalk (pdf.stY run) [run] rest'
      else specWalk anchorY (current ++ [run])%list rest'
  end.

(** The very first run always starts a Line. *)
Definition specAssemble (sorted : list pdf.StyledText) : list pdf.line :=
  match sorted with
  | [] => []
  | run :: rest => specWalk (pdf.stY run) [run] rest
  end.

(** A Line whose anchor is the [y] of its first run, every run of which
    lies within the tolerance of that anchor. *)
Definition anchoredLine (ln : pdf.line) : Prop :=
  match pdf.texts ln with
  | [] => False
  | first :: others =>
      pdf.y ln = pdf.stY first
      /\ Forall (fun run => beyondTolerance (pdf.y ln) (pdf.stY run) = false)
                others
  end.

(** Consecutive Lines: the run that starts a Line lies beyond the
    tolerance of the anchor of the Line before. *)
Fixpoint separatedLines (lines : list pdf.line) : Prop :=
  match lines with
  | [] => True
  | ln :: rest =>
      match rest with
      | [] => True
      | next :: _ =>
          match pdf.texts next with
          | [] => False
          | first :: _ => beyondTolerance (pdf.y ln) (pdf.stY first) = true
          end
      end /\ separatedLines rest
  end.

(** [text] laid over [lineChars] from column [n] on, cut at column 80. *)
Definition overlay (lineChars text : list ascii) (n : nat) : list ascii :=
  (firstn n lineChars
   ++ firstn (80 - n) text
   ++ skipn (n + List.length (firstn (80 - n) text)) lineChars)%list.

Definition clamp (z lo hi : Z) : Z := Z.max lo (Z.min z hi).

(** The floor of a binary64 value, when it is finite. *)
Definition floorSF (x : spec_float) : option Z :=
  match x with
  | S754_zero _ => Some 0%Z
  | S754_finite s m e => Some (Z.shiftl (cond_Zopp s (Zpos m)) e)
  | _ => None
  end.

Definition floorOf (f : float) : option Z := floorSF (Prim2SF f).

Definition bytesOf (st : pdf.StyledText) : list ascii :=
  list_ascii_of_string (pdf.Text st).

(** The buffer after the runs [lnTexts], in that order: later runs
    overwrite earlier ones. *)
Definition specWriteTexts (charWidth : float) (lineChars : list ascii)
           (lnTexts : list pdf.StyledText) : list ascii :=
  fold_left (fun buf st => overlay buf (bytesOf st)
                                   (Z.to_nat (pdf.column charWidth st)))
            lnTexts lineChars.

(** A rendered Line: its runs sorted by [x], laid over 80 spaces, trailing
    spaces trimmed. *)
Definition specRenderLine (charWidth : float) (ln : pdf.line) : string :=
  pdf.trimRight
    (string_of_list_ascii
       (specWriteTexts charWidth (repeat " "%char 80)
                       (sortSlice pdf.lessStX (pdf.texts ln)))).

(** The page in physical layout. *)
Definition specPhysicalLayout (styledTexts : list pdf.StyledText) (pageWidth : float)
  : string :=
  String.concat newline
    (map (specRenderLine (pdf.charWidthOf pageWidth))
         (specAssemble (sortSlice pdf.lessYX styledTexts))).

Fixpoint spaces (k : nat) : string :=
  match k with
  | O => ""
  | Datatypes.S k' => String " " (spaces k')
  end.

Definition lastChar (s : string) : option ascii :=
  String.get (String.length s - 1) s.

Inductive Policy := Conservative | StreamOrder | Physical.

(** The [switch] of [PageText], [default] included. *)
Definition policyOf (mode : extract.LayoutMode) : Policy :=
  if (mode =? extract.LayoutRaw)%Z then StreamOrder
  else if (mode =? extract.LayoutPhysical)%Z then Physical
  else Conservative.

(** The word of the error message of each path. *)
Definition whatOf (policy : Policy) : string :=
  match policy with
  | Conservative => "text"
  | StreamOrder => "text rows"
  | Physical => "styled texts"
  end.

(** The text of a page under a policy, from its rows. *)
Definition specLayoutText (policy : Policy) (pageWidth : float)
           (rows : list gopdf.Row) : string :=
  match policy with
  | Conservative => String.concat newline (map conservativeLine rows)
  | StreamOrder => String.concat newline (map rawLine (pdf.textRowsOf rows))
  | Physical => specPhysicalLayout (pdf.styledTextsOf rows) pageWidth
  end.

(** What [PageText] returns. *)
Definition specPageText (d : crazypdf.Document) (page : crazypdf.Page)
           (opts : list extract.Option) : string * option error :=
  let cfg := extract.applyOptions opts in
  let policy := policyOf (extract.Layout cfg) in
  let n := crazypdf.Number page in
  if crazypdf.closed d then ("", Some ErrDocumentClosed)
  else match gopdf.Page (crazypdf.reader d) n with
       | gopdf.NullPage => ("", Some (ErrPageNull n))
       | gopdf.FailingPage cause =>
           ("", Some (ErrFailedToGet (whatOf policy) n (ErrRowSource cause)))
       | gopdf.RowsPage rows =>
           (specLayoutText policy (extract.PageWidth cfg) rows, None)
       end.

(** What [PageText] asks of the row source. *)
Definition specPageAccesses (d : crazypdf.Document) (page : crazypdf.Page)
  : Trace :=
  let n := crazypdf.Number page in
  if crazypdf.closed d then []
  else match gopdf.Page (crazypdf.reader d) n with
       | gopdf.NullPage => [AccessPage n]
       | _ => [AccessPage n; AccessRows n]
       end.

(** [PageText] succeeds on [page], whatever was read before. *)
Definition pageSucceeds (d : crazypdf.Document) (opts : list extract.Option)
           (page : crazypdf.Page) : Prop :=
  forall t, exists text t',
      extract.PageText d page opts t = Some ((text, None), t').

(** [PageText] fails on [page] with the error [e]. *)
Definition pageFailsWith (d : crazypdf.Document) (opts : list extract.Option)
           (page : crazypdf.Page) (e : error) : Prop :=
  forall t, exists text t',
      extract.PageText d page opts t = Some ((text, Some e), t').

(** The pages of [pages] that [AllPages] gets through: all of them up to
    the first that fails, that one included. *)
Fixpoint pagesReached (d : crazypdf.Document) (opts : list extract.Option)
         (pages : list crazypdf.Page) : list crazypdf.Page :=
  match pages with
  | [] => []
  | page :: rest =>
      match snd (specPageText d page opts) with
      | Some _ => [page]
      | None => page :: pagesReached d opts rest
      end
  end.

(** What [AllPages] returns for the pages still to do. *)
Fixpoint specAllPages (d : crazypdf.Document) (opts : list extract.Option)
         (result : list string) (pages : list crazypdf.Page)
  : list string * option error :=
  match pages with
  | [] => (result, None)
  | page :: rest =>
      match snd (specPageText d page opts) with
      | Some e => ([], Some (ErrFailedToExtract (crazypdf.Number page) e))
      | None =>
          specAllPages d opts (result ++ [fst (specPageText d page opts)])%list rest
      end
  end.

(** A three-page document whose second page cannot be parsed. *)
Definition threePageReader : gopdf.Reader :=
  gopdf.mkReader 3
    (fun n => if (n =? 2)%Z then gopdf.FailingPage "bad stream"
              else gopdf.RowsPage
                     [gopdf.mkRow 700 [gopdf.mkText "Hello" 72 700 "F1" 12]]).

Definition threePageDocument : crazypdf.Document :=
  crazypdf.Open "three.pdf" threePageReader.

(** Runs whose keys are numbers and never tie (two runs with the same key
    are the same run). *)
Definition distinctKeys {A} (key : A -> float) (l : list A) : Prop :=
  (forall a, In a l -> isNumber (key a)) /\ NoTies (lessBy key) l.

Definition distinctPositions (l : list pdf.StyledText) : Prop :=
  Forall numericPosition l /\ NoTies pdf.lessYX l.

(** Two runs of a row at the same [x]. *)
Definition tiedRuns : list gopdf.Text :=
  [gopdf.mkText "a" 10 700 "F1" 12; gopdf.mkText "b" 10 700 "F1" 12].

Definition tiedStyledTexts : list pdf.StyledText := map pdf.styledOfText tiedRuns.

Definition distinctRuns : list gopdf.Text :=
  [gopdf.mkText "world" 40 700 "F1" 10; gopdf.mkText "Hello" 10 700 "F1" 10].

(** A value that is not negative: a zero, a positive number, or a NaN. *)
Definition notNegativeSF (x : spec_float) : Prop :=
  match x with
  | S754_finite true _ _ | S754_infinity true => False
  | _ => True
  end.

(** A value that is not positive. *)
Definition notPositiveSF (x : spec_float) : Prop :=
  match x with
  | S754_finite false _ _ | S754_infinity false => False
  | _ => True
  end.

(** Two runs a few denormals apart: [curr.x] is [5 * 2^-1074]. *)
Definition denormalRow : list gopdf.Text :=
  [gopdf.mkText "abcd" 0 700 "F1" 12;
   gopdf.mkText "xy" 0x5p-1074 700 "F1" 12].

Definition sfOne : spec_float := S754_finite false 4503599627370496 (-52).

Definition sfTen : spec_float := S754_finite false 5629499534213120 (-49).

Definition sfEleven : spec_float := S754_finite false 6192449487634432 (-49).

(** A page of three rows, the second one empty, and a document of two
    such pages. *)
Definition samplePage : list gopdf.Row :=
  [gopdf.mkRow 700 [gopdf.mkText "world" 40 700 "F1" 10;
                    gopdf.mkText "Hello" 10 700 "F1" 10];
   gopdf.mkRow 680 [];
   gopdf.mkRow 660 [gopdf.mkText "bye" 10 660 "F1" 10]].

Definition sampleDocument : crazypdf.Document :=
  crazypdf.Open "sample.pdf" (gopdf.mkReader 2 (fun _ => gopdf.RowsPage samplePage)).

End Specification.

(** ** Vocabulary of the further properties

    The command line, the string cleaner and the magnitude of a binary64
    value. *)

(** A page index the document has. *)
Definition inRange (totalPages i : Z) : Prop := (0 <= i < totalPages)%Z.

(** The separator of the command, which is also the default of
    [extract.Text]. *)
Definition pageSeparator : string := String "010" (String "010" "").

(** The page at an index of a document built by [Open]. *)
Definition pageAt (index : Z) : crazypdf.Page := crazypdf.mkPage (index + 1).

(** How the command ends, from what the loop of [AllPages] returns on the
    same pages; that loop only fails with a wrapped page error. *)
Definition exitOf (r : list string * option error) : string + cli.exit :=
  match r with
  | (texts, None) => inl (String.concat pageSeparator texts)
  | (_, Some (ErrFailedToExtract n e)) => inr (cli.ExitExtracting n e)
  | (_, Some e) => inr (cli.ExitExtracting 0 e)
  end.

(** The magnitude of a value, except that a zero keeps its sign. *)
Definition specAbs (x : spec_float) : spec_float :=
  match x with
  | S754_zero s => S754_zero s
  | v => SFabs v
  end.

(** [upper] is anchored higher on the page than [lower]. *)
Definition above (upper lower : pdf.line) : Prop :=
  (pdf.y lower <? pdf.y upper)%float = true.

(** No run of the Line lies higher than its anchor. *)
Definition anchorOnTop (ln : pdf.line) : Prop :=
  Forall (fun run => (pdf.y ln <? pdf.stY run)%float = false) (pdf.texts ln).

Definition member (s : string) (l : list string) : bool := existsb (String.eqb s) l.

(** A cleaned string is kept when it has two bytes or more. *)
Definition kept `{LIB : strings.Library} (str : string) : bool :=
  (2 <=? len (strings.cleanString str))%Z.

(** The map [seen] holds the strings of [processed], and no other. *)
Definition seenIs (seen : string -> bool) (processed : list string) : Prop :=
  forall k, seen k = member k processed.

(** ** Binary64 numbers as real numbers

    The value of a number of [spec_float], and what it means for a
    result to be a rounding of an exact value. *)

Definition roundedSF (sx : bool) (m e : Z) : spec_float :=
  match m with
  | Z0 => S754_zero sx
  | Zpos p =>
      if (m <? 2 ^ 53)%Z then
        if (e <=? 971)%Z then S754_finite sx p e else S754_infinity sx
      else if (e + 1 <=? 971)%Z then S754_finite sx 4503599627370496 (e + 1)
           else S754_infinity sx
  | Zneg _ => S754_nan
  end.

Section RealValues.
Import Reals.
Local Open Scope R_scope.

Definition bpow (e : Z) : R := powerRZ 2 e.

Definition SF2R (x : spec_float) : R :=
  match x with
  | S754_finite s m e => IZR (cond_Zopp s (Z.pos m)) * bpow e
  | _ => 0
  end.

Definition finiteSF (x : spec_float) : bool :=
  match x with
  | S754_finite _ _ _ | S754_zero _ => true
  | _ => false
  end.

(** The largest binary64 value is [(2^53 - 1) * 2^971]; a sum overflows
    only from [(2^53 - 1/2) * 2^971] on. *)
Definition overflowBound : R := (bpow 53 - 1 / 2) * bpow 971.

(** What rounding the exact value [x] gave: an infinity of the sign of
    [x] when [x] is beyond the overflow bound, and otherwise a number that
    is [x] itself or the nearest multiple of some [2^e'], [x] having
    magnitude at least [2^(e'+52)]. *)
Definition nearestTo (x : R) (r : spec_float) : Prop :=
  (exists s, r = S754_infinity s
             /\ if s : bool then x <= - overflowBound else overflowBound <= x)
  \/ (finiteSF r = true
      /\ (SF2R r = x
          \/ exists e' z,
               (-1074 < e')%Z /\ SF2R r = IZR z * bpow e'
               /\ SF2R r - bpow e' / 2 <= x /\ x <= SF2R r + bpow e' / 2
               /\ (bpow (e' + 52) <= x \/ x <= - bpow (e' + 52)))).

End RealValues.

(** * Properties *)

(** ** The insertion-sort run time meets the contract of [sort.Slice] *)

Section InsertionSortContract.

Context {A : Type} (less : A -> A -> bool).

Let descending (a b : A) : Prop := less a b = false.
Let ascending (a b : A) : Prop := less b a = false.

Lemma insertDown_perm (x : A) (revPrefix : list A) :
  Permutation (InsertionRuntime.insertDown less x revPrefix) (x :: revPrefix).
Proof.
  induction revPrefix as [|y rest IH]; simpl.
  - apply Permutation_refl.
  - destruct (less x y).
    + apply Permutation_trans with (y :: x :: rest).
      * apply perm_skip, IH.
      * apply perm_swap.
    + apply Permutation_refl.
Qed.

Lemma insertion_fold_perm (data acc : list A) :
  Permutation
    (fold_left (fun revPrefix x => InsertionRuntime.insertDown less x revPrefix) data acc)
    (rev data ++ acc)%list.
Proof.
  revert acc; induction data as [|x data IH]; intros acc; simpl.
  - apply Permutation_refl.
  - eapply Permutation_trans; [apply IH|].
    rewrite <- app_assoc; simpl.
    apply Permutation_app_head, insertDown_perm.
Qed.

Lemma insertionSort_perm (data : list A) :
  Permutation (InsertionRuntime.insertionSort less data) data.
Proof.
  unfold InsertionRuntime.insertionSort.
  eapply Permutation_trans; [apply Permutation_sym, Permutation_rev|].
  eapply Permutation_trans; [apply insertion_fold_perm|].
  rewrite app_nil_r. apply Permutation_sym, Permutation_rev.
Qed.

Lemma insertDown_sorted (l : list A) (x : A) (revPrefix : list A) :
  StrictWeakOn less l -> In x l -> incl revPrefix l ->
  StronglySorted descending revPrefix ->
  StronglySorted descending (InsertionRuntime.insertDown less x revPrefix).
Proof.
  intros (Hirr & Htr & Hneg) Hx.
  induction revPrefix as [|y rest IH]; intros Hincl Hs; simpl.
  - constructor; [constructor | constructor].
  - assert (Hy : In y l) by (apply Hincl; left; reflexivity).
    assert (Hrest : incl rest l) by (intros z Hz; apply Hincl; right; exact Hz).
    inversion Hs as [|? ? Hs' Hall]; subst.
    destruct (less x y) eqn:Hxy.
    + constructor.
      * apply IH; assumption.
      * rewrite Forall_forall in *. intros z Hz.
        apply (Permutation_in _ (insertDown_perm x rest)) in Hz.
        destruct Hz as [<- | Hz]; [|apply Hall, Hz].
        unfold descending. destruct (less y x) eqn:Hyx; [|reflexivity].
        rewrite <- (Hirr x Hx). symmetry. apply (Htr x y x); assumption.
    + constructor; [exact Hs|].
      rewrite Forall_forall in *. intros z [<- | Hz]; [exact Hxy|].
      apply (Hneg x y z); auto. apply Hall, Hz.
Qed.

Lemma insertion_fold_sorted (l data acc : list A) :
  StrictWeakOn less l -> incl data l -> incl acc l ->
  StronglySorted descending acc ->
  StronglySorted descending
    (fold_left (fun revPrefix x => InsertionRuntime.insertDown less x revPrefix) data acc).
Proof.
  intros Hsw. revert acc; induction data as [|x data IH]; intros acc Hd Ha Hs; simpl.
  - exact Hs.
  - apply IH.
    + intros z Hz; apply Hd; right; exact Hz.
    + intros z Hz. apply (Permutation_in _ (insertDown_perm x acc)) in Hz.
      destruct Hz as [<- | Hz]; [apply Hd; left; reflexivity | apply Ha, Hz].
    + apply insertDown_sorted with (l := l); auto.
      apply Hd; left; reflexivity.
Qed.

Lemma StronglySorted_snoc (R : A -> A -> Prop) (l : list A) (x : A) :
  StronglySorted R l -> Forall (fun a => R a x) l -> StronglySorted R (l ++ [x])%list.
Proof.
  induction 1 as [|a l Hs IH Hall]; intros Hx; simpl.
  - constructor; constructor.
  - inversion Hx; subst. constructor.
    + apply IH; assumption.
    + apply Forall_app; split; [exact Hall | constructor; [assumption | constructor]].
Qed.

Lemma StronglySorted_rev_flip (l : list A) :
  StronglySorted descending l -> StronglySorted ascending (rev l).
Proof.
  induction 1 as [|a l Hs IH Hall]; simpl.
  - constructor.
  - apply StronglySorted_snoc; [exact IH|].
    apply Forall_rev. exact Hall.
Qed.

Lemma insertionSort_sorted (data : list A) :
  StrictWeakOn less data ->
  StronglySorted (fun a b => less b a = false) (InsertionRuntime.insertionSort less data).
Proof.
  intros Hsw. unfold InsertionRuntime.insertionSort.
  apply StronglySorted_rev_flip.
  apply insertion_fold_sorted with (l := data); auto.
  - apply incl_refl.
  - intros z [].
  - constructor.
Qed.

End InsertionSortContract.

(** The run time used to evaluate the model on concrete pages: insertion
    sort, and the amd64 result of an out-of-range [int(f)]. *)
#[export] Instance insertionRuntime : Runtime := {|
  sortSlice := @InsertionRuntime.insertionSort;
  sortSlice_perm := @insertionSort_perm;
  sortSlice_sorted := @insertionSort_sorted;
  intOutOfRange := fun _ => minInt64
|}.

(** ** Byte strings *)

Lemma string_app_assoc (a b c : string) : (a ++ b) ++ c = a ++ (b ++ c).
Proof. induction a as [|ch a IH]; simpl; [reflexivity | now rewrite IH]. Qed.

Lemma string_app_nil_r (a : string) : a ++ "" = a.
Proof. induction a as [|ch a IH]; simpl; [reflexivity | now rewrite IH]. Qed.

(** ** No content loss (word joiners) *)

Lemma joinLoop_spaces (w : float) (rest : list gopdf.Text) :
  forall buf prev,
    pdf.joinLoop w buf prev rest
    = buf ++ withSpaces (conservativeSpaces w prev rest) (map gopdf.S rest).
Proof.
  induction rest as [|curr rest IH]; intros buf prev; simpl.
  - now rewrite string_app_nil_r.
  - rewrite IH. unfold pdf.joinStep. rewrite !string_app_assoc. reflexivity.
Qed.

Lemma conservativeSpaces_length (w : float) (rest : list gopdf.Text) :
  forall prev, List.length (conservativeSpaces w prev rest) = List.length rest.
Proof. induction rest as [|c rest IH]; intros prev; simpl; [reflexivity | now rewrite IH]. Qed.

Lemma rawLoop_spaces (rest : list pdf.TextWord) :
  forall buf prev,
    extract.rawLoop buf prev rest
    = buf ++ withSpaces (rawSpaces prev rest) (map pdf.wS rest).
Proof.
  induction rest as [|curr rest IH]; intros buf prev; simpl.
  - now rewrite string_app_nil_r.
  - rewrite IH. unfold extract.rawStep, rawSpace. rewrite !string_app_assoc. reflexivity.
Qed.

Lemma rawSpaces_length (rest : list pdf.TextWord) :
  forall prev, List.length (rawSpaces prev rest) = List.length rest.
Proof. induction rest as [|c rest IH]; intros prev; simpl; [reflexivity | now rewrite IH]. Qed.

Lemma concat_newline_cons (ln : string) (lines : list string) :
  String.concat newline (ln :: lines)
  = ln ++ pdf.newlineUnlessLast lines ++ String.concat newline lines.
Proof.
  destruct lines as [|l2 lines]; simpl.
  - now rewrite string_app_nil_r.
  - reflexivity.
Qed.

Section Joiners.

Context `{RT : Runtime}.

Lemma sortSlice_nonempty {A} (less : A -> A -> bool) (x : A) (l : list A) :
  exists first rest, sortSlice less (x :: l) = first :: rest.
Proof.
  destruct (sortSlice less (x :: l)) as [|first rest] eqn:E.
  - pose proof (sortSlice_perm A less (x :: l)) as P. rewrite E in P.
    apply Permutation_nil in P. discriminate.
  - eauto.
Qed.

Lemma sortSlice_nil {A} (less : A -> A -> bool) : sortSlice less [] = [].
Proof. apply Permutation_nil, Permutation_sym, sortSlice_perm. Qed.

Lemma plainTextRows_lines (rows : list gopdf.Row) :
  forall buf,
    pdf.plainTextRows buf rows
    = Some (buf ++ String.concat newline (map conservativeLine rows)).
Proof.
  induction rows as [|row rows IH]; intros buf.
  - simpl. now rewrite string_app_nil_r.
  - cbn [map]. rewrite concat_newline_cons.
    replace (pdf.newlineUnlessLast (map conservativeLine rows))
      with (pdf.newlineUnlessLast rows) by (destruct rows; reflexivity).
    cbn [pdf.plainTextRows]. unfold conservativeLine at 1.
    destruct (gopdf.Content row) as [|x l] eqn:E.
    + rewrite sortSlice_nil, IH. simpl. now rewrite !string_app_assoc.
    + destruct (sortSlice_nonempty pdf.lessX x l) as (first & rest & Hs).
      rewrite Hs. cbn [pdf.plainTextItems]. rewrite joinLoop_spaces, IH.
      now rewrite !string_app_assoc.
Qed.

Lemma rawRows_lines (rows : list pdf.TextRow) :
  forall buf,
    extract.rawRows buf rows
    = Some (buf ++ String.concat newline (map rawLine rows)).
Proof.
  induction rows as [|row rows IH]; intros buf.
  - simpl. now rewrite string_app_nil_r.
  - cbn [map]. rewrite concat_newline_cons.
    replace (pdf.newlineUnlessLast (map rawLine rows))
      with (pdf.newlineUnlessLast rows) by (destruct rows; reflexivity).
    cbn [extract.rawRows]. unfold rawLine at 1.
    destruct (pdf.Words row) as [|x l] eqn:E.
    + rewrite sortSlice_nil, IH. simpl. now rewrite !string_app_assoc.
    + destruct (sortSlice_nonempty extract.lessWX x l) as (first & rest & Hs).
      rewrite Hs. cbn [extract.rawWords]. rewrite rawLoop_spaces, IH.
      now rewrite !string_app_assoc.
Qed.

Lemma conservativeLine_texts (row : gopdf.Row) :
  LineOfTexts (map gopdf.S (sortSlice pdf.lessX (gopdf.Content row)))
              (conservativeLine row).
Proof.
  unfold conservativeLine.
  destruct (sortSlice pdf.lessX (gopdf.Content row)) as [|first rest]; simpl.
  - reflexivity.
  - eexists; split; [|reflexivity].
    now rewrite conservativeSpaces_length, length_map.
Qed.

Lemma rawLine_texts (row : pdf.TextRow) :
  LineOfTexts (map pdf.wS (sortSlice extract.lessWX (pdf.Words row))) (rawLine row).
Proof.
  unfold rawLine.
  destruct (sortSlice extract.lessWX (pdf.Words row)) as [|first rest]; simpl.
  - reflexivity.
  - eexists; split; [|reflexivity].
    now rewrite rawSpaces_length, length_map.
Qed.

End Joiners.

(** ** The order of binary64 values

    Every non-NaN value gets a position on a line of integer triples,
    ordered lexicographically; the primitive comparisons are the
    comparisons of positions. *)

Lemma lexCompare_spec (a b : Position3) :
  CompareSpec (a = b) (lexLt a b) (lexLt b a) (lexCompare a b).
Proof.
  destruct a as [[a1 a2] a3], b as [[b1 b2] b3]; unfold lexCompare, lexLt.
  destruct (Z.compare_spec a1 b1); [|constructor; lia|constructor; lia].
  destruct (Z.compare_spec a2 b2); [|constructor; lia|constructor; lia].
  destruct (Z.compare_spec a3 b3); constructor; [congruence | lia | lia].
Qed.

Lemma lexLt_irrefl (a : Position3) : ~ lexLt a a.
Proof. destruct a as [[a1 a2] a3]; unfold lexLt; lia. Qed.

Lemma lexLt_trans (a b c : Position3) : lexLt a b -> lexLt b c -> lexLt a c.
Proof.
  destruct a as [[a1 a2] a3], b as [[b1 b2] b3], c as [[c1 c2] c3]; unfold lexLt; lia.
Qed.

Lemma lexLt_total (a b : Position3) : lexLt a b \/ a = b \/ lexLt b a.
Proof. destruct (lexCompare_spec a b); auto. Qed.

Lemma SFcompare_position (x y : spec_float) :
  SFcompare x y =
  match positionSF x, positionSF y with
  | Some a, Some b => Some (lexCompare a b)
  | _, _ => None
  end.
Proof.
  destruct x as [sx|sx| |sx mx ex], y as [sy|sy| |sy my ey];
    try destruct sx; try destruct sy; try reflexivity; cbn -[Z.compare].
  rewrite Z.compare_opp, (Z.compare_antisym ex ey).
  change (-1 ?= -1)%Z with Eq.
  destruct (ex ?= ey)%Z; reflexivity.
Qed.

Lemma f64_ltb_position (x y : float) :
  (x <? y)%float = true <->
  exists a b, position x = Some a /\ position y = Some b /\ lexLt a b.
Proof.
  rewrite FloatAxioms.ltb_spec. unfold SFltb, position. rewrite SFcompare_position.
  destruct (positionSF (Prim2SF x)) as [a|], (positionSF (Prim2SF y)) as [b|];
    try (split; [discriminate | intros (? & ? & ? & ? & ?); discriminate]).
  destruct (lexCompare_spec a b) as [E|L|G]; split; intros H;
    try discriminate H; try reflexivity.
  - destruct H as (a' & b' & [= <-] & [= <-] & H). subst. now apply lexLt_irrefl in H.
  - eauto.
  - destruct H as (a' & b' & [= <-] & [= <-] & H). exfalso.
    apply (lexLt_irrefl a). eapply lexLt_trans; eassumption.
Qed.

Lemma f64_eqb_position (x y : float) :
  (x =? y)%float = true <-> exists a, position x = Some a /\ position y = Some a.
Proof.
  rewrite FloatAxioms.eqb_spec. unfold SFeqb, position. rewrite SFcompare_position.
  destruct (positionSF (Prim2SF x)) as [a|], (positionSF (Prim2SF y)) as [b|];
    try (split; [discriminate | intros (? & ? & ?); discriminate]).
  destruct (lexCompare_spec a b) as [E|L|G]; split; intros H;
    try discriminate H; try reflexivity.
  - subst; eauto.
  - destruct H as (c & [= <-] & [= <-]). now apply lexLt_irrefl in L.
  - destruct H as (c & [= <-] & [= <-]). now apply lexLt_irrefl in G.
Qed.

Lemma f64_leb_position (x y : float) :
  (x <=? y)%float = true <->
  exists a b, position x = Some a /\ position y = Some b /\ (lexLt a b \/ a = b).
Proof.
  rewrite FloatAxioms.leb_spec. unfold SFleb, position. rewrite SFcompare_position.
  destruct (positionSF (Prim2SF x)) as [a|], (positionSF (Prim2SF y)) as [b|];
    try (split; [discriminate | intros (? & ? & ? & ? & ?); discriminate]).
  destruct (lexCompare_spec a b) as [E|L|G]; split; intros H;
    try discriminate H; try reflexivity; eauto 6.
  destruct H as (a' & b' & [= <-] & [= <-] & [H | ->]); exfalso.
  - apply (lexLt_irrefl a). eapply lexLt_trans; eassumption.
  - now apply lexLt_irrefl in G.
Qed.

Lemma f64_ltb_false_position (x y : float) (a b : Position3) :
  position x = Some a -> position y = Some b ->
  (x <? y)%float = false -> lexLt b a \/ a = b.
Proof.
  intros Hx Hy H.
  destruct (lexLt_total a b) as [L | [E | G]]; auto.
  assert (T : (x <? y)%float = true) by (apply f64_ltb_position; eauto).
  congruence.
Qed.

Lemma f64_ltb_irrefl (x : float) : (x <? x)%float = false.
Proof.
  destruct (x <? x)%float eqn:E; [|reflexivity].
  apply f64_ltb_position in E. destruct E as (a & b & Ha & Hb & L).
  rewrite Ha in Hb. injection Hb as <-. now apply lexLt_irrefl in L.
Qed.

Lemma f64_ltb_trans (x y z : float) :
  (x <? y)%float = true -> (y <? z)%float = true -> (x <? z)%float = true.
Proof.
  rewrite !f64_ltb_position.
  intros (a & b & Ha & Hb & L1) (b' & c & Hb' & Hc & L2).
  rewrite Hb in Hb'. injection Hb' as <-.
  exists a, c. repeat split; auto. eapply lexLt_trans; eassumption.
Qed.

Lemma f64_ltb_asym (x y : float) : (x <? y)%float = true -> (y <? x)%float = false.
Proof.
  intros H. destruct (y <? x)%float eqn:E; [|reflexivity].
  rewrite <- (f64_ltb_irrefl x). symmetry. eapply f64_ltb_trans; eassumption.
Qed.

Lemma f64_ltb_number_l (x y : float) : (x <? y)%float = true -> isNumber x.
Proof. rewrite f64_ltb_position. intros (a & b & Ha & _). unfold isNumber. congruence. Qed.

Lemma f64_ltb_number_r (x y : float) : (x <? y)%float = true -> isNumber y.
Proof. rewrite f64_ltb_position. intros (a & b & _ & Hb & _). unfold isNumber. congruence. Qed.

(** Among numbers, "not less" is transitive. *)
Lemma f64_ltb_negtrans (x y z : float) :
  isNumber y ->
  (x <? y)%float = false -> (y <? z)%float = false -> (x <? z)%float = false.
Proof.
  intros Hy H1 H2. destruct (x <? z)%float eqn:E; [|reflexivity].
  apply f64_ltb_position in E. destruct E as (a & c & Ha & Hc & L).
  unfold isNumber in Hy. destruct (position y) as [b|] eqn:Hb; [|congruence].
  pose proof (f64_ltb_false_position _ _ _ _ Ha Hb H1) as P1.
  pose proof (f64_ltb_false_position _ _ _ _ Hb Hc H2) as P2.
  exfalso. apply (lexLt_irrefl a).
  destruct P1 as [P1 | ->], P2 as [P2 | ->].
  - eapply lexLt_trans; [exact L|]. eapply lexLt_trans; eassumption.
  - eapply lexLt_trans; eassumption.
  - eapply lexLt_trans; eassumption.
  - exact L.
Qed.

Lemma f64_ltb_not_eqb (x y : float) : (x <? y)%float = true -> (y =? x)%float = false.
Proof.
  intros H. destruct (y =? x)%float eqn:E; [|reflexivity].
  apply f64_ltb_position in H. destruct H as (a & b & Ha & Hb & L).
  apply f64_eqb_position in E. destruct E as (c & Hc1 & Hc2).
  rewrite Ha in Hc2. rewrite Hb in Hc1. injection Hc1 as <-. injection Hc2 as <-.
  now apply lexLt_irrefl in L.
Qed.

Lemma f64_eqb_sym (x y : float) : (x =? y)%float = (y =? x)%float.
Proof.
  destruct (x =? y)%float eqn:E1, (y =? x)%float eqn:E2; try reflexivity.
  - apply f64_eqb_position in E1. destruct E1 as (a & H1 & H2).
    assert (T : (y =? x)%float = true) by (apply f64_eqb_position; eauto). congruence.
  - apply f64_eqb_position in E2. destruct E2 as (a & H1 & H2).
    assert (T : (x =? y)%float = true) by (apply f64_eqb_position; eauto). congruence.
Qed.

(** Two numbers that are not less than each other are equal. *)
Lemma f64_ltb_false_eqb (x y : float) :
  isNumber x -> isNumber y ->
  (x <? y)%float = false -> (y <? x)%float = false -> (x =? y)%float = true.
Proof.
  unfold isNumber. intros Hx Hy H1 H2.
  destruct (position x) as [a|] eqn:Ha; [|congruence].
  destruct (position y) as [b|] eqn:Hb; [|congruence].
  pose proof (f64_ltb_false_position _ _ _ _ Ha Hb H1) as P1.
  pose proof (f64_ltb_false_position _ _ _ _ Hb Ha H2) as P2.
  apply f64_eqb_position. exists a. split; [exact Ha|].
  destruct P1 as [P1 | ->]; [|exact Hb].
  destruct P2 as [P2 | ->]; [|exact Hb].
  exfalso. apply (lexLt_irrefl a). eapply lexLt_trans; eassumption.
Qed.

(** ** Sorting by a binary64 key *)

Section SortByKey.

Context {A : Type} (key : A -> float).

(** Ordering by a key is a strict weak ordering of runs whose keys are
    numbers. *)
Lemma lessBy_strictWeak (l : list A) :
  (forall a, In a l -> isNumber (key a)) -> StrictWeakOn (lessBy key) l.
Proof.
  intros Hnum. unfold lessBy. repeat split.
  - intros a _. apply f64_ltb_irrefl.
  - intros a b c _ _ _. apply f64_ltb_trans.
  - intros a b c _ Hb _. apply f64_ltb_negtrans. apply Hnum, Hb.
Qed.

End SortByKey.

Section SortedUnique.

Context {A : Type} (less : A -> A -> bool).

Lemma NoTies_tail (a : A) (l : list A) : NoTies less (a :: l) -> NoTies less l.
Proof. intros H x y Hx Hy. apply H; right; assumption. Qed.

Lemma NoTies_perm (l1 l2 : list A) :
  Permutation l1 l2 -> NoTies less l1 -> NoTies less l2.
Proof.
  intros P H x y Hx Hy.
  apply H; eapply Permutation_in; try eassumption; now apply Permutation_sym.
Qed.

(** Two orderings of the same runs coincide when no two runs tie. *)
Lemma sorted_perm_unique (l1 : list A) :
  forall l2,
    NoTies less l1 -> Permutation l1 l2 ->
    StronglySorted (fun a b => less b a = false) l1 ->
    StronglySorted (fun a b => less b a = false) l2 ->
    l1 = l2.
Proof.
  induction l1 as [|a l1 IH]; intros l2 Hnt P S1 S2.
  - apply Permutation_nil in P. now subst.
  - destruct l2 as [|b l2].
    + apply Permutation_sym, Permutation_nil in P. discriminate.
    + inversion S1 as [|? ? S1' F1]; subst. inversion S2 as [|? ? S2' F2]; subst.
      rewrite Forall_forall in F1, F2.
      assert (E : a = b).
      { assert (Ha : In a (b :: l2)) by (eapply Permutation_in; [exact P | now left]).
        assert (Hb : In b (a :: l1))
          by (eapply Permutation_in; [apply Permutation_sym, P | now left]).
        destruct Ha as [-> | Ha]; [reflexivity|].
        destruct Hb as [-> | Hb]; [reflexivity|].
        specialize (F1 b Hb). specialize (F2 a Ha).
        destruct (Hnt a b) as [L | [L | E]]; auto; try (now left); try (now right);
          congruence. }
      subst b. f_equal.
      apply IH; auto.
      * eapply NoTies_tail; eassumption.
      * eapply Permutation_cons_inv; eassumption.
Qed.

End SortedUnique.

Lemma StronglySorted_weaken {A} (R1 R2 : A -> A -> Prop) (l : list A) :
  (forall a b, R1 a b -> R2 a b) -> StronglySorted R1 l -> StronglySorted R2 l.
Proof.
  intros H. induction 1 as [|a l S IH F]; constructor; auto.
  eapply Forall_impl; [|exact F]. intros b. apply H.
Qed.

Section SortSliceFacts.

Context `{RT : Runtime} {A : Type} (key : A -> float).

Lemma strictly_ascending_numbers (l : list A) :
  StronglySorted (fun a b => lessBy key a b = true) l ->
  (2 <= List.length l)%nat -> forall a, In a l -> isNumber (key a).
Proof.
  intros S Hlen a Ha.
  destruct l as [|x [|y l]]; simpl in Hlen; try lia.
  inversion S as [|? ? S' F]; subst. rewrite Forall_forall in F.
  destruct Ha as [<- | Ha].
  - eapply f64_ltb_number_l. apply (F y). now left.
  - eapply f64_ltb_number_r. apply (F a Ha).
Qed.

Lemma strictly_ascending_noTies (l : list A) :
  StronglySorted (fun a b => lessBy key a b = true) l -> NoTies (lessBy key) l.
Proof.
  induction 1 as [|x l S IH F]; intros a b Ha Hb.
  - destruct Ha.
  - rewrite Forall_forall in F.
    destruct Ha as [<- | Ha], Hb as [<- | Hb]; auto.
Qed.

(** [sort.Slice] leaves a slice alone that is already strictly ascending. *)
Lemma sortSlice_strictly_ascending (l : list A) :
  StronglySorted (fun a b => lessBy key a b = true) l ->
  sortSlice (lessBy key) l = l.
Proof.
  intros S.
  destruct (Nat.le_gt_cases 2 (List.length l)) as [Hlen | Hlen].
  - apply sorted_perm_unique with (less := lessBy key).
    + eapply NoTies_perm; [apply Permutation_sym, sortSlice_perm|].
      now apply strictly_ascending_noTies.
    + apply sortSlice_perm.
    + apply sortSlice_sorted, lessBy_strictWeak.
      now apply strictly_ascending_numbers.
    + eapply StronglySorted_weaken; [|exact S].
      intros a b. apply f64_ltb_asym.
  - destruct l as [|x [|y l]]; simpl in Hlen; try lia.
    + apply sortSlice_nil.
    + apply Permutation_length_1_inv, Permutation_sym, sortSlice_perm.
Qed.

(** Permuting a slice without ties does not change how it is sorted. *)
Lemma sortSlice_perm_invariant (l1 l2 : list A) :
  Permutation l1 l2 ->
  (forall a, In a l1 -> isNumber (key a)) ->
  NoTies (lessBy key) l1 ->
  sortSlice (lessBy key) l1 = sortSlice (lessBy key) l2.
Proof.
  intros P Hnum Hnt.
  assert (Hnum2 : forall a, In a l2 -> isNumber (key a)).
  { intros a Ha. apply Hnum. eapply Permutation_in; [apply Permutation_sym, P | exact Ha]. }
  apply sorted_perm_unique with (less := lessBy key).
  - eapply NoTies_perm; [apply Permutation_sym, sortSlice_perm | exact Hnt].
  - eapply Permutation_trans; [apply sortSlice_perm|].
    eapply Permutation_trans; [exact P | apply Permutation_sym, sortSlice_perm].
  - apply sortSlice_sorted, lessBy_strictWeak, Hnum.
  - apply sortSlice_sorted, lessBy_strictWeak, Hnum2.
Qed.

End SortSliceFacts.

(** ** C1: no content loss *)

(** C1. Under the conservative policy ([PagePlainText]) and under the
    stream-order policy ([extractRawText]) the page text is the rows' lines
    joined by newlines, and the line of a row is made of the texts of the
    row's runs and of single spaces between neighbours only: the runs
    processed are a permutation of the row's runs (each run once), taken in
    the order [sort.Slice] gives them by [X]: never a run before one of
    smaller [X] when the [X] are numbers, and the row's own order when the
    row is already strictly ascending. *)
Theorem C1_no_content_loss `{RT : Runtime} :
  (forall rows,
      pdf.plainTextRows "" rows
      = Some (String.concat newline (map conservativeLine rows)))
  /\ (forall row,
         Permutation (sortSlice pdf.lessX (gopdf.Content row)) (gopdf.Content row)
         /\ ((forall run, In run (gopdf.Content row) -> isNumber (gopdf.X run)) ->
             StronglySorted (fun a b => (gopdf.X b <? gopdf.X a)%float = false)
                            (sortSlice pdf.lessX (gopdf.Content row)))
         /\ LineOfTexts (map gopdf.S (sortSlice pdf.lessX (gopdf.Content row)))
                        (conservativeLine row))
  /\ (forall row,
         StronglySorted (fun a b => pdf.lessX a b = true) (gopdf.Content row) ->
         LineOfTexts (map gopdf.S (gopdf.Content row)) (conservativeLine row))
  /\ (forall rows,
         extract.rawRows "" rows = Some (String.concat newline (map rawLine rows)))
  /\ (forall row,
         Permutation (sortSlice extract.lessWX (pdf.Words row)) (pdf.Words row)
         /\ ((forall word, In word (pdf.Words row) -> isNumber (pdf.wX word)) ->
             StronglySorted (fun a b => (pdf.wX b <? pdf.wX a)%float = false)
                            (sortSlice extract.lessWX (pdf.Words row)))
         /\ LineOfTexts (map pdf.wS (sortSlice extract.lessWX (pdf.Words row)))
                        (rawLine row))
  /\ (forall row,
         StronglySorted (fun a b => extract.lessWX a b = true) (pdf.Words row) ->
         LineOfTexts (map pdf.wS (pdf.Words row)) (rawLine row)).
Proof.
  split; [|split; [|split; [|split; [|split]]]].
  - intros rows. now rewrite plainTextRows_lines.
  - intros row. split; [apply sortSlice_perm|]. split; [|apply conservativeLine_texts].
    intros Hnum. apply (sortSlice_sorted _ pdf.lessX).
    apply (lessBy_strictWeak gopdf.X), Hnum.
  - intros row S. pose proof (conservativeLine_texts row) as H.
    change pdf.lessX with (lessBy gopdf.X) in *.
    now rewrite (sortSlice_strictly_ascending gopdf.X _ S) in H.
  - intros rows. now rewrite rawRows_lines.
  - intros row. split; [apply sortSlice_perm|]. split; [|apply rawLine_texts].
    intros Hnum. apply (sortSlice_sorted _ extract.lessWX).
    apply (lessBy_strictWeak pdf.wX), Hnum.
  - intros row S. pose proof (rawLine_texts row) as H.
    change extract.lessWX with (lessBy pdf.wX) in *.
    now rewrite (sortSlice_strictly_ascending pdf.wX _ S) in H.
Qed.

(** A row whose runs come with [x] descending: "b" at 10, then "a" at 0.
    Both policies write "a" first, so the line is not made of the row's
    texts in the row's own order. *)
Lemma C1_row_order_counterexample :
  pdf.plainTextRows ""
    [gopdf.mkRow 700 [gopdf.mkText "b" 10 700 "F1" 12; gopdf.mkText "a" 0 700 "F1" 12]]
  = Some "ab"
  /\ ~ LineOfTexts ["b"; "a"] "ab"
  /\ extract.rawRows ""
       (pdf.textRowsOf
          [gopdf.mkRow 700 [gopdf.mkText "b" 10 700 "F1" 12;
                            gopdf.mkText "a" 0 700 "F1" 12]])
     = Some "a b"
  /\ ~ LineOfTexts ["b"; "a"] "a b".
Proof.
  split; [vm_compute; reflexivity|]. split.
  - intros (spaces & _ & E). discriminate E.
  - split; [vm_compute; reflexivity|].
    intros (spaces & _ & E). discriminate E.
Qed.

(** ** More on the order: [<=] against [<] *)

Lemma f64_leb_negb_ltb (x y : float) :
  isNumber x -> isNumber y -> (x <=? y)%float = negb (y <? x)%float.
Proof.
  unfold isNumber. intros Hx Hy.
  destruct (position x) as [a|] eqn:Ha; [|congruence].
  destruct (position y) as [b|] eqn:Hb; [|congruence].
  destruct (y <? x)%float eqn:L; simpl.
  - apply f64_ltb_position in L. destruct L as (b' & a' & Hb' & Ha' & L).
    rewrite Hb in Hb'. rewrite Ha in Ha'. injection Hb' as <-. injection Ha' as <-.
    destruct (x <=? y)%float eqn:E; [|reflexivity].
    apply f64_leb_position in E. destruct E as (a' & b' & Ha' & Hb' & E).
    rewrite Hb in Hb'. rewrite Ha in Ha'. injection Hb' as <-. injection Ha' as <-.
    exfalso. apply (lexLt_irrefl a). destruct E as [E | ->]; [|exact L].
    eapply lexLt_trans; eassumption.
  - apply f64_leb_position. exists a, b. repeat split; auto.
    destruct (f64_ltb_false_position _ _ _ _ Hb Ha L) as [G | E]; auto.
Qed.

Lemma f64_zero_number : isNumber 0%float.
Proof. unfold isNumber. vm_compute. discriminate. Qed.

Lemma f64_leb_number_r (x y : float) : (x <=? y)%float = true -> isNumber y.
Proof. rewrite f64_leb_position. intros (a & b & _ & Hb & _). unfold isNumber. congruence. Qed.

Lemma f64_ltb_leb_trans (x y z : float) :
  (x <? y)%float = true -> (y <=? z)%float = true -> (x <=? z)%float = true.
Proof.
  intros H1 H2.
  pose proof (f64_ltb_number_l _ _ H1) as Nx.
  pose proof (f64_ltb_number_r _ _ H1) as Ny.
  pose proof (f64_leb_number_r _ _ H2) as Nz.
  rewrite f64_leb_negb_ltb in * by assumption.
  destruct (z <? x)%float eqn:E; [|reflexivity]. exfalso.
  rewrite (f64_ltb_trans _ _ _ E H1) in H2. discriminate.
Qed.

(** ** C3: the stream-order policy *)

Lemma rawSpace_spec (prev curr : pdf.TextWord) :
  isNumber (pdf.wFontSize prev) -> isNumber (pdf.wFontSize curr) ->
  rawSpace prev curr = specRawSpace prev curr.
Proof.
  intros Np Nc.
  unfold rawSpace, specRawSpace, specGap, specAvgCharWidth, specFontSize.
  rewrite (f64_leb_negb_ltb _ _ Np f64_zero_number).
  destruct (0 <? pdf.wFontSize prev)%float eqn:Ep; cbn [negb].
  - rewrite (f64_leb_negb_ltb _ _ Np f64_zero_number), Ep. reflexivity.
  - rewrite (f64_leb_negb_ltb _ _ Nc f64_zero_number).
    destruct (0 <? pdf.wFontSize curr)%float; reflexivity.
Qed.

Lemma rawSpaces_spec (rest : list pdf.TextWord) :
  forall prev, numericFontSizes (prev :: rest) ->
               rawSpaces prev rest = specRawSpaces prev rest.
Proof.
  induction rest as [|curr rest IH]; intros prev H; simpl; [reflexivity|].
  inversion H as [|? ? Np H']; subst. inversion H' as [|? ? Nc _]; subst.
  now rewrite rawSpace_spec, IH.
Qed.

Section StreamOrder.

Context `{RT : Runtime}.

Lemma rawLine_spec (row : pdf.TextRow) :
  numericFontSizes (pdf.Words row) -> rawLine row = specRawLine row.
Proof.
  intros H. unfold rawLine, specRawLine.
  assert (H' : numericFontSizes (sortSlice extract.lessWX (pdf.Words row))).
  { unfold numericFontSizes in *. rewrite Forall_forall in *. intros w Hw.
    apply H. eapply Permutation_in; [apply sortSlice_perm | exact Hw]. }
  destruct (sortSlice extract.lessWX (pdf.Words row)) as [|first rest];
    [reflexivity|].
  now rewrite rawSpaces_spec.
Qed.

(** C3. In the stream-order policy, for rows whose font sizes are numbers,
    the text written is the rows' lines joined by newlines, where the line of
    a row is the first sorted run's text followed by every other run's text,
    preceded by a space iff [gap > avgCharWidth * 0.3] for the pair it forms
    with its predecessor, with [avgCharWidth = fontSize * 0.5] and [fontSize]
    that of [prev] if positive, else that of [curr] if positive, else 12. *)
Theorem C3_stream_order_threshold (rows : list pdf.TextRow) :
  Forall (fun row => numericFontSizes (pdf.Words row)) rows ->
  extract.rawRows "" rows = Some (String.concat newline (map specRawLine rows)).
Proof.
  intros H. rewrite rawRows_lines. cbn [String.append]. do 2 f_equal.
  apply map_ext_in. intros row Hrow. apply rawLine_spec.
  rewrite Forall_forall in H. now apply H.
Qed.

End StreamOrder.

(** On a row in font size 10 ("world" carries none): "Hello" ends at
    [10 + 5 * 5 = 35], the gap to "world" is [5 > 1.5], and "world" ends at
    [65], where "!" starts. *)
Lemma C3_stream_order_witness :
  extract.rawRows "" [pdf.mkTextRow 700 exampleWords; pdf.mkTextRow 690 []]
  = Some (String.concat newline
            (map specRawLine [pdf.mkTextRow 700 exampleWords; pdf.mkTextRow 690 []]))
  /\ map specRawLine [pdf.mkTextRow 700 exampleWords; pdf.mkTextRow 690 []]
     = ["Hello world!"; ""].
Proof.
  split.
  - apply C3_stream_order_threshold.
    repeat constructor; unfold isNumber; vm_compute; discriminate.
  - vm_compute. reflexivity.
Defined.

(** Why the font sizes must be numbers: the source tests [fontSize <= 0],
    which a NaN fails, so a NaN font size of [prev] is kept and no space is
    written, where "if positive, else" would turn to [curr]. *)
Example stream_order_nan_font_size :
  rawSpace (pdf.mkTextWord "a" 0 700 "F1" nan) (pdf.mkTextWord "b" 100 700 "F1" 10)
  = false
  /\ specRawSpace (pdf.mkTextWord "a" 0 700 "F1" nan)
                  (pdf.mkTextWord "b" 100 700 "F1" 10)
     = true.
Proof. split; vm_compute; reflexivity. Qed.

(** ** C4: the width estimate of the conservative policy *)

Lemma EstimateInv_step (seen : list float) (m adv : float) :
  EstimateInv seen m ->
  EstimateInv (seen ++ [adv])
    (if ((0 <? adv)%float && ((m =? 0)%float || (adv <? m)%float))%bool
     then adv else m).
Proof.
  intros [[-> Hnone] | (Hin & Hpos & Hmin)].
  - change (0 =? 0)%float with true. rewrite orb_true_l, andb_true_r.
    destruct (0 <? adv)%float eqn:E.
    + right. repeat split; auto.
      * apply in_or_app; right; now left.
      * intros a Ha Hp. apply in_app_or in Ha. destruct Ha as [Ha | [<- | []]].
        -- rewrite (Hnone a Ha) in Hp. discriminate.
        -- rewrite f64_leb_negb_ltb, f64_ltb_irrefl; auto;
             eapply f64_ltb_number_r; eassumption.
    + left. split; auto. intros a Ha. apply in_app_or in Ha.
      destruct Ha as [Ha | [<- | []]]; auto.
  - rewrite (f64_ltb_not_eqb _ _ Hpos), orb_false_l.
    pose proof (f64_ltb_number_r _ _ Hpos) as Nm.
    destruct (0 <? adv)%float eqn:E; cbn [andb].
    + pose proof (f64_ltb_number_r _ _ E) as Na.
      destruct (adv <? m)%float eqn:L.
      * right. repeat split; auto.
        -- apply in_or_app; right; now left.
        -- intros a Ha Hp. apply in_app_or in Ha. destruct Ha as [Ha | [<- | []]].
           ++ eapply f64_ltb_leb_trans; [exact L | now apply Hmin].
           ++ rewrite f64_leb_negb_ltb, f64_ltb_irrefl; auto.
      * right. repeat split; auto.
        -- apply in_or_app; now left.
        -- intros a Ha Hp. apply in_app_or in Ha. destruct Ha as [Ha | [<- | []]].
           ++ now apply Hmin.
           ++ rewrite f64_leb_negb_ltb, L; auto.
    + right. repeat split; auto.
      * apply in_or_app; now left.
      * intros a Ha Hp. apply in_app_or in Ha. destruct Ha as [Ha | [<- | []]].
        -- now apply Hmin.
        -- congruence.
Qed.

Lemma advanceLoop_inv (rest : list gopdf.Text) :
  forall prev seen m,
    EstimateInv seen m ->
    EstimateInv (seen ++ advances prev rest) (pdf.advanceLoop m prev rest).
Proof.
  induction rest as [|curr rest IH]; intros prev seen m H; simpl.
  - now rewrite app_nil_r.
  - rewrite app_assoc. apply IH. unfold pdf.advanceStep.
    destruct (0 <? len (gopdf.S prev))%Z.
    + now apply EstimateInv_step.
    + now rewrite app_nil_r.
Qed.

Lemma advanceLoop_estimate (first : gopdf.Text) (rest : list gopdf.Text) :
  EstimateInv (advances first rest) (pdf.advanceLoop 0%float first rest).
Proof.
  apply (advanceLoop_inv rest first [] 0%float).
  left. split; [reflexivity | intros a []].
Qed.

(** C4. The conservative estimate of a sorted row [first :: rest] is the
    smallest strictly positive per-character advance of its consecutive
    pairs with a non-empty [prev.text], when there is one; when none is
    positive, which includes every single-run row, it is the first run's
    font size times 0.6, with 12 for a non-positive font size.  A single-run
    row is written as that run's text, with nothing added. *)
Theorem C4_min_char_width_estimate :
  (forall first rest,
      (exists a, In a (advances first rest) /\ (0 <? a)%float = true) ->
      SmallestPositive (advances first rest) (pdf.estimateMinCharWidth first rest))
  /\ (forall first rest,
         NonePositive (advances first rest) ->
         pdf.estimateMinCharWidth first rest = specFallback first)
  /\ (forall run, pdf.estimateMinCharWidth run [] = specFallback run)
  /\ (forall (RT : Runtime) run position buf,
         pdf.plainTextItems buf (sortSlice pdf.lessX [run]) = Some (buf ++ gopdf.S run)
         /\ pdf.plainTextRows "" [gopdf.mkRow position [run]] = Some (gopdf.S run)).
Proof.
  split; [|split; [|split; [|split]]].
  - intros first rest (a & Ha & Hp). unfold pdf.estimateMinCharWidth.
    destruct (advanceLoop_estimate first rest) as [[_ Hnone] | Hs].
    + rewrite (Hnone a Ha) in Hp. discriminate.
    + unfold pdf.fallbackWidth.
      destruct Hs as (Hin & Hpos & Hmin).
      rewrite (f64_ltb_not_eqb _ _ Hpos). repeat split; auto.
  - intros first rest Hnone. unfold pdf.estimateMinCharWidth.
    destruct (advanceLoop_estimate first rest) as [[-> _] | (Hin & Hpos & _)].
    + reflexivity.
    + rewrite (Hnone _ Hin) in Hpos. discriminate.
  - reflexivity.
  - assert (E : sortSlice pdf.lessX [run] = [run])
      by (apply Permutation_length_1_inv, Permutation_sym, sortSlice_perm).
    rewrite E. reflexivity.
  - assert (E : sortSlice pdf.lessX [run] = [run])
      by (apply Permutation_length_1_inv, Permutation_sym, sortSlice_perm).
    cbn. rewrite E. cbn. now rewrite string_app_nil_r.
Qed.

(** The estimate at work: the advances of this row are [12 / 5 = 2.4] and
    [2 / 1 = 2], so [minCharWidth = 2]; "Hello" ends at 10, the gap to "a"
    is [2 > 1]; "a" ends at 14, where "b" starts. *)
Example estimate_three_runs :
  pdf.estimateMinCharWidth
    (gopdf.mkText "Hello" 0 700 "F1" 10)
    [gopdf.mkText "a" 12 700 "F1" 10; gopdf.mkText "b" 14 700 "F1" 10] = 2%float
  /\ pdf.plainTextRows ""
       [gopdf.mkRow 700 [gopdf.mkText "b" 14 700 "F1" 10;
                         gopdf.mkText "Hello" 0 700 "F1" 10;
                         gopdf.mkText "a" 12 700 "F1" 10]]
     = Some "Hello ab".
Proof. split; vm_compute; reflexivity. Qed.

(** ** C5: the line assembler *)

(** *** The page-wide order: [Y] descending, ties by [X] ascending *)

Lemma lessYX_position (a b : pdf.StyledText) (ya xa yb xb : Position3) :
  position (pdf.stY a) = Some ya -> position (pdf.stX a) = Some xa ->
  position (pdf.stY b) = Some yb -> position (pdf.stX b) = Some xb ->
  (pdf.lessYX a b = true <-> lexLt yb ya \/ (ya = yb /\ lexLt xa xb)).
Proof.
  intros Hya Hxa Hyb Hxb. unfold pdf.lessYX.
  destruct (pdf.stY a =? pdf.stY b)%float eqn:E; cbn [negb].
  - apply f64_eqb_position in E. destruct E as (p & H1 & H2).
    rewrite Hya in H1. rewrite Hyb in H2. injection H1 as <-. injection H2 as <-.
    rewrite f64_ltb_position. split.
    + intros (p & q & Hp & Hq & L). rewrite Hxa in Hp. rewrite Hxb in Hq.
      injection Hp as <-. injection Hq as <-. auto.
    + intros [L | [_ L]]; [now apply lexLt_irrefl in L | eauto].
  - rewrite f64_ltb_position. split.
    + intros (p & q & Hp & Hq & L). rewrite Hyb in Hp. rewrite Hya in Hq.
      injection Hp as <-. injection Hq as <-. auto.
    + intros [L | [-> _]]; [eauto|].
      assert (T : (pdf.stY a =? pdf.stY b)%float = true)
        by (apply f64_eqb_position; eauto).
      congruence.
Qed.

Lemma triple_equal_spec (a1 a2 a3 b1 b2 b3 : Z) :
  (a1, a2, a3) = (b1, b2, b3) <-> (a1 = b1 /\ a2 = b2 /\ a3 = b3).
Proof.
  split; [intros [= -> -> ->]; auto | intros (-> & -> & ->); reflexivity].
Qed.

Lemma lexProduct_negtrans (ya xa yb xb yc xc : Position3) :
  ~ (lexLt yb ya \/ (ya = yb /\ lexLt xa xb)) ->
  ~ (lexLt yc yb \/ (yb = yc /\ lexLt xb xc)) ->
  ~ (lexLt yc ya \/ (ya = yc /\ lexLt xa xc)).
Proof.
  destruct ya as [[ya1 ya2] ya3], xa as [[xa1 xa2] xa3],
           yb as [[yb1 yb2] yb3], xb as [[xb1 xb2] xb3],
           yc as [[yc1 yc2] yc3], xc as [[xc1 xc2] xc3].
  unfold lexLt. rewrite !triple_equal_spec. lia.
Qed.

Lemma lexProduct_trans (ya xa yb xb yc xc : Position3) :
  (lexLt yb ya \/ (ya = yb /\ lexLt xa xb)) ->
  (lexLt yc yb \/ (yb = yc /\ lexLt xb xc)) ->
  (lexLt yc ya \/ (ya = yc /\ lexLt xa xc)).
Proof.
  destruct ya as [[ya1 ya2] ya3], xa as [[xa1 xa2] xa3],
           yb as [[yb1 yb2] yb3], xb as [[xb1 xb2] xb3],
           yc as [[yc1 yc2] yc3], xc as [[xc1 xc2] xc3].
  unfold lexLt. rewrite !triple_equal_spec. lia.
Qed.

Lemma numericPosition_positions (a : pdf.StyledText) :
  numericPosition a ->
  exists ya xa, position (pdf.stY a) = Some ya /\ position (pdf.stX a) = Some xa.
Proof.
  unfold numericPosition, isNumber. intros [Hx Hy].
  destruct (position (pdf.stY a)) as [ya|]; [|congruence].
  destruct (position (pdf.stX a)) as [xa|]; [|congruence].
  eauto.
Qed.

Lemma lessYX_strictWeak (l : list pdf.StyledText) :
  Forall numericPosition l -> StrictWeakOn pdf.lessYX l.
Proof.
  rewrite Forall_forall. intros Hnum. repeat split.
  - intros a Ha.
    destruct (numericPosition_positions a (Hnum a Ha)) as (ya & xa & Hya & Hxa).
    destruct (pdf.lessYX a a) eqn:E; [|reflexivity].
    apply (lessYX_position a a ya xa ya xa Hya Hxa Hya Hxa) in E.
    destruct E as [L | [_ L]]; now apply lexLt_irrefl in L.
  - intros a b c Ha Hb Hc.
    destruct (numericPosition_positions a (Hnum a Ha)) as (ya & xa & Hya & Hxa).
    destruct (numericPosition_positions b (Hnum b Hb)) as (yb & xb & Hyb & Hxb).
    destruct (numericPosition_positions c (Hnum c Hc)) as (yc & xc & Hyc & Hxc).
    rewrite (lessYX_position a b ya xa yb xb), (lessYX_position b c yb xb yc xc),
      (lessYX_position a c ya xa yc xc) by assumption.
    apply lexProduct_trans.
  - intros a b c Ha Hb Hc.
    destruct (numericPosition_positions a (Hnum a Ha)) as (ya & xa & Hya & Hxa).
    destruct (numericPosition_positions b (Hnum b Hb)) as (yb & xb & Hyb & Hxb).
    destruct (numericPosition_positions c (Hnum c Hc)) as (yc & xc & Hyc & Hxc).
    rewrite <- !not_true_iff_false.
    rewrite (lessYX_position a b ya xa yb xb), (lessYX_position b c yb xb yc xc),
      (lessYX_position a c ya xa yc xc) by assumption.
    apply lexProduct_negtrans.
Qed.

Lemma lessYX_false_pageOrder (a b : pdf.StyledText) :
  numericPosition a -> numericPosition b ->
  pdf.lessYX b a = false -> pageOrder a b.
Proof.
  intros [Nxa Nya] [Nxb Nyb]. unfold pdf.lessYX, pageOrder.
  destruct (pdf.stY b =? pdf.stY a)%float eqn:E; cbn [negb]; intros H.
  - right. split; [now rewrite f64_eqb_sym|].
    now rewrite f64_leb_negb_ltb, H.
  - left. destruct (pdf.stY b <? pdf.stY a)%float eqn:L; [reflexivity|].
    rewrite (f64_ltb_false_eqb _ _ Nyb Nya L H) in E. discriminate.
Qed.

(** *** The walk over the sorted runs *)

Lemma abs_value (x : float) : Prim2SF (pdf.abs x) = specAbs (Prim2SF x).
Proof.
  unfold pdf.abs. rewrite FloatAxioms.ltb_spec.
  change (Prim2SF 0) with (S754_zero false).
  destruct (Prim2SF x) as [s|s| |s m e] eqn:E; cbn.
  - destruct s; cbn; exact E.
  - destruct s; cbn; [|exact E]. now rewrite FloatAxioms.opp_spec, E.
  - exact E.
  - destruct s; cbn; [|exact E]. now rewrite FloatAxioms.opp_spec, E.
Qed.

(** The test of the source is the test of the specification: [abs]
    differs from the IEEE magnitude on a negative zero only, and no zero
    exceeds the tolerance. *)
Lemma abs_tolerance (anchorY y : float) :
  (pdf.yTolerance <? pdf.abs (anchorY - y))%float = beyondTolerance anchorY y.
Proof.
  unfold beyondTolerance.
  rewrite !FloatAxioms.ltb_spec, abs_value, FloatAxioms.abs_spec.
  change (Prim2SF pdf.yTolerance) with (S754_finite false 4503599627370496 (-51)).
  change (Prim2SF 2.0) with (S754_finite false 4503599627370496 (-51)).
  now destruct (Prim2SF (anchorY - y)) as [[]|[]| |[] ? ?].
Qed.

(** The magnitude exceeds 2.0 exactly when the value is above 2.0 or
    below -2.0. *)
Lemma beyondTolerance_two_sided (anchorY y : float) :
  beyondTolerance anchorY y
  = ((2.0 <? anchorY - y)%float || (anchorY - y <? -2.0)%float)%bool.
Proof.
  unfold beyondTolerance.
  rewrite !FloatAxioms.ltb_spec, FloatAxioms.abs_spec.
  change (Prim2SF 2.0) with (S754_finite false 4503599627370496 (-51)).
  change (Prim2SF (-2.0)) with (S754_finite true 4503599627370496 (-51)).
  destruct (Prim2SF (anchorY - y)) as [[]|[]| |[] m e]; try reflexivity.
  - cbn [SFabs SFltb SFcompare orb].
    rewrite (Z.compare_antisym e (-51)), !Pos.compare_cont_spec.
    cbn [Pos.switch_Eq]. rewrite (Pos.compare_antisym m 4503599627370496).
    destruct (e ?= -51)%Z; cbn [CompOpp]; try reflexivity.
    now destruct (m ?= 4503599627370496)%positive.
  - cbn [SFabs SFltb SFcompare]. now rewrite orb_false_r.
Qed.

Lemma nth_error_snoc {A} (l : list A) (x : A) :
  nth_error (l ++ [x]) (List.length l) = Some x.
Proof. rewrite nth_error_app2, Nat.sub_diag by lia. reflexivity. Qed.

Lemma appendToLine_last (done : list pdf.line) (ln : pdf.line) (st : pdf.StyledText) :
  pdf.appendToLine (done ++ [ln]) (List.length done) st
  = Some (done ++ [pdf.mkLine (pdf.y ln) (pdf.texts ln ++ [st])])%list.
Proof.
  unfold pdf.appendToLine. rewrite nth_error_snoc.
  rewrite firstn_app, firstn_all, Nat.sub_diag. cbn [firstn].
  rewrite skipn_all2 by (rewrite length_app; simpl; lia).
  now rewrite app_nil_r.
Qed.

Lemma groupLoop_walk (rest : list pdf.StyledText) :
  forall done anchorY current,
  exists idx,
    pdf.groupLoop (done ++ [pdf.mkLine anchorY current], Some (List.length done))%list rest
    = Some (done ++ specWalk anchorY current rest, Some idx)%list.
Proof.
  induction rest as [|run rest IH]; intros done anchorY current.
  - simpl. eauto.
  - cbn [pdf.groupLoop specWalk]. unfold pdf.groupStep.
    rewrite nth_error_snoc. cbn [pdf.y]. rewrite abs_tolerance.
    destruct (beyondTolerance anchorY (pdf.stY run)).
    + replace (List.length ((done ++ [pdf.mkLine anchorY current])
                              ++ [pdf.mkLine (pdf.stY run) []]) - 1)%nat
        with (List.length (done ++ [pdf.mkLine anchorY current])%list)
        by (rewrite !length_app; simpl; lia).
      rewrite appendToLine_last. cbn [pdf.y pdf.texts app].
      destruct (IH (done ++ [pdf.mkLine anchorY current])%list (pdf.stY run) [run])
        as (idx & E).
      rewrite E. exists idx. now rewrite <- app_assoc.
    + rewrite appendToLine_last. cbn [pdf.y pdf.texts].
      apply IH.
Qed.

(** The clustering loop of the source computes the specified walk, and
    never panics. *)
Lemma groupLines_spec (sorted : list pdf.StyledText) :
  pdf.groupLines sorted = Some (specAssemble sorted).
Proof.
  unfold pdf.groupLines. destruct sorted as [|run rest]; [reflexivity|].
  cbn [pdf.groupLoop]. unfold pdf.groupStep. cbn [app List.length Nat.sub].
  change (pdf.appendToLine [pdf.mkLine (pdf.stY run) []] 0 run)
    with (Some [pdf.mkLine (pdf.stY run) [run]]).
  destruct (groupLoop_walk rest [] (pdf.stY run) [run]) as (idx & E).
  cbn [app List.length] in E. rewrite E. reflexivity.
Qed.

Lemma specWalk_facts (rest : list pdf.StyledText) :
  forall anchorY current,
    anchoredLine (pdf.mkLine anchorY current) ->
    Forall anchoredLine (specWalk anchorY current rest)
    /\ separatedLines (specWalk anchorY current rest)
    /\ List.concat (map pdf.texts (specWalk anchorY current rest))
       = (current ++ rest)%list
    /\ exists more others,
        specWalk anchorY current rest
        = pdf.mkLine anchorY (current ++ more)%list :: others.
Proof.
  induction rest as [|run rest IH]; intros anchorY current Hcur.
  - cbn [specWalk]. split; [|split; [|split]].
    + constructor; [exact Hcur | constructor].
    + cbn. auto.
    + cbn. now rewrite !app_nil_r.
    + exists [], []. now rewrite app_nil_r.
  - cbn [specWalk].
    destruct (beyondTolerance anchorY (pdf.stY run)) eqn:E.
    + destruct (IH (pdf.stY run) [run]) as (Ha & Hs & Hc & more & others & Ho).
      { cbn. split; [reflexivity | constructor]. }
      split; [|split; [|split]].
      * constructor; assumption.
      * cbn [separatedLines]. split; [|exact Hs].
        rewrite Ho. cbn [pdf.texts pdf.y app]. exact E.
      * cbn [map List.concat pdf.texts]. rewrite Hc. reflexivity.
      * exists [], (specWalk (pdf.stY run) [run] rest). now rewrite app_nil_r.
    + destruct (IH anchorY (current ++ [run])%list)
        as (Ha & Hs & Hc & more & others & Ho).
      { unfold anchoredLine in *. cbn [pdf.texts pdf.y] in *.
        destruct current as [|first rest0]; [contradiction|].
        cbn [app]. destruct Hcur as [Hy Hall]. split; [exact Hy|].
        apply Forall_app. split; [exact Hall|]. constructor; [exact E | constructor]. }
      split; [|split; [|split]]; auto.
      * rewrite Hc. now rewrite <- app_assoc.
      * exists (run :: more), others. rewrite Ho. now rewrite <- app_assoc.
Qed.

Lemma specAssemble_facts (sorted : list pdf.StyledText) :
  Forall anchoredLine (specAssemble sorted)
  /\ separatedLines (specAssemble sorted)
  /\ List.concat (map pdf.texts (specAssemble sorted)) = sorted.
Proof.
  destruct sorted as [|run rest]; cbn [specAssemble].
  - repeat split; constructor.
  - destruct (specWalk_facts rest (pdf.stY run) [run]) as (Ha & Hs & Hc & _).
    + cbn. split; [reflexivity | constructor].
    + repeat split; assumption.
Qed.

Lemma StronglySorted_weaken_in {A} (R1 R2 : A -> A -> Prop) (l : list A) :
  (forall a b, In a l -> In b l -> R1 a b -> R2 a b) ->
  StronglySorted R1 l -> StronglySorted R2 l.
Proof.
  intros H S. induction S as [|a l S IH F].
  - constructor.
  - constructor.
    + apply IH. intros x y Hx Hy. apply H; now right.
    + rewrite Forall_forall in *. intros b Hb. apply H; [now left | now right | auto].
Qed.

Section PairSort.

Context `{RT : Runtime} {A : Type} (less : A -> A -> bool).

(** Two runs of which [b] is [less] than [a]: [sort.Slice] puts [b] first,
    whichever came first. *)
Lemma sortSlice_pair (a b : A) :
  less b a = true -> less a b = false -> less a a = false -> less b b = false ->
  sortSlice less [a; b] = [b; a] /\ sortSlice less [b; a] = [b; a].
Proof.
  intros Hba Hab Haa Hbb.
  assert (SW : forall l, (forall x, In x l -> x = a \/ x = b) -> StrictWeakOn less l).
  { intros l Hl. repeat split.
    - intros x Hx. destruct (Hl x Hx) as [-> | ->]; assumption.
    - intros x y z Hx Hy Hz.
      destruct (Hl x Hx) as [-> | ->], (Hl y Hy) as [-> | ->],
               (Hl z Hz) as [-> | ->]; congruence.
    - intros x y z Hx Hy Hz.
      destruct (Hl x Hx) as [-> | ->], (Hl y Hy) as [-> | ->],
               (Hl z Hz) as [-> | ->]; congruence. }
  assert (K : forall l, Permutation [a; b] l ->
                        StronglySorted (fun x y => less y x = false) l -> l = [b; a]).
  { intros l P S. apply Permutation_length_2_inv in P. destruct P as [-> | ->].
    - inversion S as [|? ? _ F]; subst. inversion F as [|? ? Hf _]; subst. congruence.
    - reflexivity. }
  split; apply K.
  - apply Permutation_sym, sortSlice_perm.
  - apply sortSlice_sorted, SW. intros x [<- | [<- | []]]; auto.
  - eapply Permutation_trans; [apply perm_swap | apply Permutation_sym, sortSlice_perm].
  - apply sortSlice_sorted, SW. intros x [<- | [<- | []]]; auto.
Qed.

End PairSort.

(** C5. The line assembler sorts the page's runs by [y] descending, ties
    by [x] ascending; the walk over the sorted runs is the specified one: the
    first run starts a Line and a later run starts a new Line exactly when
    [|anchorY - run.y| > 2.0], the anchor being the [y] of the run that
    started the current Line.  The magnitude is the IEEE one, taken of the
    binary64 difference: the test holds exactly when the difference is
    above 2.0 or below -2.0.  So every Line keeps the [y] of its first run
    as anchor, holds only runs within the tolerance of it, is followed by a
    Line whose first run is beyond the tolerance, and the Lines together are
    the sorted runs.  Two runs at [y = 100] and [y = 101.5] make one Line,
    two runs at [y = 100] and [y = 103] make two; with runs at 103, 101.5
    and 100 the run at 100 starts a Line of its own, the anchor staying at
    103. *)

Theorem C5_line_assembler `{RT : Runtime} :
  (forall runs,
      Permutation (sortSlice pdf.lessYX runs) runs
      /\ (Forall numericPosition runs ->
          StronglySorted pageOrder (sortSlice pdf.lessYX runs)))
  /\ (forall sorted, pdf.groupLines sorted = Some (specAssemble sorted))
  /\ (forall anchorY y,
         beyondTolerance anchorY y
         = ((2.0 <? anchorY - y)%float || (anchorY - y <? -2.0)%float)%bool)
  /\ (forall run rest, specAssemble (run :: rest) = specWalk (pdf.stY run) [run] rest)
  /\ (forall anchorY current run rest,
         specWalk anchorY current (run :: rest)
         = if ((2.0 <? anchorY - pdf.stY run)%float
               || (anchorY - pdf.stY run <? -2.0)%float)%bool
           then pdf.mkLine anchorY current :: specWalk (pdf.stY run) [run] rest
           else specWalk anchorY (current ++ [run])%list rest)
  /\ (forall sorted,
         Forall anchoredLine (specAssemble sorted)
         /\ separatedLines (specAssemble sorted)
         /\ List.concat (map pdf.texts (specAssemble sorted)) = sorted)
  /\ (forall t1 x1 f1 s1 t2 x2 f2 s2,
         let a := pdf.mkStyledText t1 x1 100 f1 s1 in
         let b := pdf.mkStyledText t2 x2 101.5 f2 s2 in
         pdf.groupLines (sortSlice pdf.lessYX [a; b]) = Some [pdf.mkLine 101.5 [b; a]]
         /\ pdf.groupLines (sortSlice pdf.lessYX [b; a]) = Some [pdf.mkLine 101.5 [b; a]])
  /\ (forall t1 x1 f1 s1 t2 x2 f2 s2,
         let a := pdf.mkStyledText t1 x1 100 f1 s1 in
         let b := pdf.mkStyledText t2 x2 103 f2 s2 in
         pdf.groupLines (sortSlice pdf.lessYX [a; b])
         = Some [pdf.mkLine 103 [b]; pdf.mkLine 100 [a]]
         /\ pdf.groupLines (sortSlice pdf.lessYX [b; a])
            = Some [pdf.mkLine 103 [b]; pdf.mkLine 100 [a]])
  /\ (forall t1 x1 f1 s1 t2 x2 f2 s2 t3 x3 f3 s3,
         let a := pdf.mkStyledText t1 x1 103 f1 s1 in
         let b := pdf.mkStyledText t2 x2 101.5 f2 s2 in
         let c := pdf.mkStyledText t3 x3 100 f3 s3 in
         pdf.groupLines [a; b; c] = Some [pdf.mkLine 103 [a; b]; pdf.mkLine 100 [c]]).
Proof.
  split; [|split; [|split; [|split; [|split; [|split; [|split; [|split]]]]]]].
  - intros runs. split; [apply sortSlice_perm|]. intros Hnum.
    assert (Hnum' : Forall numericPosition (sortSlice pdf.lessYX runs)).
    { rewrite Forall_forall in *. intros x Hx. apply Hnum.
      eapply Permutation_in; [apply sortSlice_perm | exact Hx]. }
    eapply StronglySorted_weaken_in;
      [|apply sortSlice_sorted, lessYX_strictWeak, Hnum].
    rewrite Forall_forall in Hnum'. intros x y Hx Hy.
    apply lessYX_false_pageOrder; auto.
  - apply groupLines_spec.
  - apply beyondTolerance_two_sided.
  - reflexivity.
  - intros anchorY current run rest. cbn [specWalk].
    now rewrite beyondTolerance_two_sided.
  - apply specAssemble_facts.
  - intros t1 x1 f1 s1 t2 x2 f2 s2 a b.
    destruct (sortSlice_pair pdf.lessYX a b) as [E1 E2];
      try reflexivity; try (cbn; apply f64_ltb_irrefl).
    rewrite E1, E2. split; reflexivity.
  - intros t1 x1 f1 s1 t2 x2 f2 s2 a b.
    destruct (sortSlice_pair pdf.lessYX a b) as [E1 E2];
      try reflexivity; try (cbn; apply f64_ltb_irrefl).
    rewrite E1, E2. split; reflexivity.
  - intros. reflexivity.
Qed.

(** ** C6: the physical grid renderer *)

(** *** Writing a run into the 80-column buffer *)

Lemma overlay_length (lineChars text : list ascii) (n : nat) :
  List.length lineChars = 80%nat ->
  List.length (overlay lineChars text n) = 80%nat.
Proof.
  intros H. unfold overlay.
  rewrite !length_app, length_skipn, !length_firstn. lia.
Qed.

Lemma setIndex_spec (lineChars : list ascii) (pos : Z) (ch : ascii) :
  (0 <= pos < Z.of_nat (List.length lineChars))%Z ->
  pdf.setIndex lineChars pos ch
  = Some (firstn (Z.to_nat pos) lineChars
          ++ ch :: skipn (Datatypes.S (Z.to_nat pos)) lineChars)%list.
Proof.
  intros H. unfold pdf.setIndex.
  destruct (Z.leb_spec 0 pos); [|lia].
  destruct (Z.ltb_spec pos (Z.of_nat (List.length lineChars))); [|lia].
  reflexivity.
Qed.

Lemma writeBytes_overlay (text : list ascii) :
  forall lineChars col ci,
    List.length lineChars = 80%nat -> (0 <= col)%Z -> (0 <= ci)%Z ->
    pdf.writeBytes lineChars col ci text
    = Some (overlay lineChars text (Z.to_nat (col + ci))).
Proof.
  induction text as [|ch text IH]; intros lineChars col ci Hlen Hcol Hci.
  - cbn. unfold overlay. rewrite firstn_nil. cbn [List.length app].
    now rewrite Nat.add_0_r, firstn_skipn.
  - cbn [pdf.writeBytes]. unfold pdf.charsPerLine.
    destruct (Z.ltb_spec (col + ci) 80) as [Hlt | Hge].
    + rewrite setIndex_spec by lia.
      set (n := Z.to_nat (col + ci)).
      set (lineChars' := (firstn n lineChars ++ ch :: skipn (Datatypes.S n) lineChars)%list).
      assert (Hn : (n < 80)%nat) by (unfold n; lia).
      assert (Hlen' : List.length lineChars' = 80%nat).
      { unfold lineChars'. rewrite length_app, length_firstn. cbn [List.length].
        rewrite length_skipn. lia. }
      rewrite IH by (auto; lia).
      replace (Z.to_nat (col + (ci + 1))) with (Datatypes.S n) by (unfold n; lia).
      assert (F : firstn (Datatypes.S n) lineChars' = (firstn n lineChars ++ [ch])%list).
      { unfold lineChars'.
        rewrite firstn_app, length_firstn, firstn_firstn.
        replace (Nat.min (Datatypes.S n) n) with n by lia.
        replace (Datatypes.S n - Nat.min n (List.length lineChars))%nat with 1%nat by lia.
        reflexivity. }
      assert (K : forall k, skipn (Datatypes.S n + k) lineChars'
                            = skipn (Datatypes.S n + k) lineChars).
      { intros k. unfold lineChars'.
        rewrite skipn_app, length_firstn.
        replace (Nat.min n (List.length lineChars)) with n by lia.
        rewrite (skipn_all2 (firstn n lineChars))
          by (rewrite length_firstn; lia).
        replace (Datatypes.S n + k - n)%nat with (Datatypes.S k) by lia.
        cbn [app]. rewrite skipn_cons, skipn_skipn. f_equal. lia. }
      f_equal. unfold overlay. rewrite F, K.
      replace (80 - n)%nat with (Datatypes.S (80 - Datatypes.S n)) by lia.
      rewrite firstn_cons. cbn [List.length].
      rewrite <- app_assoc. cbn [app].
      now rewrite Nat.add_succ_r.
    + rewrite IH by (auto; lia). f_equal. unfold overlay.
      replace (80 - Z.to_nat (col + (ci + 1)))%nat with 0%nat by lia.
      replace (80 - Z.to_nat (col + ci))%nat with 0%nat by lia.
      cbn [firstn List.length app]. now rewrite !Nat.add_0_r, !firstn_skipn.
Qed.

(** *** The column of a run *)

(** Truncation and floor differ below zero only, where the clamp is 0. *)
Lemma truncSF_floorSF (x : spec_float) (t : Z) :
  truncSF x = Some t ->
  exists fl, floorSF x = Some fl /\ clamp t 0 79 = clamp fl 0 79
             /\ (0 <= fl -> t = fl)%Z.
Proof.
  destruct x as [s|s| |s m e]; cbn [truncSF floorSF]; try discriminate.
  - intros [= <-]. eauto.
  - intros [= <-]. eexists; split; [reflexivity|].
    assert (E : match e with
                | Z.neg p => Z.shiftr (Z.pos m) (Z.pos p)
                | _ => Z.shiftl (Z.pos m) e
                end = Z.shiftl (Z.pos m) e) by (destruct e; reflexivity).
    rewrite E. destruct s; cbn [cond_Zopp]; [|auto].
    assert (P : (0 <= Z.shiftl (Z.pos m) e)%Z) by (apply Z.shiftl_nonneg; lia).
    assert (N : (Z.shiftl (- Z.pos m) e < 0)%Z).
    { destruct (Z.shiftl_nonneg (- Z.pos m) e) as [N _].
      destruct (Z.lt_ge_cases (Z.shiftl (- Z.pos m) e) 0); [assumption|].
      specialize (N ltac:(lia)). lia. }
    unfold clamp. split; lia.
Qed.

Section Grid.

Context `{RT : Runtime}.

Lemma column_clamp (charWidth : float) (st : pdf.StyledText) :
  pdf.column charWidth st
  = clamp (int_of_float64 (pdf.stX st / charWidth)%float) 0 79.
Proof.
  unfold pdf.column, pdf.charsPerLine, clamp.
  set (c := int_of_float64 _).
  destruct (Z.ltb_spec c 0); rewrite Z.geb_leb;
    [destruct (Z.leb_spec 80 0) | destruct (Z.leb_spec 80 c)]; lia.
Qed.

Lemma column_range (charWidth : float) (st : pdf.StyledText) :
  (0 <= pdf.column charWidth st <= 79)%Z.
Proof. rewrite column_clamp. unfold clamp. lia. Qed.

(** The column as the specification words it, whenever [int(...)] is
    defined by the language; beyond, the clamp of what the implementation
    returns. *)
Lemma column_floor (charWidth : float) (st : pdf.StyledText) :
  match int_of_float64_exact (pdf.stX st / charWidth)%float with
  | Some _ =>
      exists fl, floorOf (pdf.stX st / charWidth)%float = Some fl
                 /\ pdf.column charWidth st = clamp fl 0 79
  | None =>
      pdf.column charWidth st
      = clamp (intOutOfRange (pdf.stX st / charWidth)%float) 0 79
  end.
Proof.
  rewrite column_clamp. unfold int_of_float64, int_of_float64_exact, floorOf.
  destruct (truncSF (Prim2SF (pdf.stX st / charWidth)%float)) as [t|] eqn:E;
    [|reflexivity].
  destruct ((minInt64 <=? t)%Z && (t <=? maxInt64)%Z)%bool; [|reflexivity].
  destruct (truncSF_floorSF _ _ E) as (fl & Hf & Hc & _). eauto.
Qed.

(** A run whose quotient has floor 85 (or any floor from 80 up that fits
    an [int]) lands in column 79. *)
Lemma column_beyond_grid (charWidth : float) (st : pdf.StyledText) (fl : Z) :
  floorOf (pdf.stX st / charWidth)%float = Some fl ->
  (80 <= fl <= maxInt64)%Z ->
  pdf.column charWidth st = 79%Z.
Proof.
  intros Hf Hr. rewrite column_clamp.
  unfold int_of_float64, int_of_float64_exact, floorOf in *.
  destruct (Prim2SF (pdf.stX st / charWidth)%float) as [s|s| |s m e] eqn:E;
    cbn [truncSF floorSF] in *; try discriminate.
  - injection Hf as <-. lia.
  - destruct (truncSF_floorSF (S754_finite s m e) _ eq_refl) as (fl' & Hf' & _ & Ht).
    cbn [floorSF] in Hf'. rewrite Hf in Hf'. injection Hf' as <-.
    cbn [truncSF] in Ht. rewrite Ht by lia.
    unfold minInt64, maxInt64 in *.
    destruct (Z.leb_spec (- 2 ^ 63) fl); [|lia].
    destruct (Z.leb_spec fl (2 ^ 63 - 1)); [|lia].
    cbn [andb]. unfold clamp. lia.
Qed.

(** *** Lines of the grid *)

Lemma writeTexts_spec (charWidth : float) (lnTexts : list pdf.StyledText) :
  forall lineChars,
    List.length lineChars = 80%nat ->
    pdf.writeTexts charWidth lineChars lnTexts
    = Some (specWriteTexts charWidth lineChars lnTexts)
    /\ List.length (specWriteTexts charWidth lineChars lnTexts) = 80%nat.
Proof.
  induction lnTexts as [|st rest IH]; intros lineChars Hlen.
  - split; [reflexivity | exact Hlen].
  - cbn [pdf.writeTexts specWriteTexts fold_left].
    pose proof (column_range charWidth st) as Hc.
    rewrite writeBytes_overlay by (auto; lia).
    rewrite Z.add_0_r. apply IH. now apply overlay_length.
Qed.

Lemma renderLine_spec (charWidth : float) (ln : pdf.line) :
  pdf.renderLine charWidth ln = Some (specRenderLine charWidth ln).
Proof.
  unfold pdf.renderLine, specRenderLine.
  change (Z.to_nat pdf.charsPerLine) with 80%nat.
  destruct (writeTexts_spec charWidth (sortSlice pdf.lessStX (pdf.texts ln))
                            (repeat " "%char 80)) as [E _].
  - apply repeat_length.
  - now rewrite E.
Qed.

Lemma renderLines_spec (charWidth : float) (lines : list pdf.line) :
  forall buf,
    pdf.renderLines charWidth buf lines
    = Some (buf ++ String.concat newline (map (specRenderLine charWidth) lines)).
Proof.
  induction lines as [|ln lines IH]; intros buf.
  - cbn. now rewrite string_app_nil_r.
  - cbn [pdf.renderLines map]. rewrite renderLine_spec, IH, concat_newline_cons.
    replace (pdf.newlineUnlessLast (map (specRenderLine charWidth) lines))
      with (pdf.newlineUnlessLast lines) by (destruct lines; reflexivity).
    now rewrite !string_app_assoc.
Qed.

Lemma physicalLayout_spec (styledTexts : list pdf.StyledText) (pageWidth : float) :
  pdf.physicalLayout styledTexts pageWidth
  = Some (specPhysicalLayout styledTexts pageWidth).
Proof.
  unfold pdf.physicalLayout, specPhysicalLayout.
  destruct styledTexts as [|st rest].
  - now rewrite sortSlice_nil.
  - now rewrite groupLines_spec, renderLines_spec.
Qed.

End Grid.

(** *** Trimming *)

Lemma trimRightLoop_le (s : string) (n : nat) : (pdf.trimRightLoop s n <= n)%nat.
Proof.
  induction n as [|i IH]; cbn [pdf.trimRightLoop]; [lia|].
  destruct (String.get i s) as [ch|]; [|lia].
  destruct (ch =? " ")%char; lia.
Qed.

Lemma trimRightLoop_spaces (s : string) (n : nat) :
  forall i, (pdf.trimRightLoop s n <= i < n)%nat -> String.get i s = Some " "%char.
Proof.
  induction n as [|k IH]; cbn [pdf.trimRightLoop]; intros i Hi; [lia|].
  destruct (String.get k s) as [ch|] eqn:G; [|lia].
  destruct (Ascii.eqb_spec ch " "); [|lia].
  subst ch. destruct (Nat.eq_dec i k) as [-> | Hne]; [exact G|].
  apply IH. lia.
Qed.

Lemma trimRightLoop_stop (s : string) (n : nat) :
  pdf.trimRightLoop s n = O
  \/ String.get (pdf.trimRightLoop s n - 1) s <> Some " "%char.
Proof.
  induction n as [|k IH]; cbn [pdf.trimRightLoop]; [now left|].
  destruct (String.get k s) as [ch|] eqn:G.
  - destruct (Ascii.eqb_spec ch " ") as [-> | Hne]; [exact IH|].
    right. cbn [Nat.sub]. rewrite Nat.sub_0_r, G. congruence.
  - right. cbn [Nat.sub]. rewrite Nat.sub_0_r, G. discriminate.
Qed.

Lemma substring_prefix_length (s : string) :
  forall m, (m <= String.length s)%nat -> String.length (substring 0 m s) = m.
Proof.
  induction s as [|c s IH]; intros m Hm; cbn in *.
  - destruct m; [reflexivity | lia].
  - destruct m; cbn; [reflexivity|]. rewrite IH; lia.
Qed.

Lemma substring_prefix_get (s : string) :
  forall m i, (i < m)%nat -> String.get i (substring 0 m s) = String.get i s.
Proof.
  intros m i H. rewrite substring_correct1 by exact H. now rewrite Nat.add_0_r.
Qed.

Lemma substring_prefix_spaces (s : string) :
  forall m,
    (m <= String.length s)%nat ->
    (forall i, (m <= i < String.length s)%nat -> String.get i s = Some " "%char) ->
    s = substring 0 m s ++ spaces (String.length s - m).
Proof.
  induction s as [|c s IH]; intros m Hm Hsp.
  - destruct m; reflexivity.
  - destruct m as [|m'].
    + cbn [substring String.append]. rewrite Nat.sub_0_r.
      cbn [String.length spaces].
      assert (Hc : Some c = Some " "%char) by (apply (Hsp O); cbn; lia).
      injection Hc as ->. f_equal.
      rewrite (IH O) at 1.
      * destruct s; cbn; now rewrite ?Nat.sub_0_r.
      * lia.
      * intros i Hi. apply (Hsp (Datatypes.S i)). cbn. lia.
    + cbn [substring String.append String.length Nat.sub]. f_equal.
      apply IH; [cbn in Hm; lia|].
      intros i Hi. apply (Hsp (Datatypes.S i)). cbn. lia.
Qed.

(** [trimRight] removes trailing spaces, and only them. *)
Lemma trimRight_spec (s : string) :
  s = pdf.trimRight s ++ spaces (String.length s - String.length (pdf.trimRight s))
  /\ lastChar (pdf.trimRight s) <> Some " "%char.
Proof.
  unfold pdf.trimRight, lastChar.
  pose proof (trimRightLoop_le s (String.length s)) as Hle.
  rewrite substring_prefix_length by exact Hle. split.
  - apply substring_prefix_spaces; [exact Hle|].
    apply trimRightLoop_spaces.
  - destruct (trimRightLoop_stop s (String.length s)) as [-> | Hne].
    + destruct s; discriminate.
    + destruct (pdf.trimRightLoop s (String.length s)) as [|k] eqn:E.
      * destruct s; discriminate.
      * rewrite substring_prefix_get by lia. exact Hne.
Qed.

Lemma sortSlice_one `{RT : Runtime} {A} (less : A -> A -> bool) (a : A) :
  sortSlice less [a] = [a].
Proof. apply Permutation_length_1_inv, Permutation_sym, sortSlice_perm. Qed.

(** X20. The physical grid renderer wherever [int(x / charWidth)] is
    defined by the language, that is wherever the quotient is a number
    whose integer part fits an [int]: [charWidth] is [pageWidth / 80], with
    612 for a non-positive page width; the column of a run is
    [clamp(floor(x / charWidth), 0, 79)], so a run whose quotient has floor
    85 lands in column 79; beyond that range the column is the clamp of
    whatever the implementation returns for the conversion.  The run's
    bytes are written from its column on and those that would pass column
    79 are dropped, the buffer keeping its 80 columns; a rendered line is
    the buffer without its trailing spaces; the page is the rendered lines
    joined by single newlines, and it is empty for no run at all. *)
Theorem physical_grid_in_range `{RT : Runtime} :
  (forall pageWidth,
      pdf.charWidthOf pageWidth
      = if (pageWidth <=? 0)%float then (612 / 80)%float else (pageWidth / 80)%float)
  /\ (forall charWidth st,
         match int_of_float64_exact (pdf.stX st / charWidth)%float with
         | Some _ =>
             exists fl, floorOf (pdf.stX st / charWidth)%float = Some fl
                        /\ pdf.column charWidth st = clamp fl 0 79
         | None =>
             pdf.column charWidth st
             = clamp (intOutOfRange (pdf.stX st / charWidth)%float) 0 79
         end)
  /\ (forall charWidth st,
         floorOf (pdf.stX st / charWidth)%float = Some 85%Z ->
         pdf.column charWidth st = 79%Z)
  /\ (forall charWidth st lineChars,
         List.length lineChars = 80%nat ->
         pdf.writeBytes lineChars (pdf.column charWidth st) 0 (bytesOf st)
         = Some (overlay lineChars (bytesOf st) (Z.to_nat (pdf.column charWidth st)))
         /\ List.length (overlay lineChars (bytesOf st)
                                 (Z.to_nat (pdf.column charWidth st))) = 80%nat)
  /\ (forall charWidth ln,
         pdf.renderLine charWidth ln = Some (specRenderLine charWidth ln)
         /\ lastChar (specRenderLine charWidth ln) <> Some " "%char
         /\ exists k,
             string_of_list_ascii
               (specWriteTexts charWidth (repeat " "%char 80)
                               (sortSlice pdf.lessStX (pdf.texts ln)))
             = specRenderLine charWidth ln ++ spaces k)
  /\ (forall styledTexts pageWidth,
         pdf.physicalLayout styledTexts pageWidth
         = Some (String.concat newline
                   (map (specRenderLine (pdf.charWidthOf pageWidth))
                        (specAssemble (sortSlice pdf.lessYX styledTexts)))))
  /\ (forall pageWidth, pdf.physicalLayout [] pageWidth = Some "")
  /\ pdf.physicalLayout [pdf.mkStyledText "XYZ" 655 700 "F1" 10] 0
     = Some (spaces 79 ++ "X").
Proof.
  split; [|split; [|split; [|split; [|split; [|split; [|split]]]]]].
  - intros pageWidth. unfold pdf.charWidthOf.
    destruct (pageWidth <=? 0)%float; reflexivity.
  - apply column_floor.
  - intros charWidth st H. apply (column_beyond_grid charWidth st 85 H).
    unfold maxInt64. lia.
  - intros charWidth st lineChars Hlen.
    pose proof (column_range charWidth st) as Hc. split.
    + rewrite writeBytes_overlay by (auto; lia). now rewrite Z.add_0_r.
    + now apply overlay_length.
  - intros charWidth ln. split; [apply renderLine_spec|].
    unfold specRenderLine.
    destruct (trimRight_spec
                (string_of_list_ascii
                   (specWriteTexts charWidth (repeat " "%char 80)
                                   (sortSlice pdf.lessStX (pdf.texts ln)))))
      as [E L].
    split; [exact L | eexists; exact E].
  - apply physicalLayout_spec.
  - reflexivity.
  - rewrite physicalLayout_spec. unfold specPhysicalLayout.
    rewrite sortSlice_one. cbn [specAssemble specWalk map].
    unfold specRenderLine. cbn [pdf.texts]. rewrite sortSlice_one.
    assert (C : pdf.column (pdf.charWidthOf 0) (pdf.mkStyledText "XYZ" 655 700 "F1" 10)
                = 79%Z).
    { apply column_beyond_grid with (fl := 85%Z); [vm_compute; reflexivity|].
      unfold maxInt64. lia. }
    cbn [specWriteTexts fold_left]. rewrite C. vm_compute. reflexivity.
Qed.

(** C6. The column rule fails where the conversion overflows.  A run at
    [x = 1e20] on a page 612 wide: [x / charWidth] is about [1.3e19], beyond
    the largest [int]; its floor is far above 79, so the column of the
    specification is 79.  The source converts before it clamps: [int(...)]
    is then the smallest [int] (as on amd64), which the test [col < 0]
    turns into column 0, and the run is written at the left edge. *)
Lemma C6_column_overflow :
  (exists fl,
      floorOf (1e20 / pdf.charWidthOf 612)%float = Some fl
      /\ (maxInt64 < fl)%Z
      /\ clamp fl 0 79 = 79%Z)
  /\ int_of_float64_exact (1e20 / pdf.charWidthOf 612)%float = None
  /\ pdf.column (pdf.charWidthOf 612) (pdf.mkStyledText "X" 1e20 700 "F1" 12) = 0%Z
  /\ pdf.physicalLayout [pdf.mkStyledText "X" 1e20 700 "F1" 12] 612 = Some "X"
  /\ pdf.physicalLayout [pdf.mkStyledText "X" 1e20 700 "F1" 12] 612
     <> Some (spaces 79 ++ "X").
Proof.
  split.
  - eexists. split; [vm_compute; reflexivity|]. split; vm_compute; reflexivity.
  - split; [vm_compute; reflexivity|]. split; [vm_compute; reflexivity|].
    split; [vm_compute; reflexivity|]. vm_compute. discriminate.
Qed.

(** ** The facade: what a page gives, and what it touches *)

Section Facade.

Context `{RT : Runtime}.

Lemma getTextByRow_run (r : gopdf.Reader) (what : string) (n : Z) (t : Trace) :
  pdf.getTextByRow r what n t
  = Some (match gopdf.Page r n with
          | gopdf.NullPage => ([], Some (ErrPageNull n))
          | gopdf.FailingPage cause =>
              ([], Some (ErrFailedToGet what n (ErrRowSource cause)))
          | gopdf.RowsPage rows => (rows, None)
          end,
          (t ++ match gopdf.Page r n with
                | gopdf.NullPage => [AccessPage n]
                | _ => [AccessPage n; AccessRows n]
                end)%list).
Proof.
  unfold pdf.getTextByRow, bind, access, ret.
  destruct (gopdf.Page r n); cbn; now rewrite <- ?app_assoc.
Qed.

Lemma PageText_run (d : crazypdf.Document) (page : crazypdf.Page)
      (opts : list extract.Option) (t : Trace) :
  extract.PageText d page opts t
  = Some (specPageText d page opts, (t ++ specPageAccesses d page)%list).
Proof.
  unfold extract.PageText, specPageText, specPageAccesses, policyOf.
  unfold extract.LayoutSimple, extract.LayoutRaw, extract.LayoutPhysical.
  set (cfg := extract.applyOptions opts).
  assert (Simple :
    crazypdf.PlainText d page t
    = Some (if crazypdf.closed d then ("", Some ErrDocumentClosed)
            else match gopdf.Page (crazypdf.reader d) (crazypdf.Number page) with
                 | gopdf.NullPage => ("", Some (ErrPageNull (crazypdf.Number page)))
                 | gopdf.FailingPage cause =>
                     ("", Some (ErrFailedToGet "text" (crazypdf.Number page)
                                               (ErrRowSource cause)))
                 | gopdf.RowsPage rows =>
                     (String.concat newline (map conservativeLine rows), None)
                 end,
            (t ++ if crazypdf.closed d then []
                  else match gopdf.Page (crazypdf.reader d) (crazypdf.Number page) with
                       | gopdf.NullPage => [AccessPage (crazypdf.Number page)]
                       | _ => [AccessPage (crazypdf.Number page);
                               AccessRows (crazypdf.Number page)]
                       end)%list)).
  { unfold crazypdf.PlainText. destruct (crazypdf.closed d).
    - unfold ret. now rewrite app_nil_r.
    - unfold pdf.PagePlainText, bind. rewrite getTextByRow_run.
      destruct (gopdf.Page (crazypdf.reader d) (crazypdf.Number page)); try reflexivity.
      unfold orPanic, ret. now rewrite plainTextRows_lines. }
  destruct (Z.eqb_spec (extract.Layout cfg) 0) as [E0 | N0].
  - rewrite E0. cbn [Z.eqb]. exact Simple.
  - destruct (Z.eqb_spec (extract.Layout cfg) 1) as [E1 | N1].
    + cbn [whatOf specLayoutText].
      unfold extract.extractRawText, crazypdf.TextByRow, bind.
      destruct (crazypdf.closed d).
      * unfold ret. now rewrite app_nil_r.
      * unfold pdf.PageTextByRow, bind. rewrite getTextByRow_run.
        destruct (gopdf.Page (crazypdf.reader d) (crazypdf.Number page));
          try reflexivity.
        unfold orPanic, ret. now rewrite rawRows_lines.
    + destruct (Z.eqb_spec (extract.Layout cfg) 2) as [E2 | N2].
      * cbn [whatOf specLayoutText].
        unfold crazypdf.PhysicalLayoutText. destruct (crazypdf.closed d).
        -- unfold ret. now rewrite app_nil_r.
        -- unfold pdf.PhysicalLayoutText, pdf.PageStyledTexts, bind.
           rewrite getTextByRow_run.
           destruct (gopdf.Page (crazypdf.reader d) (crazypdf.Number page));
             try reflexivity.
           unfold orPanic, ret. now rewrite physicalLayout_spec.
      * exact Simple.
Qed.

Lemma allPagesLoop_run (d : crazypdf.Document) (opts : list extract.Option)
      (pages : list crazypdf.Page) :
  forall result t,
    extract.allPagesLoop d opts result pages t
    = Some (specAllPages d opts result pages,
            (t ++ flat_map (specPageAccesses d) (pagesReached d opts pages))%list).
Proof.
  induction pages as [|page rest IH]; intros result t.
  - cbn. unfold ret. now rewrite app_nil_r.
  - cbn [extract.allPagesLoop specAllPages pagesReached]. unfold bind.
    rewrite PageText_run.
    destruct (specPageText d page opts) as [text [e|]]; cbn [fst snd].
    + unfold ret. cbn [flat_map]. now rewrite app_nil_r.
    + rewrite IH. cbn [flat_map]. now rewrite app_assoc.
Qed.

End Facade.

(** ** C7: whole-document extraction is fail-fast *)

Section FailFast.

Context `{RT : Runtime}.

Lemma specAllPages_first_failure (d : crazypdf.Document) (opts : list extract.Option)
      (before : list crazypdf.Page) :
  forall result page after e,
    Forall (fun q => snd (specPageText d q opts) = None) before ->
    snd (specPageText d page opts) = Some e ->
    specAllPages d opts result (before ++ page :: after)
    = ([], Some (ErrFailedToExtract (crazypdf.Number page) e))
    /\ pagesReached d opts (before ++ page :: after) = (before ++ [page])%list.
Proof.
  induction before as [|q before IH]; intros result page after e Hok Hfail.
  - cbn. rewrite Hfail. auto.
  - inversion Hok as [|? ? Hq Hok']; subst.
    cbn [app specAllPages pagesReached]. rewrite Hq.
    destruct (IH (result ++ [fst (specPageText d q opts)])%list page after e Hok' Hfail)
      as [E1 E2].
    rewrite E1, E2. auto.
Qed.

Lemma buildPages_number (numPages i : nat) (q : crazypdf.Page) :
  nth_error (crazypdf.buildPages numPages) i = Some q ->
  crazypdf.Number q = (Z.of_nat i + 1)%Z.
Proof.
  unfold crazypdf.buildPages. intros H.
  rewrite nth_error_map in H.
  destruct (nth_error (seq 0 numPages) i) as [k|] eqn:E; [|discriminate].
  cbn in H. injection H as <-. cbn [crazypdf.Number].
  assert (L : (i < List.length (seq 0 numPages))%nat)
    by (apply nth_error_Some; congruence).
  rewrite length_seq in L.
  apply (nth_error_nth _ _ O) in E. rewrite seq_nth in E by lia. lia.
Qed.

(** C7. [AllPages] takes the pages in order and stops at the first page
    whose extraction fails: it returns no page text at all and the page's
    error wrapped with the page's number, having asked the row source for
    the pages up to that one and for none after it; [Text] returns the
    same error and the empty string.  In a document built by [Open] the
    number of the page at index [i] is [i + 1]. *)
Theorem C7_fail_fast (d : crazypdf.Document) (opts : list extract.Option)
        (before after : list crazypdf.Page) (page : crazypdf.Page)
        (e : error) (t : Trace) :
  crazypdf.closed d = false ->
  crazypdf.pages d = (before ++ page :: after)%list ->
  Forall (pageSucceeds d opts) before ->
  pageFailsWith d opts page e ->
  extract.AllPages d opts t
  = Some (([], Some (ErrFailedToExtract (crazypdf.Number page) e)),
          (t ++ flat_map (specPageAccesses d) (before ++ [page]))%list)
  /\ extract.Text d opts t
     = Some (("", Some (ErrFailedToExtract (crazypdf.Number page) e)),
             (t ++ flat_map (specPageAccesses d) (before ++ [page]))%list)
  /\ (forall path r i q,
         nth_error (crazypdf.pages (crazypdf.Open path r)) i = Some q ->
         crazypdf.Number q = (Z.of_nat i + 1)%Z).
Proof.
  intros Hopen Hpages Hok' Hfail'.
  assert (Hok : Forall (fun q => snd (specPageText d q opts) = None) before).
  { eapply Forall_impl; [|exact Hok']. intros q Hq.
    destruct (Hq []) as (text & t' & E). rewrite PageText_run in E.
    injection E as E _. now rewrite E. }
  assert (Hfail : snd (specPageText d page opts) = Some e).
  { destruct (Hfail' []) as (text & t' & E). rewrite PageText_run in E.
    injection E as E _. now rewrite E. }
  assert (A : extract.AllPages d opts t
              = Some (([], Some (ErrFailedToExtract (crazypdf.Number page) e)),
                      (t ++ flat_map (specPageAccesses d) (before ++ [page]))%list)).
  { unfold extract.AllPages, crazypdf.IsClosed, crazypdf.Pages.
    rewrite Hopen, Hpages, allPagesLoop_run.
    destruct (specAllPages_first_failure d opts before [] page after e Hok Hfail)
      as [E1 E2].
    now rewrite E1, E2. }
  split; [exact A|]. split.
  - unfold extract.Text, crazypdf.IsClosed, bind. rewrite Hopen, A. reflexivity.
  - intros path r i q. apply buildPages_number.
Qed.

End FailFast.

(** On the three-page document the error names page 2, nothing is
    returned for page 1, and page 3 is never asked for. *)
Lemma C7_fail_fast_witness :
  extract.AllPages threePageDocument [] []
  = Some (([], Some (ErrFailedToExtract 2
                       (ErrFailedToGet "text" 2 (ErrRowSource "bad stream")))),
          [AccessPage 1; AccessRows 1; AccessPage 2; AccessRows 2])
  /\ extract.Text threePageDocument [] []
     = Some (("", Some (ErrFailedToExtract 2
                          (ErrFailedToGet "text" 2 (ErrRowSource "bad stream")))),
             [AccessPage 1; AccessRows 1; AccessPage 2; AccessRows 2]).
Proof.
  destruct (C7_fail_fast threePageDocument [] [crazypdf.mkPage 1] [crazypdf.mkPage 3]
                         (crazypdf.mkPage 2)
                         (ErrFailedToGet "text" 2 (ErrRowSource "bad stream")) [])
    as (A & T & _).
  - reflexivity.
  - reflexivity.
  - constructor; [|constructor]. intros t. do 2 eexists. reflexivity.
  - intros t. do 2 eexists. reflexivity.
  - split; [exact A | exact T].
Defined.

(** ** C8: closed documents, and totality *)

(** C8. After [Close], [Text] and [AllPages] under any options, [PageText]
    under any layout mode, and the page methods [PlainText], [TextByRow],
    [StyledTexts] and [PhysicalLayoutText] return [ErrDocumentClosed] with an
    empty result, and leave the trace of the row source as it was: nothing
    is read.  The reconstruction algorithms always return a string (no
    panic), and so does every operation of the facade. *)
Theorem C8_closed_and_total `{RT : Runtime} :
  (forall d opts t,
      extract.Text (crazypdf.Close d) opts t = Some (("", Some ErrDocumentClosed), t)
      /\ extract.AllPages (crazypdf.Close d) opts t
         = Some (([], Some ErrDocumentClosed), t))
  /\ (forall d page opts t,
         extract.PageText (crazypdf.Close d) page opts t
         = Some (("", Some ErrDocumentClosed), t))
  /\ (forall d page pageWidth t,
         crazypdf.PlainText (crazypdf.Close d) page t
         = Some (("", Some ErrDocumentClosed), t)
         /\ crazypdf.TextByRow (crazypdf.Close d) page t
            = Some (([], Some ErrDocumentClosed), t)
         /\ crazypdf.StyledTexts (crazypdf.Close d) page t
            = Some (([], Some ErrDocumentClosed), t)
         /\ crazypdf.PhysicalLayoutText (crazypdf.Close d) page pageWidth t
            = Some (("", Some ErrDocumentClosed), t))
  /\ (forall rows, exists s, pdf.plainTextRows "" rows = Some s)
  /\ (forall rows, exists s, extract.rawRows "" rows = Some s)
  /\ (forall styledTexts pageWidth,
         exists s, pdf.physicalLayout styledTexts pageWidth = Some s)
  /\ pdf.plainTextRows "" [] = Some ""
  /\ extract.rawRows "" [] = Some ""
  /\ (forall d page opts t,
         exists r t', extract.PageText d page opts t = Some (r, t'))
  /\ (forall d opts t,
         (exists r t', extract.AllPages d opts t = Some (r, t'))
         /\ (exists r t', extract.Text d opts t = Some (r, t'))).
Proof.
  split; [|split; [|split; [|split; [|split; [|split; [|split; [|split; [|split]]]]]]]].
  - intros d opts t. split; reflexivity.
  - intros d page opts t. rewrite PageText_run.
    unfold specPageText, specPageAccesses. cbn [crazypdf.Close crazypdf.closed].
    now rewrite app_nil_r.
  - intros d page pageWidth t. repeat split.
  - intros rows. rewrite plainTextRows_lines. eauto.
  - intros rows. rewrite rawRows_lines. eauto.
  - intros styledTexts pageWidth. rewrite physicalLayout_spec. eauto.
  - reflexivity.
  - reflexivity.
  - intros d page opts t. rewrite PageText_run. eauto.
  - intros d opts t.
    assert (A : exists r t', extract.AllPages d opts t = Some (r, t')).
    { unfold extract.AllPages, crazypdf.IsClosed.
      destruct (crazypdf.closed d); [unfold ret; eauto|].
      rewrite allPagesLoop_run. eauto. }
    split; [exact A|].
    unfold extract.Text, crazypdf.IsClosed, bind.
    destruct (crazypdf.closed d); [unfold ret; eauto|].
    destruct A as ((pages & [e|]) & t' & ->); unfold ret; eauto.
Qed.

(** ** C9: determinism under permutation of the runs *)

Lemma StrictWeakOn_perm {A} (less : A -> A -> bool) (l1 l2 : list A) :
  Permutation l1 l2 -> StrictWeakOn less l1 -> StrictWeakOn less l2.
Proof.
  intros P (H1 & H2 & H3).
  assert (I : forall a, In a l2 -> In a l1)
    by (intros a; apply Permutation_in, Permutation_sym, P).
  repeat split.
  - intros a Ha. apply H1; auto.
  - intros a b c Ha Hb Hc. apply H2; auto.
  - intros a b c Ha Hb Hc. apply H3; auto.
Qed.

Section Determinism.

Context `{RT : Runtime}.

Lemma sortSlice_perm_unique {A} (less : A -> A -> bool) (l1 l2 : list A) :
  Permutation l1 l2 -> StrictWeakOn less l1 -> NoTies less l1 ->
  sortSlice less l1 = sortSlice less l2.
Proof.
  intros P SW Hnt.
  apply sorted_perm_unique with (less := less).
  - eapply NoTies_perm; [apply Permutation_sym, sortSlice_perm | exact Hnt].
  - eapply Permutation_trans; [apply sortSlice_perm|].
    eapply Permutation_trans; [exact P | apply Permutation_sym, sortSlice_perm].
  - apply sortSlice_sorted, SW.
  - apply sortSlice_sorted. eapply StrictWeakOn_perm; eassumption.
Qed.

Lemma conservativeLine_perm (r1 r2 : gopdf.Row) :
  Permutation (gopdf.Content r1) (gopdf.Content r2) ->
  distinctKeys gopdf.X (gopdf.Content r1) ->
  conservativeLine r1 = conservativeLine r2.
Proof.
  intros P [Hnum Hnt]. unfold conservativeLine.
  change pdf.lessX with (lessBy gopdf.X).
  now rewrite (sortSlice_perm_invariant gopdf.X _ _ P Hnum Hnt).
Qed.

Lemma rawLine_perm (r1 r2 : pdf.TextRow) :
  Permutation (pdf.Words r1) (pdf.Words r2) ->
  distinctKeys pdf.wX (pdf.Words r1) ->
  rawLine r1 = rawLine r2.
Proof.
  intros P [Hnum Hnt]. unfold rawLine.
  change extract.lessWX with (lessBy pdf.wX).
  now rewrite (sortSlice_perm_invariant pdf.wX _ _ P Hnum Hnt).
Qed.

Lemma map_line_perm {R} (content : R -> Prop) (related : R -> R -> Prop)
      (lineOf : R -> string) (rows1 rows2 : list R) :
  (forall r1 r2, related r1 r2 -> content r1 -> lineOf r1 = lineOf r2) ->
  Forall2 related rows1 rows2 -> Forall content rows1 ->
  map lineOf rows1 = map lineOf rows2.
Proof.
  intros H F2. induction F2 as [|r1 r2 l1 l2 Hr F2 IH]; intros F; [reflexivity|].
  inversion F; subst. cbn. f_equal; auto.
Qed.

(** C9 (amended). Extraction does not depend on the order in which the
    runs are handed over, as long as their positions are numbers and no two
    different runs tie in the sort: within each row no two different runs
    share an [x] (conservative and stream-order policies), and on the page
    no two different runs share both [y] and [x] (physical layout). *)
Theorem C9_determinism_without_ties :
  (forall rows1 rows2,
      Forall2 (fun r1 r2 => Permutation (gopdf.Content r1) (gopdf.Content r2))
              rows1 rows2 ->
      Forall (fun r => distinctKeys gopdf.X (gopdf.Content r)) rows1 ->
      pdf.plainTextRows "" rows1 = pdf.plainTextRows "" rows2)
  /\ (forall rows1 rows2,
         Forall2 (fun r1 r2 => Permutation (pdf.Words r1) (pdf.Words r2))
                 rows1 rows2 ->
         Forall (fun r => distinctKeys pdf.wX (pdf.Words r)) rows1 ->
         extract.rawRows "" rows1 = extract.rawRows "" rows2)
  /\ (forall styledTexts1 styledTexts2 pageWidth,
         Permutation styledTexts1 styledTexts2 ->
         distinctPositions styledTexts1 ->
         pdf.physicalLayout styledTexts1 pageWidth
         = pdf.physicalLayout styledTexts2 pageWidth).
Proof.
  split; [|split].
  - intros rows1 rows2 F2 F. rewrite !plainTextRows_lines. do 3 f_equal.
    eapply map_line_perm; [|exact F2 | exact F].
    intros r1 r2. apply conservativeLine_perm.
  - intros rows1 rows2 F2 F. rewrite !rawRows_lines. do 3 f_equal.
    eapply map_line_perm; [|exact F2 | exact F].
    intros r1 r2. apply rawLine_perm.
  - intros l1 l2 w P [Hnum Hnt]. rewrite !physicalLayout_spec.
    unfold specPhysicalLayout.
    rewrite (sortSlice_perm_unique pdf.lessYX l1 l2 P); auto.
    now apply lessYX_strictWeak.
Qed.

End Determinism.

(** With two different runs at the same position the order of the input
    shows in the output of every layout mode: the insertion sort that
    [sort.Slice] runs on a slice this short leaves the tie as it finds
    it. *)
Lemma C9_ties_counterexample :
  Permutation tiedRuns (rev tiedRuns)
  /\ pdf.plainTextRows "" [gopdf.mkRow 700 tiedRuns] = Some "ab"
  /\ pdf.plainTextRows "" [gopdf.mkRow 700 (rev tiedRuns)] = Some "ba"
  /\ extract.rawRows "" (pdf.textRowsOf [gopdf.mkRow 700 tiedRuns]) = Some "ab"
  /\ extract.rawRows "" (pdf.textRowsOf [gopdf.mkRow 700 (rev tiedRuns)]) = Some "ba"
  /\ pdf.physicalLayout tiedStyledTexts 612 = Some " b"
  /\ pdf.physicalLayout (rev tiedStyledTexts) 612 = Some " a"
  /\ pdf.plainTextRows "" [gopdf.mkRow 700 tiedRuns]
     <> pdf.plainTextRows "" [gopdf.mkRow 700 (rev tiedRuns)].
Proof.
  split; [apply Permutation_rev|].
  repeat split; try (vm_compute; reflexivity).
  vm_compute. discriminate.
Qed.

Lemma distinctRuns_keys : distinctKeys gopdf.X distinctRuns.
Proof.
  split.
  - intros a [<- | [<- | []]]; unfold isNumber; vm_compute; discriminate.
  - intros a b [<- | [<- | []]] [<- | [<- | []]]; vm_compute; auto.
Qed.

(** The amended claim at work on a row given in both orders. *)
Lemma C9_determinism_witness :
  pdf.plainTextRows "" [gopdf.mkRow 700 distinctRuns]
  = pdf.plainTextRows "" [gopdf.mkRow 700 (rev distinctRuns)].
Proof.
  apply (proj1 (@C9_determinism_without_ties insertionRuntime)).
  - constructor; [apply Permutation_rev | constructor].
  - constructor; [apply distinctRuns_keys | constructor].
Defined.

(** ** Rounding: what is needed of binary64 arithmetic *)

Lemma binary_round_aux_sign (sx : bool) (mx ex : Z) (lx : location) :
  match binary_round_aux prec emax sx mx ex lx with
  | S754_zero s | S754_infinity s | S754_finite s _ _ => s = sx
  | S754_nan => True
  end.
Proof.
  unfold binary_round_aux.
  destruct (shr_fexp prec emax mx ex lx) as [mrs' e'].
  destruct (shr_fexp prec emax _ e' loc_Exact) as [mrs'' e''].
  destruct (shr_m mrs''); auto.
  destruct (Z.leb e'' (emax - prec)); reflexivity.
Qed.

Lemma binary_round_sign (sx : bool) (mx : positive) (ex : Z) :
  match binary_round prec emax sx mx ex with
  | S754_zero s | S754_infinity s | S754_finite s _ _ => s = sx
  | S754_nan => True
  end.
Proof.
  unfold binary_round. destruct (shl_align mx ex _) as [mz ez].
  apply binary_round_aux_sign.
Qed.

Lemma SFltb_notNegative_notPositive (x y : spec_float) :
  notNegativeSF x -> notPositiveSF y -> SFltb x y = false.
Proof.
  destruct x as [sx|sx| |sx mx ex], y as [sy|sy| |sy my ey];
    try destruct sx; try destruct sy; cbn; intros Hx Hy;
    try contradiction; reflexivity.
Qed.

(** [x - x] is a zero, or a NaN. *)
Lemma SFsub_diag (x : spec_float) : notPositiveSF (SF64sub x x).
Proof.
  destruct x as [s|s| |s m e]; try (destruct s; exact I); [exact I|].
  unfold SF64sub, SFsub. rewrite Z.min_id.
  unfold shl_align. rewrite Z.sub_diag. cbn [fst].
  exact I.
Qed.

(** A positive value times a positive number is not negative. *)
Lemma SFmul_positive (x : spec_float) (my : positive) (ey : Z) :
  SFltb (S754_zero false) x = true ->
  notNegativeSF (SF64mul x (S754_finite false my ey)).
Proof.
  destruct x as [s|s| |s m e]; try destruct s; cbn; try discriminate; intros _;
    try exact I.
  pose proof (binary_round_aux_sign false (Z.pos (m * my)) (e + ey) loc_Exact) as H.
  change (xorb false false) with false.
  destruct (binary_round_aux prec emax false (Z.pos (m * my)) (e + ey) loc_Exact)
    as [s|s| |s m' e']; try exact I; subst s; exact I.
Qed.

(** With a positive width, half the width is not below a gap [c - c]. *)
Lemma f64_half_width_vs_zero_gap (w c : float) :
  (0 <? w)%float = true -> (w * 0.5 <? c - c)%float = false.
Proof.
  intros Hw. rewrite FloatAxioms.ltb_spec in Hw.
  rewrite FloatAxioms.ltb_spec, FloatAxioms.mul_spec, FloatAxioms.sub_spec.
  apply SFltb_notNegative_notPositive.
  - change (Prim2SF 0.5) with (S754_finite false 4503599627370496 (-53)).
    apply SFmul_positive. exact Hw.
  - apply SFsub_diag.
Qed.

(** ** Rounding in the normal range *)

Lemma digits2_pos_bounds (p : positive) :
  (2 ^ (Z.pos (digits2_pos p) - 1) <= Z.pos p < 2 ^ Z.pos (digits2_pos p))%Z.
Proof.
  induction p as [p IH | p IH |]; cbn [digits2_pos].
  - rewrite Pos2Z.inj_succ.
    replace (Z.succ (Z.pos (digits2_pos p)) - 1)%Z
      with (Z.succ (Z.pos (digits2_pos p) - 1)) by lia.
    rewrite !Z.pow_succ_r by lia. lia.
  - rewrite Pos2Z.inj_succ.
    replace (Z.succ (Z.pos (digits2_pos p)) - 1)%Z
      with (Z.succ (Z.pos (digits2_pos p) - 1)) by lia.
    rewrite !Z.pow_succ_r by lia. lia.
  - cbn. lia.
Qed.

Lemma digits2_pos_unique (p : positive) (k : Z) :
  (2 ^ (k - 1) <= Z.pos p < 2 ^ k)%Z -> Z.pos (digits2_pos p) = k.
Proof.
  intros [Hlo Hhi]. pose proof (digits2_pos_bounds p) as [Dlo Dhi].
  set (d := Z.pos (digits2_pos p)) in *.
  assert (Hk : (0 < k)%Z).
  { destruct (Z.lt_ge_cases 0 k); [assumption|].
    assert (2 ^ k <= 1)%Z.
    { destruct (Z.eq_dec k 0) as [-> | ?]; [cbn; lia|].
      rewrite Z.pow_neg_r by lia. lia. }
    lia. }
  destruct (Z.lt_trichotomy d k) as [L | [E | G]]; [|exact E|].
  - assert (2 ^ d <= 2 ^ (k - 1))%Z by (apply Z.pow_le_mono_r; lia). lia.
  - assert (2 ^ k <= 2 ^ (d - 1))%Z by (apply Z.pow_le_mono_r; lia). lia.
Qed.

Lemma pos_iter_xO_value (m d : positive) :
  Z.pos (Pos.iter xO m d) = (Z.pos m * 2 ^ Z.pos d)%Z.
Proof.
  change (Pos.iter xO m d) with (Zpower.shift_pos d m).
  rewrite Zpower.shift_pos_correct. change (Z.pow_pos 2 d) with (2 ^ Z.pos d)%Z. lia.
Qed.

(** Aligning a mantissa to a smaller exponent multiplies it by a power
    of two. *)
Lemma shl_align_value (m : positive) (e e' : Z) :
  (e' <= e)%Z ->
  Z.pos (fst (shl_align m e e')) = (Z.pos m * 2 ^ (e - e'))%Z
  /\ snd (shl_align m e e') = e'.
Proof.
  intros H. unfold shl_align.
  destruct (e' - e)%Z as [|q|q] eqn:E; cbn [fst snd].
  - replace (e - e')%Z with 0%Z by lia. split; lia.
  - lia.
  - rewrite pos_iter_xO_value. replace (e - e')%Z with (Z.pos q) by lia. auto.
Qed.

Lemma fexp_normal (k : Z) :
  (-1074 <= k - 53)%Z -> fexp prec emax k = (k - 53)%Z.
Proof. unfold fexp, SpecFloat.emin, prec, emax. lia. Qed.

(** A mantissa of exactly 53 digits in the normal range is kept as it
    is. *)
Lemma binary_round_aux_exact (sx : bool) (m : positive) (e : Z) :
  Z.pos (digits2_pos m) = 53%Z -> (-1074 <= e)%Z ->
  binary_round_aux prec emax sx (Z.pos m) e loc_Exact
  = if (e <=? 971)%Z then S754_finite sx m e else S754_infinity sx.
Proof.
  intros Hd He. unfold binary_round_aux.
  assert (S : shr_fexp prec emax (Z.pos m) e loc_Exact
              = ({| shr_m := Z.pos m; shr_r := false; shr_s := false |}, e)).
  { unfold shr_fexp. cbn [Zdigits2]. rewrite Hd, fexp_normal by lia.
    replace (53 + e - 53 - e)%Z with 0%Z by lia. reflexivity. }
  rewrite S. cbn [shr_m loc_of_shr_record round_nearest_even]. rewrite S.
  cbn [shr_m]. reflexivity.
Qed.

(** Rounding a mantissa of at most 53 digits, in the normal range, is
    exact: the mantissa is shifted up to 53 digits. *)
Lemma binary_round_exact (sx : bool) (p : positive) (ez : Z) :
  (Z.pos (digits2_pos p) <= 53)%Z ->
  (-1074 <= Z.pos (digits2_pos p) + ez - 53)%Z ->
  exists m1,
    Z.pos m1 = (Z.pos p * 2 ^ (53 - Z.pos (digits2_pos p)))%Z
    /\ binary_round prec emax sx p ez
       = if (Z.pos (digits2_pos p) + ez - 53 <=? 971)%Z
         then S754_finite sx m1 (Z.pos (digits2_pos p) + ez - 53)
         else S754_infinity sx.
Proof.
  intros Hd Ht. set (d := Z.pos (digits2_pos p)) in *.
  unfold binary_round. fold d. rewrite fexp_normal by lia.
  destruct (shl_align_value p ez (d + ez - 53)) as [V E]; [lia|].
  destruct (shl_align p ez (d + ez - 53)) as [mz ez'] eqn:A. cbn [fst snd] in V, E.
  subst ez'. replace (ez - (d + ez - 53))%Z with (53 - d)%Z in V by lia.
  exists mz. split; [exact V|].
  apply binary_round_aux_exact; [|lia].
  apply digits2_pos_unique. rewrite V.
  pose proof (digits2_pos_bounds p) as [Lo Hi]. fold d in Lo, Hi.
  assert (P : (0 < 2 ^ (53 - d))%Z) by (apply Z.pow_pos_nonneg; lia).
  replace (2 ^ (53 - 1))%Z with (2 ^ (d - 1) * 2 ^ (53 - d))%Z
    by (rewrite <- Z.pow_add_r by lia; f_equal; lia).
  replace (2 ^ 53)%Z with (2 ^ d * 2 ^ (53 - d))%Z
    by (rewrite <- Z.pow_add_r by lia; f_equal; lia).
  split; nia.
Qed.

Lemma shr_1_digits (mrs : shr_record) :
  (0 <= shr_m mrs)%Z ->
  Zdigits2 (shr_m (shr_1 mrs)) = Z.max 0 (Zdigits2 (shr_m mrs) - 1)
  /\ (0 <= shr_m (shr_1 mrs))%Z.
Proof.
  destruct mrs as [m r s]. cbn [shr_m]. intros H.
  destruct m as [|p|p]; [| |lia].
  - cbn. split; lia.
  - destruct p as [p|p|]; cbn [shr_1 shr_m Zdigits2 digits2_pos];
      rewrite ?Pos2Z.inj_succ; split; lia.
Qed.

Lemma shr_iter_digits (n : positive) :
  forall mrs,
    (0 <= shr_m mrs)%Z ->
    Zdigits2 (shr_m (iter_pos shr_1 n mrs))
    = Z.max 0 (Zdigits2 (shr_m mrs) - Z.pos n)
    /\ (0 <= shr_m (iter_pos shr_1 n mrs))%Z.
Proof.
  induction n as [n IH | n IH |]; intros mrs H; cbn [iter_pos].
  - destruct (shr_1_digits mrs H) as [D1 P1].
    destruct (IH _ P1) as [D2 P2]. destruct (IH _ P2) as [D3 P3].
    split; [|exact P3]. rewrite D3, D2, D1. lia.
  - destruct (IH _ H) as [D2 P2]. destruct (IH _ P2) as [D3 P3].
    split; [|exact P3]. rewrite D3, D2. lia.
  - apply shr_1_digits, H.
Qed.

Lemma Zdigits2_positive (z : Z) :
  (0 <= z)%Z -> (0 < Zdigits2 z)%Z -> exists p, z = Z.pos p.
Proof. destruct z as [|p|p]; cbn; intros; [lia | eauto | lia]. Qed.

(** Rounding a mantissa of more than 53 digits, in the normal range: the
    result keeps the sign and its exponent is at least that of the 53
    leading digits. *)
Lemma binary_round_big (sx : bool) (p : positive) (ez : Z) :
  (53 < Z.pos (digits2_pos p))%Z ->
  (-1074 <= Z.pos (digits2_pos p) + ez - 53)%Z ->
  exists m2 e2,
    (Z.pos (digits2_pos p) + ez - 53 <= e2)%Z
    /\ binary_round prec emax sx p ez
       = if (e2 <=? 971)%Z then S754_finite sx m2 e2 else S754_infinity sx.
Proof.
  intros Hd Ht. set (d := Z.pos (digits2_pos p)) in *.
  unfold binary_round. fold d. rewrite fexp_normal by lia.
  assert (A : shl_align p ez (d + ez - 53) = (p, ez)).
  { unfold shl_align. destruct (d + ez - 53 - ez)%Z eqn:E; try reflexivity. lia. }
  rewrite A. unfold binary_round_aux, shr_fexp at 1. cbn [Zdigits2]. fold d.
  rewrite fexp_normal by lia. cbn [shr_record_of_loc].
  destruct (d + ez - 53 - ez)%Z as [|n|n] eqn:En; try lia.
  cbn [shr].
  set (mrs' := iter_pos shr_1 n {| shr_m := Z.pos p; shr_r := false; shr_s := false |}).
  destruct (shr_iter_digits n {| shr_m := Z.pos p; shr_r := false; shr_s := false |})
    as [D P]; [cbn; lia|].
  fold mrs' in D, P. cbn [shr_m Zdigits2] in D. fold d in D.
  replace (Z.max 0 (d - Z.pos n)) with 53%Z in D by lia.
  destruct (Zdigits2_positive _ P) as (q & Hq); [lia|].
  rewrite Hq in D. cbn [Zdigits2] in D.
  pose proof (digits2_pos_bounds q) as [Qlo Qhi]. rewrite D in Qlo, Qhi.
  set (m2 := round_nearest_even (shr_m mrs') (loc_of_shr_record mrs')).
  assert (M2 : m2 = Z.pos q \/ m2 = (Z.pos q + 1)%Z).
  { unfold m2. rewrite Hq. destruct (loc_of_shr_record mrs') as [|[| |]];
      cbn [round_nearest_even]; auto. destruct (Z.even (Z.pos q)); auto. }
  assert (M2p : exists q2, m2 = Z.pos q2
                           /\ (2 ^ 52 <= Z.pos q2 <= 2 ^ 53)%Z).
  { destruct M2 as [-> | ->].
    - exists q. split; [reflexivity|]. change (53 - 1)%Z with 52%Z in Qlo. lia.
    - exists (q + 1)%positive. split; [lia|].
      change (53 - 1)%Z with 52%Z in Qlo. lia. }
  destruct M2p as (q2 & -> & Q2lo & Q2hi).
  unfold shr_fexp. cbn [Zdigits2 shr_record_of_loc].
  pose proof (digits2_pos_bounds q2) as [Dlo Dhi].
  set (d2 := Z.pos (digits2_pos q2)) in *.
  assert (D2 : d2 = 53%Z \/ d2 = 54%Z).
  { destruct (Z.lt_trichotomy d2 53) as [L | [E | G]]; auto.
    - assert (2 ^ d2 <= 2 ^ 52)%Z by (apply Z.pow_le_mono_r; lia). lia.
    - destruct (Z.eq_dec d2 54); auto.
      assert (2 ^ 54 <= 2 ^ (d2 - 1))%Z by (apply Z.pow_le_mono_r; lia).
      assert (2 ^ 53 < 2 ^ 54)%Z by (apply Z.pow_lt_mono_r; lia). lia. }
  replace (ez + Z.pos n)%Z with (d + ez - 53)%Z by lia.
  rewrite fexp_normal by lia.
  destruct D2 as [E2 | E2]; rewrite E2.
  - replace (53 + (d + ez - 53) - 53 - (d + ez - 53))%Z with 0%Z by lia.
    cbn [shr shr_m]. exists q2, (d + ez - 53)%Z. split; [lia | reflexivity].
  - replace (54 + (d + ez - 53) - 53 - (d + ez - 53))%Z with 1%Z by lia.
    cbn [shr iter_pos].
    destruct (shr_1_digits {| shr_m := Z.pos q2; shr_r := false; shr_s := false |})
      as [D1 P1]; [cbn; lia|].
    cbn [shr_m Zdigits2] in D1. fold d2 in D1. rewrite E2 in D1.
    destruct (Zdigits2_positive _ P1) as (q3 & Hq3); [rewrite D1; lia|].
    rewrite Hq3. exists q3, (d + ez - 53 + 1)%Z. split; [lia | reflexivity].
Qed.

(** A rounded positive value of magnitude 2 or more is above 1. *)
Lemma SFltb_one_binary_round (p : positive) (ez : Z) :
  (2 <= Z.pos (digits2_pos p) + ez)%Z ->
  SFltb (S754_finite false 4503599627370496 (-52)) (binary_round prec emax false p ez)
  = true.
Proof.
  intros H.
  assert (K : forall m e, (-52 < e)%Z ->
                          SFltb (S754_finite false 4503599627370496 (-52))
                                (if (e <=? 971)%Z then S754_finite false m e
                                 else S754_infinity false) = true).
  { intros m e He. destruct (e <=? 971)%Z; [|reflexivity].
    unfold SFltb, SFcompare. destruct (Z.compare_spec (-52) e); first [lia | reflexivity]. }
  destruct (Z.le_gt_cases (Z.pos (digits2_pos p)) 53) as [Hd | Hd].
  - destruct (binary_round_exact false p ez Hd) as (m1 & _ & ->); [lia|].
    apply K. lia.
  - destruct (binary_round_big false p ez) as (m2 & e2 & He & ->); [lia | lia|].
    apply K. lia.
Qed.

(** ** C2: the threshold of the conservative policy *)

Lemma SFltb_one_negative_round (q : positive) (e : Z) :
  SFltb sfOne (binary_round prec emax true q e) = false.
Proof.
  pose proof (binary_round_sign true q e) as H.
  destruct (binary_round prec emax true q e) as [s|s| |s m' e'];
    try subst s; reflexivity.
Qed.

Lemma valid_finite_bounds (s : bool) (m : positive) (e : Z) :
  valid_binary (S754_finite s m e) = true ->
  (-1074 <= e <= 971)%Z /\ (Z.pos m < 2 ^ 53)%Z
  /\ (e <> -1074 -> 2 ^ 52 <= Z.pos m)%Z.
Proof.
  cbn [SpecFloat.valid_binary]. unfold bounded, canonical_mantissa.
  rewrite andb_true_iff, Z.eqb_eq, Z.leb_le.
  unfold fexp, SpecFloat.emin, prec, emax. intros [C B].
  pose proof (digits2_pos_bounds m) as [Lo Hi].
  set (d := Z.pos (digits2_pos m)) in *.
  assert (D : (d <= 53)%Z) by lia.
  repeat split; try lia.
  - assert (2 ^ d <= 2 ^ 53)%Z by (apply Z.pow_le_mono_r; lia). lia.
  - intros Ne. assert (d = 53%Z) by lia. subst d.
    replace (Z.pos (digits2_pos m) - 1)%Z with 52%Z in Lo by lia. exact Lo.
Qed.

(** On binary64 values, [x - 10 > 1] exactly when [x > 11]. *)
Lemma SF_gap_above_one (x : spec_float) :
  valid_binary x = true ->
  SFltb sfOne (SF64sub x sfTen) = SFltb sfEleven x.
Proof.
  destruct x as [s|s| |s m e];
    [destruct s; reflexivity | destruct s; reflexivity | reflexivity |].
  intros V. destruct (valid_finite_bounds s m e V) as ((Elo & Ehi) & Mhi & Mlo).
  clear V.
  assert (P53 : (2 ^ 53 = 9007199254740992)%Z) by reflexivity.
  assert (P52 : (2 ^ 52 = 4503599627370496)%Z) by reflexivity.
  rewrite P53 in Mhi. rewrite P52 in Mlo.
  unfold SF64sub, sfTen, SFsub.
  destruct (Z.lt_trichotomy e (-49)) as [L | [E | G]].
  - (* below 8: the difference is negative *)
    rewrite Z.min_l by lia.
    destruct (shl_align_value m e e) as [A _]; [lia|].
    destruct (shl_align_value 5629499534213120 (-49) e) as [B _]; [lia|].
    rewrite Z.sub_diag, Z.mul_1_r in A. rewrite A, B.
    assert (K : (2 <= 2 ^ (-49 - e))%Z).
    { change 2%Z with (2 ^ 1)%Z at 1. apply Z.pow_le_mono_r; lia. }
    assert (R : SFltb sfEleven (S754_finite s m e) = false).
    { destruct s; [reflexivity|]. unfold SFltb, sfEleven, SFcompare.
      destruct (Z.compare_spec (-49) e); first [reflexivity | lia]. }
    rewrite R. clear R.
    destruct (cond_Zopp s (Z.pos m)
              - cond_Zopp false (Z.pos 5629499534213120 * 2 ^ (-49 - e)))%Z
      as [|q|q] eqn:D; cbn [binary_normalize].
    + destruct s; cbn [cond_Zopp] in D; lia.
    + destruct s; cbn [cond_Zopp] in D; lia.
    + apply SFltb_one_negative_round.
  - (* from 8 up to 16: the difference is exact *)
    subst e. change (Z.min (-49) (-49)) with (-49)%Z.
    change (fst (shl_align m (-49) (-49))) with m.
    change (fst (shl_align 5629499534213120 (-49) (-49))) with 5629499534213120%positive.
    specialize (Mlo ltac:(lia)).
    destruct s; cbn [cond_Zopp].
    + change (SFltb sfEleven (S754_finite true m (-49))) with false.
      destruct (- Z.pos m - 5629499534213120)%Z as [|q|q] eqn:D;
        cbn [binary_normalize]; try lia.
      apply SFltb_one_negative_round.
    + assert (R : SFltb sfEleven (S754_finite false m (-49))
                  = match (6192449487634432 ?= m)%positive with
                    | Lt => true
                    | _ => false
                    end) by reflexivity.
      rewrite R. clear R.
      destruct (Z.pos m - 5629499534213120)%Z as [|q|q] eqn:D;
        cbn [binary_normalize].
      * destruct (Pos.compare_spec 6192449487634432 m); first [reflexivity | lia].
      * assert (R2 : match (6192449487634432 ?= m)%positive with
                     | Lt => true
                     | _ => false
                     end
                     = match (562949953421312 ?= Z.pos q)%Z with
                       | Lt => true
                       | _ => false
                       end).
        { rewrite Pos2Z.inj_compare.
          replace (Z.pos m) with (5629499534213120 + Z.pos q)%Z by lia.
          change (Z.pos 6192449487634432)
            with (5629499534213120 + 562949953421312)%Z.
          now rewrite Z.add_compare_mono_l. }
        rewrite R2. clear R2.
        pose proof (digits2_pos_bounds q) as [Qlo Qhi].
        assert (Q52 : (Z.pos q < 2 ^ 52)%Z) by (rewrite P52; lia).
        assert (Dq : (Z.pos (digits2_pos q) <= 52)%Z).
        { destruct (Z.le_gt_cases (Z.pos (digits2_pos q)) 52); [assumption|].
          assert (2 ^ 52 <= 2 ^ (Z.pos (digits2_pos q) - 1))%Z
            by (apply Z.pow_le_mono_r; lia).
          lia. }
        destruct (binary_round_exact false q (-49)) as (m1 & V1 & ->); [lia | lia|].
        set (dq := Z.pos (digits2_pos q)) in *.
        destruct (Z.leb_spec (dq + -49 - 53) 971); [|lia].
        unfold SFltb, sfOne, SFcompare.
        clear D Mhi Mlo Q52.
        destruct (Z.compare_spec (-52) (dq + -49 - 53)) as [Ce | Cl | Cg].
        -- assert (E50 : dq = 50%Z) by lia.
           rewrite E50 in V1. change (2 ^ (53 - 50))%Z with 8%Z in V1.
           change (Pos.compare_cont Eq 4503599627370496 m1)
             with (4503599627370496 ?= m1)%positive.
           rewrite Pos2Z.inj_compare, V1.
           change (Z.pos 4503599627370496) with (562949953421312 * 8)%Z.
           now rewrite <- Zmult_compare_compat_r by lia.
        -- assert (L50 : (2 ^ 50 <= 2 ^ (dq - 1))%Z) by (apply Z.pow_le_mono_r; lia).
           change (2 ^ 50)%Z with 1125899906842624%Z in L50.
           destruct (Z.compare_spec 562949953421312 (Z.pos q));
             first [reflexivity | lia].
        -- assert (L49 : (2 ^ dq <= 2 ^ 49)%Z) by (apply Z.pow_le_mono_r; lia).
           change (2 ^ 49)%Z with 562949953421312%Z in L49.
           destruct (Z.compare_spec 562949953421312 (Z.pos q));
             first [reflexivity | lia].
      * rewrite SFltb_one_negative_round.
        destruct (Pos.compare_spec 6192449487634432 m); first [reflexivity | lia].
  - (* from 16 on: the difference is 6 or more *)
    rewrite Z.min_r by lia.
    destruct (shl_align_value m e (-49)) as [A _]; [lia|].
    change (fst (shl_align 5629499534213120 (-49) (-49))) with 5629499534213120%positive.
    rewrite A. specialize (Mlo ltac:(lia)).
    assert (K : (2 <= 2 ^ (e - -49))%Z).
    { change 2%Z with (2 ^ 1)%Z at 1. apply Z.pow_le_mono_r; lia. }
    destruct s; cbn [cond_Zopp].
    + change (SFltb sfEleven (S754_finite true m e)) with false.
      destruct (- (Z.pos m * 2 ^ (e - -49)) - 5629499534213120)%Z as [|q|q] eqn:D;
        cbn [binary_normalize]; try nia.
      apply SFltb_one_negative_round.
    + assert (R : SFltb sfEleven (S754_finite false m e) = true).
      { unfold SFltb, sfEleven, SFcompare.
        destruct (Z.compare_spec (-49) e); first [reflexivity | lia]. }
      rewrite R. clear R.
      destruct (Z.pos m * 2 ^ (e - -49) - 5629499534213120)%Z as [|q|q] eqn:D;
        cbn [binary_normalize]; try nia.
      apply SFltb_one_binary_round.
      pose proof (digits2_pos_bounds q) as [Qlo Qhi].
      destruct (Z.le_gt_cases 52 (Z.pos (digits2_pos q))); [lia|].
      assert (2 ^ Z.pos (digits2_pos q) <= 2 ^ 51)%Z by (apply Z.pow_le_mono_r; lia).
      assert (P51 : (2 ^ 51 = 2251799813685248)%Z) by reflexivity.
      nia.
Qed.

Lemma f64_gap_above_one (c : float) : (1 <? c - 10)%float = (11 <? c)%float.
Proof.
  rewrite !FloatAxioms.ltb_spec, FloatAxioms.sub_spec.
  change (Prim2SF 1) with sfOne. change (Prim2SF 10) with sfTen.
  change (Prim2SF 11) with sfEleven.
  apply SF_gap_above_one, Prim2SF_valid.
Qed.

(** C2. In the second loop of the conservative policy run with
    [minCharWidth = 2.0], for [prev] at [x = 0] with a text of 5 bytes, a
    space is written before [curr.text] iff [curr.x > 11.0], for every
    binary64 [curr.x]; at [curr.x = 11.0] none is written: the comparison
    [gap > minCharWidth * 0.5] is strict. *)
Theorem C2_conservative_threshold (buf : string) (prev curr : gopdf.Text) :
  gopdf.X prev = 0%float ->
  String.length (gopdf.S prev) = 5%nat ->
  pdf.joinLoop 2 buf prev [curr]
  = buf ++ (if (11 <? gopdf.X curr)%float then " " else "") ++ gopdf.S curr
  /\ (gopdf.X curr = 11%float ->
      pdf.joinLoop 2 buf prev [curr] = buf ++ gopdf.S curr).
Proof.
  intros Hx Hlen.
  assert (E : pdf.joinLoop 2 buf prev [curr]
              = buf ++ (if (11 <? gopdf.X curr)%float then " " else "")
                ++ gopdf.S curr).
  { cbn [pdf.joinLoop]. unfold pdf.joinStep, len. rewrite Hx, Hlen.
    change (0 + float64_of_int (Z.of_nat 5) * 2)%float with 10%float.
    change (2 * 0.5)%float with 1%float.
    now rewrite f64_gap_above_one. }
  split; [exact E|].
  intros H11. rewrite E, H11. reflexivity.
Qed.

(** The threshold on whole rows whose estimate is 2 (from the pair "a",
    "b"): with "a" at 11 nothing is written between "Hello" and "a"; with
    "a" at the next binary64 value above 11 a space is. *)
Lemma C2_conservative_threshold_witness :
  pdf.joinLoop 2 "Hello" (gopdf.mkText "Hello" 0 700 "F1" 10)
               [gopdf.mkText "a" 11 700 "F1" 10] = "Helloa"
  /\ pdf.plainTextRows ""
       [gopdf.mkRow 700 [gopdf.mkText "Hello" 0 700 "F1" 10;
                         gopdf.mkText "a" 11 700 "F1" 10;
                         gopdf.mkText "b" 13 700 "F1" 10]]
     = Some "Helloab"
  /\ pdf.plainTextRows ""
       [gopdf.mkRow 700 [gopdf.mkText "Hello" 0 700 "F1" 10;
                         gopdf.mkText "a" 0x1.6000000000001p+3 700 "F1" 10;
                         gopdf.mkText "b" 0x1.a000000000001p+3 700 "F1" 10]]
     = Some "Hello ab".
Proof.
  split.
  - exact (proj2 (C2_conservative_threshold "Hello"
                    (gopdf.mkText "Hello" 0 700 "F1" 10)
                    (gopdf.mkText "a" 11 700 "F1" 10) eq_refl eq_refl) eq_refl).
  - split; vm_compute; reflexivity.
Defined.

(** ** Rounding errors of the binary64 operations *)

Lemma iter_pos_nat {A} (f : A -> A) (p : positive) (x : A) :
  iter_pos f p x = Nat.iter (Pos.to_nat p) f x.
Proof.
  revert x. induction p as [p IH | p IH |]; intros x; cbn [iter_pos].
  - rewrite !IH. replace (Pos.to_nat p~1) with (Pos.to_nat p + S (Pos.to_nat p))%nat by lia.
    rewrite Nat.iter_add, Nat.iter_succ_r. reflexivity.
  - rewrite !IH. replace (Pos.to_nat p~0) with (Pos.to_nat p + Pos.to_nat p)%nat by lia.
    now rewrite Nat.iter_add.
  - reflexivity.
Qed.

Lemma shr_1_m (mrs : shr_record) :
  (0 <= shr_m mrs)%Z ->
  shr_m (shr_1 mrs) = (shr_m mrs / 2)%Z
  /\ shr_r (shr_1 mrs) = Z.odd (shr_m mrs)
  /\ shr_s (shr_1 mrs) = (shr_r mrs || shr_s mrs)%bool.
Proof.
  destruct mrs as [m r s]. cbn [shr_m shr_r shr_s]. intros H.
  destruct m as [|p|p]; [| |lia].
  - cbn. auto.
  - destruct p as [p|p|]; cbn [shr_1 shr_m shr_r shr_s Z.odd].
    + repeat split. rewrite Pos2Z.inj_xI.
      apply (Z.div_unique _ 2 _ 1); lia.
    + repeat split. rewrite Pos2Z.inj_xO.
      apply (Z.div_unique _ 2 _ 0); lia.
    + repeat split.
Qed.

(** After [k] shifts the mantissa is the quotient by [2^k]; from an exact
    start, the round bit is the last bit shifted out and the sticky bit
    tells whether anything below it was set. *)
Lemma shr_iter (M : Z) (r0 s0 : bool) (k : nat) :
  (0 <= M)%Z ->
  let mrs := Nat.iter k shr_1 {| shr_m := M; shr_r := r0; shr_s := s0 |} in
  shr_m mrs = (M / 2 ^ Z.of_nat k)%Z
  /\ (r0 = false -> s0 = false -> (0 < k)%nat ->
      shr_r mrs = Z.odd (M / 2 ^ (Z.of_nat k - 1))
      /\ shr_s mrs = negb (M mod 2 ^ (Z.of_nat k - 1) =? 0)%Z).
Proof.
  intros HM. cbv zeta. induction k as [|k IH]; cbn [Nat.iter].
  - split; [cbn; now rewrite Z.div_1_r | lia].
  - destruct IH as [Hm Hrs].
    set (mrs := Nat.iter k shr_1 {| shr_m := M; shr_r := r0; shr_s := s0 |}) in *.
    assert (Hpos : (0 <= shr_m mrs)%Z).
    { rewrite Hm. apply Z.div_pos; [lia | apply Z.pow_pos_nonneg; lia]. }
    destruct (shr_1_m mrs Hpos) as (E1 & E2 & E3).
    assert (P : (0 < 2 ^ Z.of_nat k)%Z) by (apply Z.pow_pos_nonneg; lia).
    change (Nat.iter (S k) shr_1 {| shr_m := M; shr_r := r0; shr_s := s0 |})
      with (shr_1 mrs).
    split.
    + rewrite E1, Hm, Nat2Z.inj_succ, Z.pow_succ_r by lia.
      rewrite Z.div_div by lia. f_equal. lia.
    + intros -> -> _. replace (Z.of_nat (S k) - 1)%Z with (Z.of_nat k) by lia.
      split; [now rewrite E2, Hm|].
      rewrite E3. destruct k as [|k'].
      * cbn. now rewrite Z.mod_1_r.
      * destruct Hrs as [Hr Hs]; [reflexivity | reflexivity | lia|].
        rewrite Hr, Hs.
        replace (Z.of_nat (S k') - 1)%Z with (Z.of_nat k') by lia.
        set (j := Z.of_nat k').
        assert (Pj : (0 < 2 ^ j)%Z) by (apply Z.pow_pos_nonneg; lia).
        replace (Z.of_nat (S k')) with (j + 1)%Z by lia.
        rewrite Z.pow_add_r by lia. change (2 ^ 1)%Z with 2%Z.
        (* M = q * 2^j + l, q = 2 q' + b *)
        pose proof (Z.div_mod M (2 ^ j) ltac:(lia)) as DM.
        pose proof (Z.mod_pos_bound M (2 ^ j) Pj) as BM.
        set (q := (M / 2 ^ j)%Z) in *. set (l := (M mod 2 ^ j)%Z) in *.
        pose proof (Z.div_mod q 2 ltac:(lia)) as Dq.
        pose proof (Z.mod_pos_bound q 2 ltac:(lia)) as Bq.
        assert (Em : (M mod (2 ^ j * 2) = (q mod 2) * 2 ^ j + l)%Z).
        { symmetry. apply (Z.mod_unique _ _ (q / 2)); [nia | nia]. }
        rewrite Em, Zmod_odd.
        destruct (Z.odd q); destruct (Z.eqb_spec l 0) as [Hl | Hl]; cbn [negb orb];
          symmetry; try (apply negb_true_iff; apply Z.eqb_neq; nia);
          apply negb_false_iff; apply Z.eqb_eq; nia.
Qed.

Lemma Zdigits2_bounds (z : Z) :
  (0 <= z)%Z ->
  (z < 2 ^ Zdigits2 z)%Z /\ (0 < z -> 2 ^ (Zdigits2 z - 1) <= z)%Z.
Proof.
  destruct z as [|p|p]; cbn [Zdigits2]; intros H; [cbn; lia | | lia].
  pose proof (digits2_pos_bounds p). lia.
Qed.

Lemma shr_record_of_loc_m (m : Z) (l : location) :
  shr_m (shr_record_of_loc m l) = m.
Proof. destruct l as [|[| |]]; reflexivity. Qed.

Lemma loc_of_shr_record_of_loc (m : Z) (l : location) :
  loc_of_shr_record (shr_record_of_loc m l) = l.
Proof. destruct l as [|[| |]]; reflexivity. Qed.

Lemma round_nearest_even_cases (m : Z) (l : location) :
  round_nearest_even m l = m \/ round_nearest_even m l = (m + 1)%Z.
Proof.
  destruct l as [|[| |]]; cbn [round_nearest_even]; auto.
  destruct (Z.even m); auto.
Qed.

(** The last step of [binary_round_aux]: a rounded mantissa of at most
    [2^53] is kept, or halved when it is [2^53]. *)
Lemma shr_fexp_carry (sx : bool) (m1 e' : Z) :
  (0 <= m1 <= 2 ^ 53)%Z -> (-1074 <= e')%Z ->
  (let '(mrs'', e'') := shr_fexp prec emax m1 e' loc_Exact in
   match shr_m mrs'' with
   | Z0 => S754_zero sx
   | Zpos m => if (e'' <=? emax - prec)%Z then S754_finite sx m e''
               else S754_infinity sx
   | Zneg _ => S754_nan
   end) = roundedSF sx m1 e'.
Proof.
  intros [Lo Hi] He. unfold shr_fexp. cbn [shr_record_of_loc].
  destruct (Z.eq_dec m1 (2 ^ 53)) as [-> | Ne].
  - change (Zdigits2 (2 ^ 53)) with 54%Z.
    replace (fexp prec emax (54 + e') - e')%Z with 1%Z
      by (unfold fexp, SpecFloat.emin, prec, emax; lia).
    reflexivity.
  - destruct m1 as [|p|p]; [| |lia].
    + cbn [Zdigits2].
      destruct (fexp prec emax (0 + e') - e')%Z as [|q|q] eqn:E; try reflexivity.
      unfold fexp, SpecFloat.emin, prec, emax in E. lia.
    + cbn [Zdigits2]. pose proof (digits2_pos_bounds p) as [Dlo Dhi].
      set (d := Z.pos (digits2_pos p)) in *.
      assert (D : (d <= 53)%Z).
      { destruct (Z.le_gt_cases d 53) as [L | G]; [exact L|].
        assert (2 ^ 53 <= 2 ^ (d - 1))%Z by (apply Z.pow_le_mono_r; lia). lia. }
      destruct (fexp prec emax (d + e') - e')%Z as [|q|q] eqn:E.
      * cbn [shr shr_m roundedSF].
        replace (Z.pos p <? 2 ^ 53)%Z with true by (symmetry; apply Z.ltb_lt; lia).
        reflexivity.
      * unfold fexp, SpecFloat.emin, prec, emax in E. lia.
      * cbn [shr shr_m roundedSF].
        replace (Z.pos p <? 2 ^ 53)%Z with true by (symmetry; apply Z.ltb_lt; lia).
        reflexivity.
Qed.

(** What [binary_round_aux] returns: the mantissa is shifted right by
    [k] digits, down to 53 digits or to the smallest exponent, and
    rounded to [m1]; from an exact location the rounding is to nearest. *)
Lemma binary_round_aux_spec (sx : bool) (mx ex : Z) (lx : location) :
  (0 <= mx)%Z ->
  let k := Z.max 0 (fexp prec emax (Zdigits2 mx + ex) - ex) in
  exists m1,
    (m1 = mx / 2 ^ k \/ m1 = mx / 2 ^ k + 1)%Z
    /\ (0 <= mx / 2 ^ k < 2 ^ 53)%Z
    /\ (-1074 <= ex + k)%Z
    /\ (k = 0%Z -> lx = loc_Exact -> m1 = mx)
    /\ (0 < k -> lx = loc_Exact ->
        2 ^ k * (2 * m1 - 1) <= 2 * mx <= 2 ^ k * (2 * m1 + 1))%Z
    /\ (0 < k -> ex + k = -1074 \/ 2 ^ 52 <= mx / 2 ^ k)%Z
    /\ binary_round_aux prec emax sx mx ex lx = roundedSF sx m1 (ex + k)%Z.
Proof.
  intros Hm k. destruct (Zdigits2_bounds mx Hm) as [Dhi Dlo].
  set (d := Zdigits2 mx) in *.
  assert (Dnn : (0 <= d)%Z) by (unfold d; destruct mx; cbn; lia).
  unfold binary_round_aux, shr_fexp at 1. fold d.
  assert (Fx : fexp prec emax (d + ex) = Z.max (d + ex - 53) (-1074))
    by (unfold fexp, SpecFloat.emin, prec, emax; lia).
  destruct (fexp prec emax (d + ex) - ex)%Z as [|n|n] eqn:K;
    cbn [shr]; subst k.
  - (* no shift *)
    rewrite shr_record_of_loc_m, loc_of_shr_record_of_loc.
    change (Z.max 0 0) with 0%Z. rewrite Z.add_0_r, Z.pow_0_r, Z.div_1_r.
    assert (B : (mx < 2 ^ 53)%Z).
    { assert (2 ^ d <= 2 ^ 53)%Z by (apply Z.pow_le_mono_r; lia). lia. }
    exists (round_nearest_even mx lx).
    pose proof (round_nearest_even_cases mx lx) as C.
    split; [exact C|]. split; [lia|]. split; [lia|].
    split; [intros _ ->; reflexivity|]. split; [lia|]. split; [lia|].
    apply shr_fexp_carry; lia.
  - (* shift by n *)
    replace (Z.max 0 (Z.pos n)) with (Z.pos n) by lia.
    rewrite iter_pos_nat.
    destruct (shr_iter mx (shr_r (shr_record_of_loc mx lx))
                (shr_s (shr_record_of_loc mx lx)) (Pos.to_nat n) Hm) as [Sm Srs].
    replace {| shr_m := mx; shr_r := shr_r (shr_record_of_loc mx lx);
               shr_s := shr_s (shr_record_of_loc mx lx) |}
      with (shr_record_of_loc mx lx) in Sm, Srs
      by (destruct lx as [|[| |]]; reflexivity).
    set (mrs' := Nat.iter (Pos.to_nat n) shr_1 (shr_record_of_loc mx lx)) in *.
    rewrite positive_nat_Z in Sm, Srs.
    assert (P : (0 < 2 ^ Z.pos n)%Z) by (apply Z.pow_pos_nonneg; lia).
    set (f := (mx / 2 ^ Z.pos n)%Z) in *.
    assert (F0 : (0 <= f)%Z) by (apply Z.div_pos; lia).
    assert (F1 : (f < 2 ^ 53)%Z).
    { apply Z.div_lt_upper_bound; [lia|].
      rewrite <- Z.pow_add_r by lia.
      assert (2 ^ d <= 2 ^ (Z.pos n + 53))%Z by (apply Z.pow_le_mono_r; lia). lia. }
    exists (round_nearest_even (shr_m mrs') (loc_of_shr_record mrs')).
    rewrite Sm.
    pose proof (round_nearest_even_cases f (loc_of_shr_record mrs')) as C.
    split; [exact C|]. split; [lia|]. split; [lia|]. split; [lia|].
    split; [|split].
    + intros _ ->. cbn [shr_record_of_loc shr_r shr_s] in Srs.
      destruct Srs as [Sr Ss]; [reflexivity | reflexivity | lia|].
      pose proof (Z.div_mod mx (2 ^ Z.pos n) ltac:(lia)) as DM.
      pose proof (Z.mod_pos_bound mx (2 ^ Z.pos n) P) as BM. fold f in DM.
      set (j := (Z.pos n - 1)%Z) in *.
      assert (Pj : (0 < 2 ^ j)%Z) by (apply Z.pow_pos_nonneg; lia).
      assert (E2 : (2 ^ Z.pos n = 2 * 2 ^ j)%Z).
      { replace (Z.pos n) with (Z.succ j) by lia. apply Z.pow_succ_r. lia. }
      pose proof (Z.div_mod mx (2 ^ j) ltac:(lia)) as DJ.
      pose proof (Z.mod_pos_bound mx (2 ^ j) Pj) as BJ.
      set (q := (mx / 2 ^ j)%Z) in *. set (l := (mx mod 2 ^ j)%Z) in *.
      assert (Q : (q = 2 * f + (if Z.odd q then 1 else 0))%Z).
      { assert (f = q / 2)%Z.
        { unfold f, q. rewrite E2, Z.mul_comm, <- Z.div_div by lia. reflexivity. }
        pose proof (Z.div_mod q 2 ltac:(lia)) as Dq. rewrite Zmod_odd in Dq. lia. }
      destruct mrs' as [m' r' s']. cbn [shr_m shr_r shr_s] in Sm, Sr, Ss.
      cbn [loc_of_shr_record]. subst r' s'.
      destruct (Z.odd q); destruct (Z.eqb_spec l 0) as [Hl | Hl];
        cbn [negb round_nearest_even]; try destruct (Z.even f); nia.
    + intros _. destruct (Z.eq_dec (ex + Z.pos n) (-1074)) as [? | Ne]; [auto | right].
      assert (Kn : (Z.pos n = d - 53)%Z) by lia.
      assert (M0 : (0 < mx)%Z).
      { destruct (Z.eq_dec mx 0) as [-> | ?]; [|lia]. cbn in d. lia. }
      specialize (Dlo M0). apply Z.div_le_lower_bound; [lia|].
      rewrite <- Z.pow_add_r by lia. replace (Z.pos n + 52)%Z with (d - 1)%Z by lia.
      exact Dlo.
    + apply shr_fexp_carry; [|lia]. destruct C as [-> | ->]; lia.
  - (* negative: no shift *)
    rewrite shr_record_of_loc_m, loc_of_shr_record_of_loc.
    replace (Z.max 0 (Z.neg n)) with 0%Z by lia.
    rewrite Z.add_0_r, Z.pow_0_r, Z.div_1_r.
    assert (B : (mx < 2 ^ 53)%Z).
    { assert (2 ^ d <= 2 ^ 53)%Z by (apply Z.pow_le_mono_r; lia). lia. }
    exists (round_nearest_even mx lx).
    pose proof (round_nearest_even_cases mx lx) as C.
    split; [exact C|]. split; [lia|]. split; [lia|].
    split; [intros _ ->; reflexivity|]. split; [lia|]. split; [lia|].
    apply shr_fexp_carry; lia.
Qed.

Section RoundingError.
Import Reals Lra.
Local Open Scope R_scope.

Ltac push_IZR' :=
  repeat (rewrite mult_IZR || rewrite plus_IZR || rewrite minus_IZR || rewrite opp_IZR).

Lemma bpow_gt_0 (e : Z) : 0 < bpow e.
Proof. apply powerRZ_lt. lra. Qed.

Lemma bpow_add (a b : Z) : bpow (a + b) = bpow a * bpow b.
Proof. apply powerRZ_add. lra. Qed.

Lemma bpow_IZR (k : Z) : (0 <= k)%Z -> bpow k = IZR (2 ^ k).
Proof.
  intros H. unfold bpow. rewrite <- (Z2Nat.id k H) at 1 2.
  rewrite <- pow_powerRZ, pow_IZR. reflexivity.
Qed.

Lemma bpow_le (a b : Z) : (a <= b)%Z -> bpow a <= bpow b.
Proof.
  intros H. replace b with (a + (b - a))%Z by lia. rewrite bpow_add.
  rewrite (bpow_IZR (b - a)) by lia.
  assert (1 <= IZR (2 ^ (b - a))).
  { apply IZR_le. assert (0 < 2 ^ (b - a))%Z by (apply Z.pow_pos_nonneg; lia). lia. }
  pose proof (bpow_gt_0 a). nra.
Qed.

Lemma bpow_lt (a b : Z) : (a < b)%Z -> bpow a < bpow b.
Proof.
  intros H. replace b with (a + (b - a))%Z by lia. rewrite bpow_add.
  rewrite (bpow_IZR (b - a)) by lia.
  assert (2 <= IZR (2 ^ (b - a))).
  { apply IZR_le. replace (b - a)%Z with (Z.succ (b - a - 1)) by lia.
    rewrite Z.pow_succ_r by lia.
    assert (0 < 2 ^ (b - a - 1))%Z by (apply Z.pow_pos_nonneg; lia). lia. }
  pose proof (bpow_gt_0 a). nra.
Qed.

Lemma bpow_succ (a : Z) : bpow (a + 1) = 2 * bpow a.
Proof. rewrite bpow_add. change (bpow 1) with (2 * 1). lra. Qed.


Ltac push_IZR H :=
  repeat (rewrite mult_IZR in H || rewrite plus_IZR in H
          || rewrite minus_IZR in H || rewrite opp_IZR in H).

Lemma IZR_cond_Zopp (s : bool) (m : Z) :
  IZR (cond_Zopp s m) = (if s then -1 else 1) * IZR m.
Proof. destruct s; cbn [cond_Zopp]; [rewrite opp_IZR|]; lra. Qed.

(** The value of a rounded result, unless it overflows. *)
Lemma roundedSF_real (sx : bool) (m1 e : Z) :
  (0 <= m1 <= 2 ^ 53)%Z ->
  (roundedSF sx m1 e = S754_infinity sx
   /\ (0 < m1)%Z /\ (971 < e \/ (m1 = 2 ^ 53 /\ e = 971))%Z)
  \/ (finiteSF (roundedSF sx m1 e) = true
      /\ SF2R (roundedSF sx m1 e) = IZR (cond_Zopp sx m1) * bpow e).
Proof.
  intros [Lo Hi]. unfold roundedSF. destruct m1 as [|p|p]; [| |lia].
  - right. split; [reflexivity|]. cbn. destruct sx; cbn; lra.
  - destruct (Z.ltb_spec (Z.pos p) (2 ^ 53)) as [L | G].
    + destruct (Z.leb_spec e 971) as [Le | Ge].
      * right. split; reflexivity.
      * left. repeat split; lia.
    + assert (E : Z.pos p = (2 ^ 53)%Z) by lia.
      destruct (Z.leb_spec (e + 1) 971) as [Le | Ge].
      * right. split; [reflexivity|]. cbn [SF2R]. rewrite E, bpow_succ.
        rewrite !IZR_cond_Zopp.
        change (IZR (Z.pos 4503599627370496)) with (IZR (2 ^ 52)).
        replace (IZR (2 ^ 53)) with (2 * IZR (2 ^ 52)); [lra|].
        rewrite <- mult_IZR. reflexivity.
      * left. repeat split; lia.
Qed.

Lemma digits2_pos_shift (p q : positive) (j : Z) :
  (0 <= j)%Z -> Z.pos q = (Z.pos p * 2 ^ j)%Z ->
  Z.pos (digits2_pos q) = (Z.pos (digits2_pos p) + j)%Z.
Proof.
  intros Hj E. apply digits2_pos_unique. rewrite E.
  pose proof (digits2_pos_bounds p) as [Lo Hi].
  set (d := Z.pos (digits2_pos p)) in *.
  assert (P : (0 < 2 ^ j)%Z) by (apply Z.pow_pos_nonneg; lia).
  replace (d + j - 1)%Z with ((d - 1) + j)%Z by lia.
  rewrite !Z.pow_add_r by lia. split; nia.
Qed.

(** Rounding [p * 2^e] to binary64: exact when the mantissa fits, to
    nearest on a grid of step [2^e'] otherwise. *)
Lemma binary_round_real (sx : bool) (p : positive) (e : Z) :
  (-1074 <= e)%Z ->
  exists m1 e',
    (0 <= m1 <= 2 ^ 53)%Z /\ (-1074 <= e')%Z
    /\ binary_round prec emax sx p e = roundedSF sx m1 e'
    /\ ((IZR m1 * bpow e' = IZR (Z.pos p) * bpow e /\ (m1 < 2 ^ 53)%Z /\ (e' <= e)%Z)
        \/ (IZR m1 * bpow e' - bpow e' / 2 <= IZR (Z.pos p) * bpow e
            /\ IZR (Z.pos p) * bpow e <= IZR m1 * bpow e' + bpow e' / 2
            /\ bpow (e' + 52) <= IZR (Z.pos p) * bpow e /\ (e < e')%Z)).
Proof.
  intros He. unfold binary_round.
  set (d := Z.pos (digits2_pos p)). set (fe := fexp prec emax (d + e)).
  assert (Fe : fe = Z.max (d + e - 53) (-1074))
    by (unfold fe, fexp, SpecFloat.emin, prec, emax; lia).
  destruct (Z.lt_ge_cases fe e) as [L | G].
  - destruct (shl_align_value p e fe) as [V E]; [lia|].
    destruct (shl_align p e fe) as [mz ez] eqn:A. cbn [fst snd] in V, E. subst ez.
    pose proof (digits2_pos_shift p mz (e - fe) ltac:(lia) V) as D. fold d in D.
    destruct (binary_round_aux_spec sx (Z.pos mz) fe loc_Exact ltac:(lia))
      as (m1 & _ & B & Emin & Ex & _ & _ & R).
    cbn [Zdigits2] in *. rewrite D in *.
    replace (d + (e - fe) + fe)%Z with (d + e)%Z in * by lia. fold fe in Ex, R, B, Emin.
    replace (Z.max 0 (fe - fe)) with 0%Z in * by lia.
    rewrite Z.add_0_r in *. rewrite Z.pow_0_r, Z.div_1_r in B.
    specialize (Ex eq_refl eq_refl). subst m1.
    exists (Z.pos mz), fe. split; [lia|]. split; [lia|]. split; [exact R|].
    left. split; [|lia]. rewrite V, mult_IZR, <- bpow_IZR by lia.
    rewrite Rmult_assoc, <- bpow_add. f_equal. f_equal. lia.
  - assert (A : shl_align p e fe = (p, e)).
    { unfold shl_align. destruct (fe - e)%Z eqn:E; try reflexivity. lia. }
    rewrite A.
    destruct (binary_round_aux_spec sx (Z.pos p) e loc_Exact ltac:(lia))
      as (m1 & C & B & Emin & Ex & Nr & Dg & R).
    cbn [Zdigits2] in *. fold d in Ex, Nr, Dg, R, B, Emin, C. fold fe in Ex, Nr, Dg, R, B, Emin, C.
    replace (Z.max 0 (fe - e)) with (fe - e)%Z in * by lia.
    replace (e + (fe - e))%Z with fe in * by lia.
    exists m1, fe. split; [destruct C as [-> | ->]; lia|]. split; [lia|].
    split; [exact R|].
    destruct (Z.eq_dec fe e) as [Eq | Ne].
    + left. rewrite Eq, Z.sub_diag in Ex. specialize (Ex eq_refl eq_refl). subst m1.
      rewrite Eq. split; [reflexivity|]. rewrite Eq, Z.sub_diag, Z.pow_0_r, Z.div_1_r in B.
      lia.
    + right. specialize (Nr ltac:(lia) eq_refl). specialize (Dg ltac:(lia)).
      destruct Dg as [Dg | Dg]; [lia|].
      assert (P : (0 < 2 ^ (fe - e))%Z) by (apply Z.pow_pos_nonneg; lia).
      assert (Dg' : (2 ^ 52 * 2 ^ (fe - e) <= Z.pos p)%Z).
      { pose proof (Z.mul_div_le (Z.pos p) (2 ^ (fe - e)) P). nia. }
      destruct Nr as [N1 N2].
      apply IZR_le in N1, N2, Dg'.
      push_IZR N1. push_IZR N2. push_IZR Dg'.
      rewrite <- !bpow_IZR in N1 by lia. rewrite <- !bpow_IZR in N2 by lia.
      rewrite <- !bpow_IZR in Dg' by lia.
      assert (Bf : bpow fe = bpow (fe - e) * bpow e).
      { rewrite <- bpow_add. f_equal. lia. }
      assert (B52 : bpow (fe + 52) = bpow 52 * bpow fe).
      { rewrite Z.add_comm. apply bpow_add. }
      pose proof (bpow_gt_0 e) as Pe. pose proof (bpow_gt_0 (fe - e)) as Pk.
      rewrite B52, Bf.
      set (be := bpow e) in *. set (bk := bpow (fe - e)) in *.
      set (X := IZR (Z.pos p)) in *. set (M := IZR m1) in *. set (b52 := bpow 52) in *.
      change (IZR 2) with 2 in *. change (IZR 1) with 1 in *.
      repeat split; [nra | nra | nra | lia].
Qed.


Lemma binary_round_nearest (sx : bool) (p : positive) (e : Z) :
  (-1074 <= e <= 971)%Z ->
  nearestTo (IZR (cond_Zopp sx (Z.pos p)) * bpow e) (binary_round prec emax sx p e).
Proof.
  intros [He He']. destruct (binary_round_real sx p e He) as (m1 & e' & B & Emin & -> & C).
  assert (B53 : IZR (2 ^ 53) = bpow 53) by (now rewrite bpow_IZR by lia).
  assert (B1024 : bpow 53 * bpow 971 <= bpow (e' + 52) \/ (e' <= 971)%Z).
  { destruct (Z.le_gt_cases e' 971) as [? | G]; [auto | left].
    rewrite <- bpow_add. apply bpow_le. lia. }
  pose proof (bpow_gt_0 971) as P971. pose proof (bpow_gt_0 e') as Pe'.
  rewrite IZR_cond_Zopp.
  destruct (roundedSF_real sx m1 e' B) as [(-> & M0 & Ov) | (F & V)].
  - left. exists sx. split; [reflexivity|].
    destruct C as [(_ & M & E) | (N1 & N2 & Dg & E)]; [lia|].
    assert (overflowBound <= IZR (Z.pos p) * bpow e).
    { unfold overflowBound. destruct Ov as [G | [-> ->]].
      - destruct B1024 as [? | ?]; [nra | lia].
      - rewrite B53 in N1. nra. }
    destruct sx; lra.
  - right. split; [exact F|]. rewrite V, IZR_cond_Zopp.
    destruct C as [(Ex & _ & _) | (N1 & N2 & Dg & E)].
    + left. destruct sx; nra.
    + right. exists e', (cond_Zopp sx m1). rewrite IZR_cond_Zopp.
      split; [lia|]. split; [reflexivity|].
      destruct sx; (split; [lra|]); (split; [lra|]); [right | left]; lra.
Qed.

Lemma binary_normalize_nearest (S e : Z) :
  (-1074 <= e <= 971)%Z ->
  nearestTo (IZR S * bpow e) (binary_normalize prec emax S e false).
Proof.
  intros He. destruct S as [|p|p]; cbn [binary_normalize].
  - right. split; [reflexivity|]. left. cbn. lra.
  - apply (binary_round_nearest false p e He).
  - apply (binary_round_nearest true p e He).
Qed.

Lemma SF2R_aligned (s : bool) (m : positive) (e ez : Z) :
  (ez <= e)%Z ->
  IZR (cond_Zopp s (Z.pos (fst (shl_align m e ez)))) * bpow ez
  = SF2R (S754_finite s m e).
Proof.
  intros H. destruct (shl_align_value m e ez H) as [V _].
  cbn [SF2R]. rewrite !IZR_cond_Zopp, V, mult_IZR, <- bpow_IZR by lia.
  replace (bpow e) with (bpow (e - ez) * bpow ez); [lra|].
  rewrite <- bpow_add. f_equal. lia.
Qed.

(** Addition of binary64 numbers rounds the exact sum to nearest. *)
Lemma SFadd_nearest (a b : spec_float) :
  valid_binary a = true -> valid_binary b = true ->
  finiteSF a = true -> finiteSF b = true ->
  nearestTo (SF2R a + SF2R b) (SFadd prec emax a b).
Proof.
  intros Va Vb Fa Fb.
  destruct a as [sa|sa| |sa ma ea]; try discriminate;
    destruct b as [sb|sb| |sb mb eb]; try discriminate.
  - right. split; [destruct sa, sb; reflexivity|]. left.
    destruct sa, sb; cbn; lra.
  - right. split; [reflexivity|]. left. cbn [SFadd SF2R]. lra.
  - right. split; [reflexivity|]. left. cbn [SFadd SF2R]. lra.
  - destruct (valid_finite_bounds _ _ _ Va) as (Ea & _ & _).
    destruct (valid_finite_bounds _ _ _ Vb) as (Eb & _ & _).
    cbn [SFadd]. set (ez := Z.min ea eb).
    rewrite <- (SF2R_aligned sa ma ea ez), <- (SF2R_aligned sb mb eb ez) by lia.
    rewrite <- Rmult_plus_distr_r, <- plus_IZR.
    apply binary_normalize_nearest. lia.
Qed.

Lemma SFsub_as_add (a b : spec_float) :
  SFsub prec emax a b = SFadd prec emax a (SFopp b).
Proof.
  destruct a as [sa|sa| |sa ma ea], b as [sb|sb| |sb mb eb]; try reflexivity;
    destruct sa, sb; reflexivity.
Qed.

Lemma SF2R_opp (b : spec_float) : SF2R (SFopp b) = - SF2R b.
Proof.
  destruct b as [s|s| |s m e]; cbn [SFopp SF2R]; try lra.
  rewrite !IZR_cond_Zopp. destruct s; cbn [negb]; lra.
Qed.

(** Subtraction of binary64 numbers rounds the exact difference to
    nearest. *)
Lemma SFsub_nearest (a b : spec_float) :
  valid_binary a = true -> valid_binary b = true ->
  finiteSF a = true -> finiteSF b = true ->
  nearestTo (SF2R a - SF2R b) (SFsub prec emax a b).
Proof.
  intros Va Vb Fa Fb. rewrite SFsub_as_add.
  replace (SF2R a - SF2R b) with (SF2R a + SF2R (SFopp b)) by (rewrite SF2R_opp; lra).
  apply SFadd_nearest; try assumption; destruct b; auto.
Qed.


(** ** Binary64 numbers as reals *)

Lemma valid_finite_real (s : bool) (m : positive) (e : Z) :
  valid_binary (S754_finite s m e) = true ->
  (-1074 <= e <= 971)%Z
  /\ 1 <= IZR (Z.pos m) <= bpow 53 - 1
  /\ (e <> (-1074)%Z -> bpow 52 <= IZR (Z.pos m)).
Proof.
  intros V. destruct (valid_finite_bounds s m e V) as (E & Hi & Lo).
  split; [exact E|]. rewrite bpow_IZR, bpow_IZR by lia.
  split; [split|].
  - apply IZR_le. lia.
  - rewrite <- minus_IZR. apply IZR_le. lia.
  - intros Ne. apply IZR_le. auto.
Qed.

Lemma finite_positive (r : spec_float) :
  finiteSF r = true -> 0 < SF2R r -> exists m e, r = S754_finite false m e.
Proof.
  destruct r as [s|s| |s m e]; try discriminate; cbn [SF2R]; intros _ H; [lra|].
  destruct s; [|eauto]. exfalso. rewrite IZR_cond_Zopp in H.
  assert (0 < IZR (Z.pos m)) by (apply IZR_lt; lia).
  pose proof (bpow_gt_0 e). nra.
Qed.

(** The comparison of binary64 numbers is that of their values. *)
Lemma SFcompare_real (a b : spec_float) :
  valid_binary a = true -> valid_binary b = true ->
  finiteSF a = true -> finiteSF b = true ->
  match SFcompare a b with
  | Some Lt => SF2R a < SF2R b
  | Some Eq => SF2R a = SF2R b
  | Some Gt => SF2R b < SF2R a
  | None => False
  end.
Proof.
  intros Va Vb Fa Fb.
  assert (Pos : forall s m e, valid_binary (S754_finite s m e) = true ->
                              0 < IZR (Z.pos m) * bpow e).
  { intros s m e V. destruct (valid_finite_real s m e V) as (_ & [L _] & _).
    pose proof (bpow_gt_0 e). nra. }
  assert (Hlt : forall s1 m1 e1 s2 m2 e2,
             valid_binary (S754_finite s1 m1 e1) = true ->
             valid_binary (S754_finite s2 m2 e2) = true ->
             (e1 < e2)%Z -> IZR (Z.pos m1) * bpow e1 < IZR (Z.pos m2) * bpow e2).
  { intros s1 m1 e1 s2 m2 e2 V1 V2 L.
    destruct (valid_finite_real s1 m1 e1 V1) as (E1 & [_ H1] & _).
    destruct (valid_finite_real s2 m2 e2 V2) as (E2 & _ & L2).
    specialize (L2 ltac:(lia)).
    assert (bpow (e1 + 53) <= bpow (e2 + 52)) by (apply bpow_le; lia).
    rewrite (Z.add_comm e1), (Z.add_comm e2), !bpow_add in H.
    pose proof (bpow_gt_0 e1) as P1. pose proof (bpow_gt_0 e2) as P2.
    assert (IZR (Z.pos m1) * bpow e1 <= (bpow 53 - 1) * bpow e1)
      by (apply Rmult_le_compat_r; lra).
    assert (bpow 52 * bpow e2 <= IZR (Z.pos m2) * bpow e2)
      by (apply Rmult_le_compat_r; lra).
    lra. }
  destruct a as [sa|sa| |sa ma ea]; try discriminate;
    destruct b as [sb|sb| |sb mb eb]; try discriminate; cbn [SFcompare SF2R].
  - reflexivity.
  - rewrite IZR_cond_Zopp. pose proof (Pos _ _ _ Vb). destruct sb; lra.
  - rewrite IZR_cond_Zopp. pose proof (Pos _ _ _ Va). destruct sa; lra.
  - rewrite !IZR_cond_Zopp. pose proof (Pos _ _ _ Va). pose proof (Pos _ _ _ Vb).
    destruct sa, sb; try lra.
    + destruct (Z.compare_spec ea eb) as [E | L | G].
      * subst eb. rewrite Pos.compare_cont_spec.
        pose proof (bpow_gt_0 ea).
        destruct (Pos.compare_spec ma mb) as [E | L | G]; cbn [CompOpp Pos.switch_Eq].
        -- subst mb. reflexivity.
        -- assert (IZR (Z.pos ma) < IZR (Z.pos mb)) by (apply IZR_lt; lia). nra.
        -- assert (IZR (Z.pos mb) < IZR (Z.pos ma)) by (apply IZR_lt; lia). nra.
      * pose proof (Hlt _ _ _ _ _ _ Va Vb L). lra.
      * pose proof (Hlt _ _ _ _ _ _ Vb Va G). lra.
    + destruct (Z.compare_spec ea eb) as [E | L | G].
      * subst eb. rewrite Pos.compare_cont_spec.
        pose proof (bpow_gt_0 ea).
        destruct (Pos.compare_spec ma mb) as [E | L | G]; cbn [Pos.switch_Eq].
        -- subst mb. reflexivity.
        -- assert (IZR (Z.pos ma) < IZR (Z.pos mb)) by (apply IZR_lt; lia). nra.
        -- assert (IZR (Z.pos mb) < IZR (Z.pos ma)) by (apply IZR_lt; lia). nra.
      * pose proof (Hlt _ _ _ _ _ _ Va Vb L). lra.
      * pose proof (Hlt _ _ _ _ _ _ Vb Va G). lra.
Qed.

Lemma SFltb_real (a b : spec_float) :
  valid_binary a = true -> valid_binary b = true ->
  finiteSF a = true -> finiteSF b = true ->
  SFltb a b = true -> SF2R a < SF2R b.
Proof.
  intros Va Vb Fa Fb. pose proof (SFcompare_real a b Va Vb Fa Fb) as H.
  unfold SFltb. destruct (SFcompare a b) as [[| |]|]; try discriminate. auto.
Qed.

Lemma SFleb_real (a b : spec_float) :
  valid_binary a = true -> valid_binary b = true ->
  finiteSF a = true -> finiteSF b = true ->
  SFleb a b = true -> SF2R a <= SF2R b.
Proof.
  intros Va Vb Fa Fb. pose proof (SFcompare_real a b Va Vb Fa Fb) as H.
  unfold SFleb. destruct (SFcompare a b) as [[| |]|]; try discriminate; lra.
Qed.


(** ** Multiplication and division: within one step of the grid *)

(** Rounding a mantissa [mx] at exponent [ex] that stands for a value [x]
    between [mx * 2^ex] and [(mx + 1) * 2^ex]: the result is within one
    step [2^e'] of [x]. *)
Lemma binary_round_aux_faithful (mx ex : Z) (lx : location) (x : R) :
  (0 <= mx)%Z ->
  IZR mx * bpow ex <= x -> x <= (IZR mx + 1) * bpow ex ->
  exists m1 e',
    (0 <= m1 <= 2 ^ 53)%Z /\ (-1074 <= e')%Z
    /\ binary_round_aux prec emax false mx ex lx = roundedSF false m1 e'
    /\ IZR m1 * bpow e' - bpow e' <= x /\ x <= IZR m1 * bpow e' + bpow e'
    /\ (lx = loc_Exact -> x = IZR mx * bpow ex ->
        (e' = ex /\ (m1 < 2 ^ 53)%Z /\ IZR m1 * bpow e' = x)
        \/ e' = (-1074)%Z \/ bpow (e' + 52) <= x).
Proof.
  intros Hm Lo Hi.
  destruct (binary_round_aux_spec false mx ex lx Hm) as (m1 & C & B & Emin & E0 & _ & Dg & R).
  set (k := Z.max 0 (fexp prec emax (Zdigits2 mx + ex) - ex)) in *.
  assert (K : (0 <= k)%Z) by lia.
  assert (P : (0 < 2 ^ k)%Z) by (apply Z.pow_pos_nonneg; lia).
  set (f := (mx / 2 ^ k)%Z) in *.
  assert (F1 : (f * 2 ^ k <= mx)%Z).
  { pose proof (Z.mul_div_le mx (2 ^ k) P). fold f in H. lia. }
  assert (F2 : (mx + 1 <= (f + 1) * 2 ^ k)%Z).
  { pose proof (Z.mul_succ_div_gt mx (2 ^ k) P). fold f in H. lia. }
  apply IZR_le in F1, F2. push_IZR F1. push_IZR F2.
  rewrite <- bpow_IZR in F1, F2 by lia.
  assert (Be : bpow (ex + k) = bpow k * bpow ex) by (rewrite Z.add_comm; apply bpow_add).
  pose proof (bpow_gt_0 ex) as Pex. pose proof (bpow_gt_0 k) as Pk.
  assert (G1 : IZR f * bpow (ex + k) <= x).
  { rewrite Be. apply Rle_trans with (IZR mx * bpow ex); [|exact Lo].
    rewrite <- Rmult_assoc. apply Rmult_le_compat_r; lra. }
  assert (G2 : x <= (IZR f + 1) * bpow (ex + k)).
  { rewrite Be. apply Rle_trans with ((IZR mx + 1) * bpow ex); [exact Hi|].
    rewrite <- Rmult_assoc. apply Rmult_le_compat_r; lra. }
  exists m1, (ex + k)%Z. split; [destruct C as [-> | ->]; lia|]. split; [exact Emin|].
  split; [exact R|].
  pose proof (bpow_gt_0 (ex + k)) as Pe.
  split; [|split].
  - destruct C as [-> | ->]; push_IZR'; lra.
  - destruct C as [-> | ->]; push_IZR'; lra.
  - intros L Ex. destruct (Z.eq_dec k 0) as [K0 | K0].
    + left. specialize (E0 K0 L). subst m1. rewrite K0, Z.add_0_r.
      assert (f = mx) by (unfold f; rewrite K0, Z.pow_0_r, Z.div_1_r; reflexivity).
      split; [reflexivity|]. split; [lia|]. symmetry. exact Ex.
    + right. destruct (Dg ltac:(lia)) as [D | D]; [left; exact D | right].
      apply IZR_le in D. rewrite <- bpow_IZR in D by lia.
      rewrite (Z.add_comm (ex + k)), bpow_add.
      apply Rle_trans with (IZR f * bpow (ex + k)); [|exact G1].
      apply Rmult_le_compat_r; lra.
Qed.

Lemma rounded_normal (m1 e' : Z) :
  (0 <= m1 <= 2 ^ 53)%Z ->
  valid_binary (roundedSF false m1 e') = true ->
  finiteSF (roundedSF false m1 e') = true ->
  bpow (-1022) <= IZR m1 * bpow e' ->
  bpow (e' + 52) <= IZR m1 * bpow e'.
Proof.
  intros [Lo Hi] V F N. pose proof (bpow_gt_0 e') as Pe.
  rewrite (Z.add_comm e'), bpow_add.
  unfold roundedSF in V, F. destruct m1 as [|p|p]; [| |lia].
  - pose proof (bpow_gt_0 (-1022)). lra.
  - destruct (Z.ltb_spec (Z.pos p) (2 ^ 53)) as [L | G].
    + destruct (Z.leb_spec e' 971) as [Le | Ge]; [|discriminate].
      destruct (valid_finite_real _ _ _ V) as (_ & _ & Nm).
      destruct (Z.eq_dec e' (-1074)) as [-> | Ne].
      * rewrite <- bpow_add. exact N.
      * apply Rmult_le_compat_r; [lra | auto].
    + assert (E : Z.pos p = (2 ^ 53)%Z) by lia. rewrite E.
      apply Rmult_le_compat_r; [lra|]. rewrite bpow_IZR by lia. apply IZR_le. lia.
Qed.

(** Multiplication of positive binary64 numbers. *)
Lemma SFmul_faithful (ma : positive) (ea : Z) (mb : positive) (eb : Z) :
  let x := SF2R (S754_finite false ma ea) * SF2R (S754_finite false mb eb) in
  let r := SFmul prec emax (S754_finite false ma ea) (S754_finite false mb eb) in
  (r = S754_infinity false
   /\ ((971 < ea + eb)%Z \/ (bpow 53 - 1) * bpow 971 <= x))
  \/ (finiteSF r = true /\ 0 <= SF2R r
      /\ (SF2R r = x
          \/ exists e', SF2R r - bpow e' <= x /\ x <= SF2R r + bpow e'
                        /\ (e' = (-1074)%Z \/ bpow (e' + 52) <= x))).
Proof.
  intros x r. subst r. cbn [SFmul xorb].
  assert (X : x = IZR (Z.pos (ma * mb)) * bpow (ea + eb)).
  { unfold x. cbn [SF2R cond_Zopp]. rewrite Pos2Z.inj_mul, mult_IZR, bpow_add. lra. }
  pose proof (bpow_gt_0 (ea + eb)) as Pe.
  destruct (binary_round_aux_faithful (Z.pos (ma * mb)) (ea + eb) loc_Exact x)
    as (m1 & e' & B & Emin & -> & Lo & Hi & Ex); [lia | lra | lra |].
  specialize (Ex eq_refl X). pose proof (bpow_gt_0 e') as Pe'.
  assert (B53 : IZR (2 ^ 53) = bpow 53) by (now rewrite bpow_IZR by lia).
  destruct (roundedSF_real false m1 e' B) as [(-> & M0 & Ov) | (F & V)].
  - left. split; [reflexivity|].
    destruct Ex as [(-> & M & _) | [E | D]]; [left; lia | lia | right].
    destruct Ov as [G | [-> ->]].
    + assert (bpow 53 * bpow 971 <= bpow (e' + 52)).
      { rewrite <- bpow_add. apply bpow_le. lia. }
      pose proof (bpow_gt_0 971). nra.
    + rewrite B53 in Lo. lra.
  - right. split; [exact F|]. rewrite V. cbn [cond_Zopp].
    split; [apply Rmult_le_pos; [apply IZR_le; lia | lra]|].
    destruct Ex as [(_ & _ & E) | Ex]; [left; exact E | right].
    exists e'. auto.
Qed.

(** Division of positive binary64 numbers. *)
Lemma SFdiv_faithful (ma : positive) (ea : Z) (mb : positive) (eb : Z) :
  let x := SF2R (S754_finite false ma ea) / SF2R (S754_finite false mb eb) in
  exists m1 e',
    (0 <= m1 <= 2 ^ 53)%Z /\ (-1074 <= e')%Z
    /\ SFdiv prec emax (S754_finite false ma ea) (S754_finite false mb eb)
       = roundedSF false m1 e'
    /\ IZR m1 * bpow e' - bpow e' <= x /\ x <= IZR m1 * bpow e' + bpow e'.
Proof.
  intros x. cbn [SFdiv xorb]. unfold SFdiv_core_binary.
  set (e0 := Z.min (fexp prec emax (Zdigits2 (Z.pos ma) + ea - (Zdigits2 (Z.pos mb) + eb)))
                   (ea - eb)).
  set (s := (ea - eb - e0)%Z).
  assert (S0 : (0 <= s)%Z) by (unfold s, e0; lia).
  set (m' := match s with
             | 0%Z => Z.pos ma
             | Z.pos _ => Z.shiftl (Z.pos ma) s
             | Z.neg _ => 0%Z
             end).
  assert (M' : m' = (Z.pos ma * 2 ^ s)%Z).
  { unfold m'. destruct s as [|q|q] eqn:E; [cbn; lia | | lia].
    apply Z.shiftl_mul_pow2. lia. }
  pose proof (Z_div_mod m' (Z.pos mb) ltac:(lia)) as DM.
  destruct (Z.div_eucl m' (Z.pos mb)) as [q r]. destruct DM as [DM Rb].
  assert (Q0 : (0 <= q)%Z) by nia.
  assert (Pa : 0 < IZR (Z.pos ma)) by (apply IZR_lt; lia).
  assert (Pb : 0 < IZR (Z.pos mb)) by (apply IZR_lt; lia).
  pose proof (bpow_gt_0 ea) as Pea. pose proof (bpow_gt_0 eb) as Peb.
  pose proof (bpow_gt_0 e0) as Pe0. pose proof (bpow_gt_0 s) as Ps.
  assert (X : x = IZR m' / IZR (Z.pos mb) * bpow e0).
  { unfold x. cbn [SF2R cond_Zopp]. rewrite M', mult_IZR, <- bpow_IZR by lia.
    replace (bpow ea) with (bpow s * bpow e0 * bpow eb).
    - field. lra.
    - rewrite <- !bpow_add. f_equal. unfold s. lia. }
  assert (Q1 : IZR q <= IZR m' / IZR (Z.pos mb)).
  { apply Rmult_le_reg_r with (IZR (Z.pos mb)); [lra|].
    replace (IZR m' / IZR (Z.pos mb) * IZR (Z.pos mb)) with (IZR m') by (field; lra).
    rewrite <- mult_IZR. apply IZR_le. nia. }
  assert (Q2 : IZR m' / IZR (Z.pos mb) <= IZR q + 1).
  { apply Rmult_le_reg_r with (IZR (Z.pos mb)); [lra|].
    replace (IZR m' / IZR (Z.pos mb) * IZR (Z.pos mb)) with (IZR m') by (field; lra).
    replace ((IZR q + 1) * IZR (Z.pos mb)) with (IZR ((q + 1) * Z.pos mb))
      by (push_IZR'; reflexivity).
    apply IZR_le. nia. }
  destruct (binary_round_aux_faithful q e0 (new_location (Z.pos mb) r) x Q0)
    as (m1 & e' & B & Emin & R & Lo & Hi & _).
  - rewrite X. apply Rmult_le_compat_r; lra.
  - rewrite X. apply Rmult_le_compat_r; lra.
  - exists m1, e'. auto.
Qed.

Lemma bpow_m52 : bpow (-52) = / 4503599627370496.
Proof.
  assert (H : bpow (-52) * bpow 52 = 1).
  { rewrite <- bpow_add. reflexivity. }
  rewrite (bpow_IZR 52) in H by lia.
  change (IZR (2 ^ 52)) with 4503599627370496 in H.
  apply Rmult_eq_reg_r with 4503599627370496; [|lra]. rewrite H. field.
Qed.

Lemma bpow_shift52 (e : Z) : bpow e = bpow (-52) * bpow (e + 52).
Proof. rewrite <- bpow_add. f_equal. lia. Qed.

(** An integer below [2^53] converts to binary64 exactly. *)
Lemma float64_of_int_real (n : Z) :
  (0 < n < 2 ^ 53)%Z ->
  exists m e, Prim2SF (float64_of_int n) = S754_finite false m e
              /\ IZR (Z.pos m) * bpow e = IZR n.
Proof.
  intros [Lo Hi]. unfold float64_of_int.
  rewrite FloatAxioms.of_uint63_spec, Uint63.of_Z_spec.
  rewrite Z.mod_small by (change wB with (2 ^ 63)%Z; split; [lia|];
    assert (2 ^ 53 < 2 ^ 63)%Z by (apply Z.pow_lt_mono_r; lia); lia).
  destruct n as [|p|p]; try lia. cbn [binary_normalize].
  destruct (binary_round_real false p 0 ltac:(lia)) as (m1 & e' & B & Emin & -> & C).
  assert (X : IZR (Z.pos p) * bpow 0 = IZR (Z.pos p)) by (change (bpow 0) with 1; lra).
  rewrite X in C. pose proof (bpow_gt_0 e') as Pe.
  assert (Pp : 0 < IZR (Z.pos p)) by (apply IZR_lt; lia).
  destruct C as [(V & M & E) | (_ & _ & D & E)].
  - unfold roundedSF. destruct m1 as [|q|q]; [| |lia].
    + rewrite Rmult_0_l in V. lra.
    + replace (Z.pos q <? 2 ^ 53)%Z with true by (symmetry; apply Z.ltb_lt; lia).
      replace (e' <=? 971)%Z with true by (symmetry; apply Z.leb_le; lia).
      eauto.
  - exfalso. assert (bpow 53 <= bpow (e' + 52)) by (apply bpow_le; lia).
    assert (IZR (Z.pos p) < bpow 53) by (rewrite bpow_IZR by lia; apply IZR_lt; lia).
    lra.
Qed.

(** A binary64 number is a multiple of [2^e'] or smaller than
    [2^(e'+52)]. *)
Lemma float_grid (c : spec_float) (e' : Z) :
  valid_binary c = true -> finiteSF c = true -> (-1074 <= e')%Z ->
  (exists z, SF2R c = IZR z * bpow e')
  \/ (- bpow (e' + 52) < SF2R c < bpow (e' + 52)).
Proof.
  intros V F E. destruct c as [s|s| |s m e]; try discriminate; cbn [SF2R].
  - left. exists 0%Z. lra.
  - destruct (valid_finite_real s m e V) as (Eb & [M1 M2] & _).
    destruct (Z.le_gt_cases e' e) as [L | G].
    + left. exists (cond_Zopp s (Z.pos m) * 2 ^ (e - e'))%Z.
      rewrite mult_IZR, <- bpow_IZR, Rmult_assoc, <- bpow_add by lia.
      f_equal. f_equal. lia.
    + right. rewrite IZR_cond_Zopp.
      assert (bpow (e + 53) <= bpow (e' + 52)) by (apply bpow_le; lia).
      rewrite (Z.add_comm e), bpow_add in H. pose proof (bpow_gt_0 e).
      assert (IZR (Z.pos m) * bpow e < bpow 53 * bpow e)
        by (apply Rmult_lt_compat_r; lra).
      assert (0 < IZR (Z.pos m) * bpow e) by (apply Rmult_lt_0_compat; lra).
      destruct s; lra.
Qed.

Lemma nearestTo_positive (x : R) (r : spec_float) :
  nearestTo x r -> finiteSF r = true -> 0 < x ->
  x * (1 - bpow (-52)) <= SF2R r <= x * (1 + bpow (-52)).
Proof.
  intros [(s & -> & _) | (_ & [-> | (e' & z & E & _ & Lo & Hi & D)])] F Px;
    [discriminate | |].
  - pose proof (bpow_gt_0 (-52)). nra.
  - pose proof (bpow_gt_0 (e' + 52)) as P52. pose proof (bpow_gt_0 (-52)) as Pm.
    destruct D as [D | D]; [|lra].
    rewrite (bpow_shift52 e') in Lo, Hi. nra.
Qed.

Lemma nearestTo_upper (x : R) (r : spec_float) :
  nearestTo x r -> finiteSF r = true ->
  (x <= 0 -> SF2R r <= 0) /\ (0 < x -> SF2R r <= x * (1 + bpow (-52))).
Proof.
  intros N F. split.
  - destruct N as [(s & -> & _) | (_ & [-> | (e' & z & E & _ & Lo & Hi & D)])];
      [discriminate | auto |].
    intros Px. pose proof (bpow_gt_0 (e' + 52)) as P52. pose proof (bpow_gt_0 (-52)) as Pm.
    destruct D as [D | D]; [lra|].
    rewrite (bpow_shift52 e') in Lo, Hi. rewrite bpow_m52 in *. nra.
  - intros Px. apply (nearestTo_positive x r N F Px).
Qed.

(** Rounding a value [x] that is within [theta] of a binary64 number
    [C]: the result is [C], or is above [C], or is within [2 * theta] of
    it. *)
Lemma gap_after_rounding (C x theta : R) (r : spec_float) :
  (forall e', (-1074 <= e')%Z ->
              (exists z, C = IZR z * bpow e') \/ - bpow (e' + 52) < C < bpow (e' + 52)) ->
  nearestTo x r -> finiteSF r = true ->
  - theta <= x - C -> x - C <= theta ->
  C - SF2R r <= 2 * theta.
Proof.
  intros Grid [(s & -> & _) | (_ & [-> | (e' & z & E & V & Lo & Hi & D)])] F T1 T2;
    [discriminate | lra |].
  pose proof (bpow_gt_0 e') as Pu. set (u := bpow e') in *.
  assert (B : bpow (e' + 52) = bpow 52 * u) by (rewrite Z.add_comm; apply bpow_add).
  assert (B52 : bpow 52 = IZR (2 ^ 52)) by (apply bpow_IZR; lia).
  destruct (Rle_lt_dec u (2 * theta)) as [Big | Small]; [lra|].
  destruct (Grid e' ltac:(lia)) as [(zc & Ec) | Cs].
  - (* C on the grid: the result is C *)
    fold u in Ec.
    assert (Z1 : IZR (z - zc) < 1).
    { rewrite minus_IZR. apply Rmult_lt_reg_r with u; [lra|]. nra. }
    assert (Z2 : -1 < IZR (z - zc)).
    { rewrite minus_IZR. apply Rmult_lt_reg_r with u; [lra|]. nra. }
    apply lt_IZR in Z1, Z2. assert (z = zc) by lia. subst zc. lra.
  - rewrite B in *. destruct D as [D | D].
    + (* x positive: the result is at least 2^(e'+52), above C *)
      assert (Z1 : IZR (2 ^ 52 - 1) < IZR z).
      { rewrite minus_IZR, <- B52. apply Rmult_lt_reg_r with u; [lra|]. nra. }
      apply lt_IZR in Z1. assert (Z2 : IZR (2 ^ 52) <= IZR z) by (apply IZR_le; lia).
      rewrite <- B52 in Z2.
      assert (bpow 52 * u <= IZR z * u) by (apply Rmult_le_compat_r; lra). lra.
    + (* x negative: the result is at least -2^(e'+52) *)
      assert (Z1 : IZR (- 2 ^ 52 - 1) < IZR z).
      { rewrite minus_IZR, opp_IZR, <- B52. apply Rmult_lt_reg_r with u; [lra|]. nra. }
      apply lt_IZR in Z1. assert (Z2 : IZR (- 2 ^ 52) <= IZR z) by (apply IZR_le; lia).
      rewrite opp_IZR, <- B52 in Z2.
      assert (- bpow 52 * u <= IZR z * u) by (apply Rmult_le_compat_r; lra). lra.
Qed.

Lemma SF2R_bound (r : spec_float) :
  valid_binary r = true ->
  - ((bpow 53 - 1) * bpow 971) <= SF2R r <= (bpow 53 - 1) * bpow 971.
Proof.
  intros V. pose proof (bpow_gt_0 971) as P971.
  assert (B53 : 2 <= bpow 53).
  { rewrite bpow_IZR by lia. apply IZR_le. cbn. lia. }
  destruct r as [s|s| |s m e]; cbn [SF2R]; try nra.
  destruct (valid_finite_real s m e V) as (E & [M1 M2] & _).
  assert (bpow e <= bpow 971) by (apply bpow_le; lia).
  pose proof (bpow_gt_0 e). rewrite IZR_cond_Zopp.
  assert (IZR (Z.pos m) * bpow e <= (bpow 53 - 1) * bpow 971)
    by (apply Rmult_le_compat; lra).
  assert (0 < IZR (Z.pos m) * bpow e) by (apply Rmult_lt_0_compat; lra).
  destruct s; lra.
Qed.

Lemma bpow_53 : bpow 53 = 9007199254740992.
Proof. rewrite bpow_IZR by lia. reflexivity. Qed.

Lemma SF2R_half : SF2R (S754_finite false 4503599627370496 (-53)) = / 2.
Proof.
  cbn [SF2R cond_Zopp]. change (IZR (Z.pos 4503599627370496)) with (IZR (2 ^ 52)).
  rewrite <- bpow_IZR, <- bpow_add by lia. change (52 + -53)%Z with (-1)%Z.
  assert (H : bpow (-1) * bpow 1 = 1) by (rewrite <- bpow_add; reflexivity).
  rewrite (bpow_IZR 1) in H by lia. change (IZR (2 ^ 1)) with 2 in H. lra.
Qed.

Lemma SF2R_min_normal :
  SF2R (S754_finite false 4503599627370496 (-1074)) = bpow (-1022).
Proof.
  cbn [SF2R cond_Zopp]. change (IZR (Z.pos 4503599627370496)) with (IZR (2 ^ 52)).
  rewrite <- bpow_IZR, <- bpow_add by lia. reflexivity.
Qed.

Lemma SFltb_neg_infinity (h : spec_float) : SFltb h (S754_infinity true) = false.
Proof. destruct h as [[]|[]| |[] ? ?]; reflexivity. Qed.

(** The chain of roundings of the two-run row, on reals: [D] is the
    rounded difference of about [A], [N] is [n] times the rounded
    quotient, [M] the rounded product. *)
Lemma advance_chain (A D N M : R) :
  0 < A ->
  A * (1 - bpow (-52)) <= D -> D <= A * (1 + bpow (-52)) ->
  - (bpow (-52) * N) <= N - D -> N - D <= bpow (-52) * N ->
  - (bpow (-52) * N) <= M - N -> M - N <= bpow (-52) * N ->
  - (7 / 2 * bpow (-52) * N) <= M - A /\ M - A <= 7 / 2 * bpow (-52) * N.
Proof. rewrite bpow_m52. intros. split; lra. Qed.

Lemma f64_pair_no_space (p c : float) (n : Z) :
  (0 < n < 2 ^ 48)%Z ->
  (p <? c)%float = true ->
  (0x1p-1022 <=? (c - p) / float64_of_int n)%float = true ->
  ((c - p) / float64_of_int n <? infinity)%float = true ->
  ((c - p) / float64_of_int n * 0.5
   <? c - (p + float64_of_int n * ((c - p) / float64_of_int n)))%float = false.
Proof.
  intros Hn Hlt Hnorm Hfin.
  set (nf := float64_of_int n) in *. set (d := (c - p)%float) in *.
  set (w := (d / nf)%float) in *. set (m := (nf * w)%float).
  set (e := (p + m)%float). set (g := (c - e)%float). set (h := (w * 0.5)%float).
  pose proof (Prim2SF_valid p) as Vp. pose proof (Prim2SF_valid c) as Vc.
  pose proof (Prim2SF_valid d) as Vd. pose proof (Prim2SF_valid w) as Vw.
  pose proof (Prim2SF_valid m) as Vm. pose proof (Prim2SF_valid e) as Ve.
  pose proof (Prim2SF_valid g) as Vg. pose proof (Prim2SF_valid h) as Vh.
  assert (Sd : Prim2SF d = SFsub prec emax (Prim2SF c) (Prim2SF p))
    by apply FloatAxioms.sub_spec.
  assert (Sw : Prim2SF w = SFdiv prec emax (Prim2SF d) (Prim2SF nf))
    by apply FloatAxioms.div_spec.
  assert (Sm : Prim2SF m = SFmul prec emax (Prim2SF nf) (Prim2SF w))
    by apply FloatAxioms.mul_spec.
  assert (Se : Prim2SF e = SFadd prec emax (Prim2SF p) (Prim2SF m))
    by apply FloatAxioms.add_spec.
  assert (Sg : Prim2SF g = SFsub prec emax (Prim2SF c) (Prim2SF e))
    by apply FloatAxioms.sub_spec.
  assert (Sh : Prim2SF h = SFmul prec emax (Prim2SF w)
                                 (S754_finite false 4503599627370496 (-53)))
    by apply FloatAxioms.mul_spec.
  rewrite FloatAxioms.ltb_spec in Hlt, Hfin. rewrite FloatAxioms.leb_spec in Hnorm.
  rewrite FloatAxioms.ltb_spec.
  change (Prim2SF infinity) with (S754_infinity false) in Hfin.
  change (Prim2SF 0x1p-1022) with (S754_finite false 4503599627370496 (-1074)) in Hnorm.
  destruct (float64_of_int_real n) as (mn & en & Nf & Nv).
  { assert (2 ^ 48 < 2 ^ 53)%Z by (apply Z.pow_lt_mono_r; lia). lia. }
  fold nf in Nf. rewrite Nf in Sw, Sm.
  set (p' := Prim2SF p) in *. set (c' := Prim2SF c) in *.
  set (d' := Prim2SF d) in *. set (w' := Prim2SF w) in *.
  set (m' := Prim2SF m) in *. set (e' := Prim2SF e) in *.
  set (g' := Prim2SF g) in *. set (h' := Prim2SF h) in *.
  clearbody p' c' d' w' m' e' g' h'. clear Nf. clear h g e m w d nf p c.
  rename p' into p, c' into c, d' into d, w' into w, m' into m, e' into e,
    g' into g, h' into h.
  (* the two coordinates are numbers *)
  assert (Fpc : finiteSF p = true /\ finiteSF c = true).
  { destruct p as [sp|sp| |sp mp ep], c as [sc|sc| |sc mc ec];
      try (split; reflexivity); exfalso;
      try destruct sp; try destruct sc; try discriminate Hlt;
      cbn in Sd; subst d; cbn in Sw; subst w; cbn in Hfin; discriminate Hfin. }
  destruct Fpc as [Fp Fc].
  pose proof (SFltb_real p c Vp Vc Fp Fc Hlt) as Apos.
  set (P := SF2R p) in *. set (C := SF2R c) in *.
  (* the difference *)
  pose proof (SFsub_nearest c p Vc Vp Fc Fp) as Nd. rewrite <- Sd in Nd. fold P C in Nd.
  assert (Fd : finiteSF d = true).
  { destruct Nd as [(s & Ed & _) | (F & _)]; [exfalso | exact F].
    subst d. rewrite Ed in Sw. cbn in Sw. subst w. destruct s; discriminate. }
  destruct (nearestTo_positive _ _ Nd Fd ltac:(lra)) as [D1 D2].
  set (D := SF2R d) in *.
  assert (Eps : 0 < bpow (-52) < 1) by (rewrite bpow_m52; lra).
  assert (Dpos : 0 < D) by nra.
  destruct (finite_positive d Fd Dpos) as (md & ed & Ed).
  (* the advance *)
  rewrite Ed in Sw.
  destruct (SFdiv_faithful md ed mn en) as (m1 & e1 & B1 & Emin1 & R1 & Lo1 & Hi1).
  rewrite <- Sw in R1. rewrite <- Ed in Lo1, Hi1. fold D in Lo1, Hi1.
  replace (SF2R (S754_finite false mn en)) with (IZR n) in Lo1, Hi1
    by (symmetry; exact Nv).
  assert (Fw : finiteSF w = true /\ SF2R w = IZR m1 * bpow e1).
  { rewrite R1. destruct (roundedSF_real false m1 e1 B1) as [(Ov & _) | (F & V)].
    - rewrite R1, Ov in Hfin. discriminate.
    - split; [exact F | exact V]. }
  destruct Fw as [Fw Wv]. rewrite <- Wv in Lo1, Hi1.
  pose proof (SFleb_real (S754_finite false 4503599627370496 (-1074)) w
                eq_refl Vw eq_refl Fw Hnorm) as Wn.
  rewrite SF2R_min_normal in Wn.
  assert (W52 : bpow (e1 + 52) <= SF2R w).
  { rewrite Wv. apply rounded_normal; [exact B1 | | |].
    - rewrite <- R1. exact Vw.
    - rewrite <- R1. exact Fw.
    - rewrite <- Wv. exact Wn. }
  set (W := SF2R w) in *.
  pose proof (bpow_gt_0 (-1022)) as Pmin.
  assert (Wpos : 0 < W) by lra.
  rewrite (bpow_shift52 e1) in Lo1, Hi1.
  assert (Np : 1 <= IZR n <= 281474976710656).
  { split; apply IZR_le; [lia|]. change 281474976710656%Z with (2 ^ 48)%Z. lia. }
  set (N := IZR n * W).
  assert (NW : W <= N <= 281474976710656 * W) by (unfold N; nra).
  assert (ND : - (bpow (-52) * N) <= N - D /\ N - D <= bpow (-52) * N).
  { assert (X : D = D / IZR n * IZR n) by (field; lra).
    assert (T : bpow (-52) * bpow (e1 + 52) <= bpow (-52) * W)
      by (apply Rmult_le_compat_l; lra).
    assert (L1 : (W - bpow (-52) * W) * IZR n <= D / IZR n * IZR n)
      by (apply Rmult_le_compat_r; lra).
    assert (L2 : D / IZR n * IZR n <= (W + bpow (-52) * W) * IZR n)
      by (apply Rmult_le_compat_r; lra).
    rewrite <- X in L1, L2. unfold N. split; nra. }
  destruct ND as [ND1 ND2].
  destruct (finite_positive w Fw Wpos) as (mw & ew & Ew).
  (* a product that overflows puts prevEndX at +infinity *)
  assert (Inf : e = S754_infinity false -> SFltb h g = false).
  { intros Ee. subst g. rewrite Ee.
    replace (SFsub prec emax c (S754_infinity false)) with (S754_infinity true)
      by (destruct c; try discriminate; reflexivity).
    apply SFltb_neg_infinity. }
  (* the product *)
  rewrite Ew in Sm, Sh.
  destruct (SFmul_faithful mn en mw ew) as [(Ov & _) | (Fm & Mpos & Mv)].
  { apply Inf. rewrite Se, Sm, Ov. destruct p; try discriminate; reflexivity. }
  rewrite <- Sm in Fm, Mpos, Mv. rewrite <- Ew in Mv. fold W in Mv.
  replace (SF2R (S754_finite false mn en)) with (IZR n) in Mv by (symmetry; exact Nv).
  fold N in Mv. set (M := SF2R m) in *.
  assert (MN : - (bpow (-52) * N) <= M - N /\ M - N <= bpow (-52) * N).
  { destruct Mv as [-> | (e2 & Lo2 & Hi2 & [-> | D2'])].
    - nra.
    - rewrite (bpow_shift52 (-1074)) in Lo2, Hi2. change (-1074 + 52)%Z with (-1022)%Z in *.
      assert (bpow (-52) * bpow (-1022) <= bpow (-52) * N)
        by (apply Rmult_le_compat_l; lra).
      split; lra.
    - rewrite (bpow_shift52 e2) in Lo2, Hi2.
      assert (bpow (-52) * bpow (e2 + 52) <= bpow (-52) * N)
        by (apply Rmult_le_compat_l; lra).
      split; lra. }
  destruct MN as [MN1 MN2].
  destruct (advance_chain (C - P) D N M ltac:(lra) D1 D2 ND1 ND2 MN1 MN2) as [T1 T2].
  (* prevEndX *)
  pose proof (SFadd_nearest p m Vp Vm Fp Fm) as Ne. rewrite <- Se in Ne. fold P M in Ne.
  pose proof (SF2R_bound p Vp) as Pb. fold P in Pb.
  assert (Fe : finiteSF e = true \/ e = S754_infinity false).
  { destruct Ne as [(s & Ee & Ov) | (F & _)]; [right | left; exact F].
    destruct s; [exfalso | exact Ee]. unfold overflowBound in Ov.
    pose proof (bpow_gt_0 971). lra. }
  destruct Fe as [Fe | Ee]; [|apply Inf, Ee].
  assert (Gap : C - SF2R e <= 2 * (7 / 2 * bpow (-52) * N)).
  { apply (gap_after_rounding C (P + M) _ e); try assumption; try lra.
    intros e' He'. apply float_grid; assumption. }
  set (E := SF2R e) in *.
  (* half the advance *)
  pose proof (SF2R_bound w Vw) as Wb. fold W in Wb.
  destruct (valid_finite_real false mw ew ltac:(rewrite <- Ew; exact Vw)) as (Ewb & _ & _).
  assert (Hh : finiteSF h = true /\ W / 2 - bpow (-52) * W <= SF2R h).
  { destruct (SFmul_faithful mw ew 4503599627370496 (-53))
      as [(_ & [Ov | Ov]) | (Fh & _ & Hv)].
    - lia.
    - exfalso. rewrite SF2R_half, <- Ew in Ov. fold W in Ov.
      pose proof (bpow_gt_0 971). rewrite bpow_53 in *. lra.
    - rewrite <- Sh in Fh, Hv. split; [exact Fh|].
      rewrite SF2R_half, <- Ew in Hv. fold W in Hv.
      destruct Hv as [-> | (e3 & Lo3 & Hi3 & [-> | D3])].
      + nra.
      + rewrite (bpow_shift52 (-1074)) in Lo3, Hi3.
        change (-1074 + 52)%Z with (-1022)%Z in *.
        assert (bpow (-52) * bpow (-1022) <= bpow (-52) * W)
          by (apply Rmult_le_compat_l; lra).
        lra.
      + rewrite (bpow_shift52 e3) in Lo3, Hi3.
        assert (bpow (-52) * bpow (e3 + 52) <= bpow (-52) * (W * / 2))
          by (apply Rmult_le_compat_l; lra).
        rewrite bpow_m52 in *. lra. }
  destruct Hh as [Fh Hlo]. set (H := SF2R h) in *.
  (* the gap *)
  pose proof (SFsub_nearest c e Vc Ve Fc Fe) as Ng. rewrite <- Sg in Ng. fold C E in Ng.
  assert (Fg : finiteSF g = true \/ g = S754_infinity true).
  { destruct Ng as [(s & Eg & Ov) | (F & _)]; [right | left; exact F].
    destruct s; [exact Eg | exfalso]. unfold overflowBound in Ov.
    pose proof (bpow_gt_0 971). rewrite bpow_53, bpow_m52 in *. lra. }
  destruct Fg as [Fg | ->]; [|apply SFltb_neg_infinity].
  destruct (nearestTo_upper _ _ Ng Fg) as [G1 G2].
  destruct (SFltb h g) eqn:L; [exfalso | reflexivity].
  pose proof (SFltb_real h g Vh Vg Fh Fg L) as HG. fold H in HG.
  rewrite bpow_m52 in *.
  destruct (Rle_lt_dec (C - E) 0) as [Le | Gt];
    [specialize (G1 Le) | specialize (G2 Gt)]; lra.
Qed.

End RoundingError.

(** ** C10: rows of exactly two runs *)

Lemma f64_normal_positive (w : float) :
  (0x1p-1022 <=? w)%float = true -> (0 <? w)%float = true.
Proof.
  rewrite FloatAxioms.leb_spec, FloatAxioms.ltb_spec.
  change (Prim2SF 0x1p-1022) with (S754_finite false 4503599627370496 (-1074)).
  change (Prim2SF 0) with (S754_zero false).
  destruct (Prim2SF w) as [[]|[]| |[] m e]; cbn; congruence.
Qed.

(** The advance [5 * 2^-1074 / 4] rounds to [2^-1074], so [prevEndX] is
    [4 * 2^-1074] and the gap [2^-1074]; half the width rounds to 0, and
    the gap exceeds it: a space is written between the two runs. *)
Lemma C10_rounding_counterexample :
  (0 <? 0x5p-1074)%float = true
  /\ pdf.estimateMinCharWidth (gopdf.mkText "abcd" 0 700 "F1" 12)
                              [gopdf.mkText "xy" 0x5p-1074 700 "F1" 12]
     = (0x5p-1074 / 4)%float
  /\ (0x5p-1074 / 4 = 0x1p-1074)%float
  /\ (0x5p-1074 - (0 + 4 * 0x1p-1074) = 0x1p-1074)%float
  /\ (0x1p-1074 * 0.5 = 0)%float
  /\ pdf.plainTextRows "" [gopdf.mkRow 700 denormalRow] = Some "abcd xy"
  /\ pdf.plainTextRows "" [gopdf.mkRow 700 denormalRow] <> Some "abcdxy".
Proof.
  repeat split; try (vm_compute; reflexivity).
  vm_compute. discriminate.
Qed.

(** C10 (amended). In a row of exactly two runs with [prev.text] not empty
    and shorter than [2^48] bytes and [curr.x > prev.x], whenever the
    binary64 advance [(curr.x - prev.x) / len(prev.text)] is a normal number
    (at least [2^-1022] and not infinite), it is the [minCharWidth] of the
    row, the runs are taken as [prev] then [curr], the gap
    [curr.x - (prev.x + len(prev.text) * minCharWidth)] does not exceed
    [minCharWidth * 0.5], and no space is written between them. *)
Theorem C10_two_run_row `{RT : Runtime} (position : Z) (prev curr : gopdf.Text)
        (row : list gopdf.Text) :
  Permutation row [prev; curr] ->
  (0 < len (gopdf.S prev) < 2 ^ 48)%Z ->
  (gopdf.X prev <? gopdf.X curr)%float = true ->
  (0x1p-1022 <=? (gopdf.X curr - gopdf.X prev) / float64_of_int (len (gopdf.S prev)))%float
  = true ->
  ((gopdf.X curr - gopdf.X prev) / float64_of_int (len (gopdf.S prev)) <? infinity)%float
  = true ->
  sortSlice pdf.lessX row = [prev; curr]
  /\ pdf.estimateMinCharWidth prev [curr]
     = ((gopdf.X curr - gopdf.X prev) / float64_of_int (len (gopdf.S prev)))%float
  /\ ((gopdf.X curr - gopdf.X prev) / float64_of_int (len (gopdf.S prev)) * 0.5
      <? gopdf.X curr
         - (gopdf.X prev
            + float64_of_int (len (gopdf.S prev))
              * ((gopdf.X curr - gopdf.X prev) / float64_of_int (len (gopdf.S prev)))))%float
     = false
  /\ pdf.plainTextRows "" [gopdf.mkRow position row]
     = Some (gopdf.S prev ++ gopdf.S curr).
Proof.
  intros P Hlen Hlt Hnorm Hfin.
  pose proof (f64_pair_no_space (gopdf.X prev) (gopdf.X curr) (len (gopdf.S prev))
                Hlen Hlt Hnorm Hfin) as Hgap.
  set (minCharWidth :=
         ((gopdf.X curr - gopdf.X prev) / float64_of_int (len (gopdf.S prev)))%float) in *.
  pose proof (f64_normal_positive _ Hnorm) as Hadv. fold minCharWidth in Hadv.
  assert (Hsort : sortSlice pdf.lessX row = [prev; curr]).
  { destruct (sortSlice_pair pdf.lessX curr prev) as [E1 E2].
    - exact Hlt.
    - apply f64_ltb_asym, Hlt.
    - apply f64_ltb_irrefl.
    - apply f64_ltb_irrefl.
    - apply Permutation_sym, Permutation_length_2_inv in P.
      destruct P as [-> | ->]; assumption. }
  assert (Hest : pdf.estimateMinCharWidth prev [curr] = minCharWidth).
  { unfold pdf.estimateMinCharWidth. cbn [pdf.advanceLoop]. unfold pdf.advanceStep.
    destruct (Z.ltb_spec 0 (len (gopdf.S prev))) as [_ | Hn]; [|lia].
    fold minCharWidth. rewrite Hadv. change (0 =? 0)%float with true. cbn [andb orb].
    unfold pdf.fallbackWidth. now rewrite (f64_ltb_not_eqb _ _ Hadv). }
  repeat split; auto.
  rewrite plainTextRows_lines. cbn [map String.concat String.append].
  unfold conservativeLine. cbn [gopdf.Content]. rewrite Hsort, Hest.
  cbn [conservativeSpaces map withSpaces].
  rewrite Hgap. now rewrite string_app_nil_r.
Qed.

(** A run of 49 bytes at 0 and "World" at 1: the advance is [1 / 49],
    [prevEndX] is [0 + 49 * (1 / 49)], the binary64 number just below 1,
    the gap is [2^-53], and no space is written. *)
Lemma C10_two_run_row_witness :
  pdf.plainTextRows ""
    [gopdf.mkRow 700
       [gopdf.mkText "World" 1 700 "F1" 12;
        gopdf.mkText "The quick brown fox jumps over the lazy dog again" 0 700 "F1" 12]]
  = Some "The quick brown fox jumps over the lazy dog againWorld".
Proof.
  refine (proj2 (proj2 (proj2
    (@C10_two_run_row insertionRuntime 700
       (gopdf.mkText "The quick brown fox jumps over the lazy dog again" 0 700 "F1" 12)
       (gopdf.mkText "World" 1 700 "F1" 12)
       [gopdf.mkText "World" 1 700 "F1" 12;
        gopdf.mkText "The quick brown fox jumps over the lazy dog again" 0 700 "F1" 12]
       _ _ _ _ _)))).
  - apply perm_swap.
  - split; reflexivity.
  - reflexivity.
  - reflexivity.
  - reflexivity.
Defined.

(** In that row [prevEndX] is not [curr.x]: the gap is positive, and
    below half the width. *)
Example two_run_row_inexact_end :
  (0 + float64_of_int 49 * (1 / float64_of_int 49) = 0x1.fffffffffffffp-1)%float
  /\ (1 - (0 + float64_of_int 49 * (1 / float64_of_int 49)) = 0x1p-53)%float
  /\ (1 / float64_of_int 49 * 0.5 <? 0x1p-53)%float = false.
Proof. repeat split; vm_compute; reflexivity. Qed.

(** ** The model at work *)

(** The three layouts and the options on the two-page sample document:
    the conservative policy takes the advance [30 / 5 = 6] for the width and
    joins "Hello" and "world"; the stream-order policy, with width
    [10 * 0.5 = 5], finds a gap of [5 > 1.5]; the physical layout puts the
    runs at columns 1 and 5, where "world" overwrites the "o" of "Hello". *)
Example facade_layouts :
  option_map fst (extract.Text sampleDocument [] [])
  = Some ("Helloworld" ++ newline ++ newline ++ "bye"
          ++ newline ++ newline
          ++ "Helloworld" ++ newline ++ newline ++ "bye", None)
  /\ option_map fst
       (extract.Text sampleDocument
          [extract.WithLayout extract.LayoutRaw; extract.WithPageSeparator "|"] [])
     = Some ("Hello world" ++ newline ++ newline ++ "bye"
             ++ "|" ++ "Hello world" ++ newline ++ newline ++ "bye", None)
  /\ option_map fst
       (extract.PageText sampleDocument (crazypdf.mkPage 1)
          [extract.WithLayout extract.LayoutPhysical; extract.WithPageWidth 0] [])
     = Some (" Hellworld" ++ newline ++ " bye", None)
  /\ option_map fst
       (extract.PageText (crazypdf.Close sampleDocument) (crazypdf.mkPage 1) [] [])
     = Some ("", Some ErrDocumentClosed).
Proof. repeat split; vm_compute; reflexivity. Qed.

(** * Further properties

    What the code shows beyond the statements above: the page lookup of a
    document, the [text] command, the options, the magnitude [abs], the
    order of the Lines, the grid, and the string cleaner. *)

(** ** [Document.Page] *)

Lemma buildPages_nth (numPages i : nat) :
  (i < numPages)%nat ->
  nth_error (crazypdf.buildPages numPages) i = Some (crazypdf.mkPage (Z.of_nat i + 1)).
Proof.
  intros H. unfold crazypdf.buildPages.
  rewrite nth_error_map.
  rewrite (nth_error_nth' _ O) by (rewrite length_seq; exact H).
  rewrite seq_nth by exact H. reflexivity.
Qed.

Lemma buildPages_length (numPages : nat) :
  List.length (crazypdf.buildPages numPages) = numPages.
Proof. unfold crazypdf.buildPages. now rewrite length_map, length_seq. Qed.

(** X1. A document built by [Open] has as many pages as its reader
    counts; [Page(index)] returns the page numbered [index + 1] for
    [0 <= index < NumPages()] and [ErrPageOutOfRange], with the index and
    the page count, for any other index; once the document is closed it
    returns [ErrDocumentClosed] for every index, in range or not. *)
Theorem Document_Page_bounds (path : string) (r : gopdf.Reader) (index : Z) :
  let d := crazypdf.Open path r in
  crazypdf.NumPages d = Z.of_nat (gopdf.NumPage r)
  /\ crazypdf.DocumentPage d index
     = (if ((0 <=? index) && (index <? crazypdf.NumPages d))%Z
        then (Some (crazypdf.mkPage (index + 1)), None)
        else (None, Some (crazypdf.ErrPageOutOfRange index (crazypdf.NumPages d))))
  /\ crazypdf.DocumentPage (crazypdf.Close d) index
     = (None, Some (crazypdf.PageErr ErrDocumentClosed)).
Proof.
  cbv zeta. unfold crazypdf.NumPages, crazypdf.DocumentPage.
  cbn [crazypdf.Open crazypdf.Close crazypdf.pages crazypdf.closed].
  rewrite buildPages_length. split; [reflexivity|]. split; [|reflexivity].
  rewrite Z.geb_leb.
  destruct (Z.ltb_spec index 0), (Z.leb_spec 0 index),
    (Z.leb_spec (Z.of_nat (gopdf.NumPage r)) index),
    (Z.ltb_spec index (Z.of_nat (gopdf.NumPage r)));
    cbn [orb andb]; try lia; try reflexivity.
  rewrite buildPages_nth by lia. now rewrite Z2Nat.id by lia.
Qed.

(** ** [parsePageRange] *)

Lemma rangeLoop_in_range (totalPages end_ : Z) (fuel : nat) :
  forall indices i,
    (1 <= i)%Z -> (end_ <= totalPages)%Z ->
    Forall (inRange totalPages) indices ->
    Forall (inRange totalPages) (cli.rangeLoop fuel indices i end_).
Proof.
  induction fuel as [|fuel IH]; intros indices i Hi He Hall; cbn [cli.rangeLoop].
  - exact Hall.
  - destruct (Z.leb_spec i end_); [|exact Hall].
    apply IH; [lia | lia |].
    apply Forall_app. split; [exact Hall|].
    constructor; [unfold inRange; lia | constructor].
Qed.

Lemma rangeLoop_closed (end_ : Z) (fuel : nat) :
  forall indices i,
    (end_ - i + 1 <= Z.of_nat fuel)%Z ->
    cli.rangeLoop fuel indices i end_
    = (indices ++ map (fun k => (i - 1 + Z.of_nat k)%Z)
                      (seq 0 (Z.to_nat (end_ - i + 1))))%list.
Proof.
  induction fuel as [|fuel IH]; intros indices i Hfuel; cbn [cli.rangeLoop].
  - replace (Z.to_nat (end_ - i + 1)) with O by lia. cbn. now rewrite app_nil_r.
  - destruct (Z.leb_spec i end_).
    + rewrite IH by lia.
      replace (Z.to_nat (end_ - i + 1)) with (Datatypes.S (Z.to_nat (end_ - (i + 1) + 1)))
        by lia.
      cbn [seq map]. rewrite <- app_assoc. cbn [app]. f_equal. f_equal.
      * lia.
      * rewrite <- seq_shift, map_map. apply map_ext. intros k. lia.
    + replace (Z.to_nat (end_ - i + 1)) with O by lia. cbn. now rewrite app_nil_r.
Qed.

Lemma all_pages_in_range (n : nat) :
  Forall (inRange (Z.of_nat n)) (map Z.of_nat (seq 0 n)).
Proof.
  rewrite Forall_forall. intros i Hi.
  apply in_map_iff in Hi. destruct Hi as (k & <- & Hk).
  apply in_seq in Hk. unfold inRange. lia.
Qed.

Section PageRange.

Context `{LIB : cli.Library}.

Lemma partsLoop_in_range (totalPages : Z) (parts : list string) :
  forall indices,
    Forall (inRange totalPages) indices ->
    match cli.partsLoop totalPages indices parts with
    | (result, None) => Forall (inRange totalPages) result
    | (result, Some _) => result = []
    end.
Proof.
  induction parts as [|part rest IH]; intros indices Hall; cbn [cli.partsLoop].
  - exact Hall.
  - destruct (cli.TrimSpace part =? "")%string; [apply IH, Hall|].
    destruct (cli.Contains (cli.TrimSpace part) "-").
    + destruct (cli.SscanfRange (cli.TrimSpace part)) as [[start end_]|]; [|reflexivity].
      destruct (Z.ltb_spec start 1); [reflexivity|].
      destruct (Z.ltb_spec end_ 1); [reflexivity|].
      rewrite !Z.gtb_ltb.
      destruct (Z.ltb_spec totalPages start); [reflexivity|].
      destruct (Z.ltb_spec totalPages end_); [reflexivity|].
      cbn [orb].
      destruct (Z.ltb_spec end_ start); [reflexivity|].
      apply IH, rangeLoop_in_range; auto.
    + destruct (cli.SscanfInt (cli.TrimSpace part)) as [page|]; [|reflexivity].
      destruct (Z.ltb_spec page 1); [reflexivity|].
      rewrite Z.gtb_ltb.
      destruct (Z.ltb_spec totalPages page); [reflexivity|].
      cbn [orb]. apply IH, Forall_app. split; [exact Hall|].
      constructor; [unfold inRange; lia | constructor].
Qed.

(** X2. Whatever the page string and whatever [strings.Split],
    [strings.TrimSpace], [strings.Contains] and [fmt.Sscanf] make of it:
    when [parsePageRange] returns no error, every index it returns is a
    valid 0-based index, [0 <= i < totalPages]; when it returns an error
    it returns no index; it panics only on the empty page string with a
    negative page count. *)
Theorem parsePageRange_in_range (pagesStr : string) (totalPages : Z) :
  match cli.parsePageRange pagesStr totalPages with
  | Some (indices, None) => Forall (fun i => (0 <= i < totalPages)%Z) indices
  | Some (indices, Some _) => indices = []
  | None => pagesStr = "" /\ (totalPages < 0)%Z
  end.
Proof.
  unfold cli.parsePageRange.
  destruct (String.eqb_spec pagesStr "") as [-> | Hne].
  - destruct (Z.ltb_spec totalPages 0); [split; [reflexivity | assumption]|].
    pose proof (all_pages_in_range (Z.to_nat totalPages)) as Hall.
    rewrite Z2Nat.id in Hall by assumption. exact Hall.
  - apply (partsLoop_in_range totalPages (cli.Split pagesStr ",") []). constructor.
Qed.

End PageRange.

(** X3. The loop of a range [start-end] appends the indices
    [start - 1, start, ..., end - 1], in ascending order and nothing else
    ([end - start + 1] of them, none when [start > end]); it stops by its
    own test, so more turns allowed change nothing. *)
Theorem rangeLoop_ascending (indices : list Z) (start end_ : Z) (more : nat) :
  cli.rangeLoop (Z.to_nat (end_ - start + 1) + more) indices start end_
  = (indices ++ map (fun k => (start - 1 + Z.of_nat k)%Z)
                    (seq 0 (Z.to_nat (end_ - start + 1))))%list
  /\ List.length (cli.rangeLoop (Z.to_nat (end_ - start + 1)) indices start end_)
     = (List.length indices + Z.to_nat (end_ - start + 1))%nat.
Proof.
  split.
  - apply rangeLoop_closed. lia.
  - rewrite rangeLoop_closed by lia. now rewrite length_app, length_map, length_seq.
Qed.

(** ** The [text] command *)

Section TextCommand.

Context `{RT : Runtime}.

Lemma specAllPages_acc (d : crazypdf.Document) (opts : list extract.Option)
      (pages : list crazypdf.Page) :
  forall acc,
    specAllPages d opts acc pages
    = match specAllPages d opts [] pages with
      | (texts, None) => ((acc ++ texts)%list, None)
      | failure => failure
      end.
Proof.
  induction pages as [|page rest IH]; intros acc; cbn [specAllPages].
  - now rewrite app_nil_r.
  - destruct (snd (specPageText d page opts)); [reflexivity|].
    rewrite (IH (acc ++ _)%list), (IH ([] ++ _)%list).
    destruct (specAllPages d opts [] rest) as [texts [e|]]; [reflexivity|].
    now rewrite <- app_assoc.
Qed.

Lemma specAllPages_length (d : crazypdf.Document) (opts : list extract.Option)
      (pages : list crazypdf.Page) :
  forall texts,
    specAllPages d opts [] pages = (texts, None) ->
    List.length texts = List.length pages.
Proof.
  induction pages as [|page rest IH]; intros texts; cbn [specAllPages].
  - intros [= <-]. reflexivity.
  - destruct (snd (specPageText d page opts)); [discriminate|].
    rewrite specAllPages_acc.
    destruct (specAllPages d opts [] rest) as [texts' [e|]]; [discriminate|].
    intros [= <-]. cbn. now rewrite (IH texts').
Qed.

Lemma specAllPages_failure (d : crazypdf.Document) (opts : list extract.Option)
      (pages : list crazypdf.Page) :
  forall acc texts e,
    specAllPages d opts acc pages = (texts, Some e) ->
    texts = [] /\ exists n cause, e = ErrFailedToExtract n cause.
Proof.
  induction pages as [|p ps IH]; intros acc texts e; cbn [specAllPages].
  - discriminate.
  - destruct (snd (specPageText d p opts)) as [c|]; [|apply IH].
    intros [= <- <-]. eauto.
Qed.

Lemma concat_separator_cons (sep text : string) (texts : list string) :
  String.concat sep (text :: texts)
  = text ++ match texts with [] => "" | _ :: _ => sep ++ String.concat sep texts end.
Proof. destruct texts; cbn; [now rewrite string_app_nil_r | reflexivity]. Qed.

(** The page loop of the command on valid indices: it never fails to get
    a page, and does what the loop of [AllPages] does on the pages
    selected. *)
Lemma pagesLoop_run (path : string) (r : gopdf.Reader) (opts : list extract.Option)
      (indices : list Z) :
  let d := crazypdf.Open path r in
  forall result t,
    Forall (inRange (crazypdf.NumPages d)) indices ->
    cli.pagesLoop d opts result indices t
    = Some (match specAllPages d opts [] (map pageAt indices) with
            | (texts, None) => inl (result ++ String.concat pageSeparator texts)
            | failure => exitOf failure
            end,
            (t ++ flat_map (specPageAccesses d)
                           (pagesReached d opts (map pageAt indices)))%list).
Proof.
  intros d. induction indices as [|index rest IH]; intros result t Hall.
  - cbn. unfold ret. now rewrite string_app_nil_r, app_nil_r.
  - inversion Hall as [|? ? Hin Hrest]; subst.
    cbn [map cli.pagesLoop specAllPages pagesReached].
    unfold crazypdf.DocumentPage. fold (crazypdf.NumPages d).
    unfold inRange in Hin.
    assert (HN : crazypdf.NumPages d = Z.of_nat (gopdf.NumPage r))
      by (unfold crazypdf.NumPages; cbn; now rewrite buildPages_length).
    change (crazypdf.closed d) with false. cbv iota. rewrite Z.geb_leb.
    destruct (Z.ltb_spec index 0); [lia|].
    destruct (Z.leb_spec (crazypdf.NumPages d) index); [lia|].
    cbn [orb]. change (crazypdf.pages d) with (crazypdf.buildPages (gopdf.NumPage r)).
    rewrite buildPages_nth, Z2Nat.id by lia.
    unfold bind at 1. cbn [orPanic]. unfold bind at 1. rewrite PageText_run.
    fold (pageAt index).
    destruct (specPageText d (pageAt index) opts) as [text [e|]] eqn:E; cbn [fst snd].
    + unfold ret. cbn [flat_map crazypdf.Number pageAt exitOf]. now rewrite app_nil_r.
    + rewrite IH by exact Hrest.
      rewrite (specAllPages_acc d opts _ ([] ++ [text])%list).
      destruct (specAllPages d opts [] _) as [texts [e|]] eqn:E2.
      * cbn [flat_map]. now rewrite app_assoc.
      * cbn [flat_map app]. rewrite app_assoc. f_equal. f_equal.
        rewrite concat_separator_cons, !string_app_assoc.
        apply specAllPages_length in E2. rewrite length_map in E2.
        destruct rest, texts; try discriminate; reflexivity.
Qed.

Context `{LIB : cli.Library}.

(** X4. The [text] command on a document just opened, for any flags:
    when the page string is refused the command exits with the parse
    error, before any page is read; otherwise it does on the selected
    pages, in the order selected, what the loop of [AllPages] does on
    them with the option [WithLayout] of the flags: it prints their texts
    joined by two newlines, or exits at the first page whose extraction
    fails, naming that page.  The exit "Error accessing page" is never
    taken, and the command does not panic. *)
Theorem textCommand_selected_pages (path : string) (r : gopdf.Reader)
        (layout raw : bool) (pagesFlag : string) (t : Trace) :
  let d := crazypdf.Open path r in
  let opts := [extract.WithLayout (cli.layoutModeOf layout raw)] in
  match cli.parsePageRange pagesFlag (crazypdf.NumPages d) with
  | Some (indices, None) =>
      cli.textCommand d layout raw pagesFlag t
      = option_map (fun '(res, t') => (exitOf res, t'))
                   (extract.allPagesLoop d opts [] (map pageAt indices) t)
  | Some (_, Some e) =>
      cli.textCommand d layout raw pagesFlag t = Some (inr (cli.ExitParsingRange e), t)
  | None => False
  end.
Proof.
  intros d opts. unfold cli.textCommand.
  assert (Hr : match cli.parsePageRange pagesFlag (crazypdf.NumPages d) with
               | Some (indices, None) => Forall (inRange (crazypdf.NumPages d)) indices
               | Some (_, Some _) => True
               | None => (crazypdf.NumPages d < 0)%Z
               end).
  { unfold cli.parsePageRange. destruct (pagesFlag =? "")%string.
    - destruct (Z.ltb_spec (crazypdf.NumPages d) 0); [assumption|].
      pose proof (all_pages_in_range (Z.to_nat (crazypdf.NumPages d))) as Hall.
      rewrite Z2Nat.id in Hall by assumption. exact Hall.
    - pose proof (partsLoop_in_range (crazypdf.NumPages d) (cli.Split pagesFlag ",") []
                                     (Forall_nil _)) as Hp.
      destruct (cli.partsLoop _ _ _) as [indices [e|]]; [exact I | exact Hp]. }
  destruct (cli.parsePageRange pagesFlag (crazypdf.NumPages d))
    as [[indices [e|]]|] eqn:E.
  - reflexivity.
  - unfold bind. cbn [orPanic].
    unfold d at 1. rewrite pagesLoop_run by exact Hr.
    rewrite allPagesLoop_run. cbn [option_map]. fold d opts.
    destruct (specAllPages d opts [] (map pageAt indices)) as [texts [e|]];
      reflexivity.
  - unfold crazypdf.NumPages in Hr. lia.
Qed.

(** The whole command is the command up to its output string, followed
    by the output step. *)
Lemma runTextCommand_deliver (WriteFile : string -> string -> option string)
      (doc : crazypdf.Document) (layout raw : bool) (pagesFlag outputFile : string)
      (t : Trace) :
  cli.runTextCommand WriteFile doc layout raw pagesFlag outputFile t
  = match cli.textCommand doc layout raw pagesFlag t with
    | Some (inl output, t') =>
        match cli.parsePageRange pagesFlag (crazypdf.NumPages doc) with
        | Some (pageIndices, _) =>
            Some (inl (cli.deliver WriteFile outputFile output
                                   (Z.of_nat (List.length pageIndices))), t')
        | None => None
        end
    | Some (inr e, t') => Some (inr e, t')
    | None => None
    end.
Proof.
  unfold cli.runTextCommand, cli.textCommand, bind.
  destruct (cli.parsePageRange pagesFlag (crazypdf.NumPages doc))
    as [[pageIndices [e|]]|]; cbn [orPanic]; try reflexivity.
  destruct (cli.pagesLoop doc _ "" pageIndices t) as [[[output | e] t']|];
    reflexivity.
Qed.

(** X5. Without a page string the command delivers what [extract.Text]
    returns with the layout of the flags, having read the same pages.
    When [Text] succeeds with a text, the command writes exactly that text
    to the output file when one is named (or exits with the error of the
    write), and otherwise prints the text, followed by one newline unless
    the text already ends with a newline.  When [Text] fails, which it
    does with the empty string and a wrapped page error, the command exits
    on that page with that cause and delivers nothing. *)
Theorem textCommand_all_pages (WriteFile : string -> string -> option string)
        (path : string) (r : gopdf.Reader)
        (layout raw : bool) (outputFile : string) (t : Trace) :
  let d := crazypdf.Open path r in
  let opts := [extract.WithLayout (cli.layoutModeOf layout raw)] in
  exists res t',
    extract.Text d opts t = Some (res, t')
    /\ match res with
       | (text, None) =>
           cli.runTextCommand WriteFile d layout raw "" outputFile t
           = Some (inl (if (outputFile =? "")%string
                        then cli.Printed
                               (if cli.HasSuffix text newline then text
                                else text ++ newline)
                        else match WriteFile outputFile text with
                             | Some cause => cli.ExitWriting cause
                             | None =>
                                 cli.Written outputFile text
                                             (Z.of_nat (gopdf.NumPage r))
                             end),
                   t')
       | (text, Some e) =>
           text = ""
           /\ exists n cause,
               e = ErrFailedToExtract n cause
               /\ cli.runTextCommand WriteFile d layout raw "" outputFile t
                  = Some (inr (cli.ExitExtracting n cause), t')
       end.
Proof.
  intros d opts.
  assert (HN : crazypdf.NumPages d = Z.of_nat (gopdf.NumPage r))
    by (unfold crazypdf.NumPages; cbn; now rewrite buildPages_length).
  assert (Hpages : map pageAt (map Z.of_nat (seq 0 (gopdf.NumPage r))) = crazypdf.pages d).
  { cbn. unfold crazypdf.buildPages. rewrite map_map. reflexivity. }
  assert (Hparse : cli.parsePageRange "" (crazypdf.NumPages d)
                   = Some (map Z.of_nat (seq 0 (gopdf.NumPage r)), None)).
  { unfold cli.parsePageRange. cbn [String.eqb]. rewrite HN.
    destruct (Z.ltb_spec (Z.of_nat (gopdf.NumPage r)) 0); [lia|].
    now rewrite Nat2Z.id. }
  assert (Hcmd :
    cli.textCommand d layout raw "" t
    = Some (match specAllPages d opts [] (crazypdf.pages d) with
            | (texts, None) => inl ("" ++ String.concat pageSeparator texts)
            | failure => exitOf failure
            end,
            (t ++ flat_map (specPageAccesses d)
                           (pagesReached d opts (crazypdf.pages d)))%list)).
  { unfold cli.textCommand. rewrite Hparse. unfold bind. cbn [orPanic].
    rewrite <- Hpages. apply pagesLoop_run.
    fold d. rewrite HN. apply all_pages_in_range. }
  rewrite runTextCommand_deliver, Hcmd, Hparse. clear Hcmd.
  rewrite length_map, length_seq.
  unfold extract.Text, extract.AllPages, crazypdf.IsClosed, crazypdf.Pages.
  change (crazypdf.closed d) with false. cbv iota.
  unfold bind. rewrite allPagesLoop_run.
  destruct (specAllPages d opts [] (crazypdf.pages d)) as [texts [e|]] eqn:E.
  - destruct (specAllPages_failure _ _ _ _ _ _ E) as (-> & n & cause & ->).
    eexists _, _. split; [reflexivity|]. split; [reflexivity|].
    exists n, cause. split; reflexivity.
  - eexists _, _. split; [reflexivity|]. cbn [ret]. unfold ret.
    f_equal. f_equal. f_equal. unfold cli.deliver.
    change (extract.PageSeparator (extract.applyOptions opts)) with pageSeparator.
    cbn [String.append].
    destruct (outputFile =? "")%string; cbn [negb]; [|reflexivity].
    f_equal. change (String "010" "") with newline.
    destruct (cli.HasSuffix (String.concat pageSeparator texts) newline);
      cbn [negb]; [apply string_app_nil_r | reflexivity].
Qed.

End TextCommand.

(** ** The facade, once more *)

Section FacadeMore.

Context `{RT : Runtime}.

Lemma pageSucceeds_spec (d : crazypdf.Document) (opts : list extract.Option)
      (page : crazypdf.Page) :
  pageSucceeds d opts page ->
  snd (specPageText d page opts) = None
  /\ specPageAccesses d page
     = [AccessPage (crazypdf.Number page); AccessRows (crazypdf.Number page)].
Proof.
  intros H. destruct (H []) as (text & t' & E).
  rewrite PageText_run in E. injection E as E _.
  unfold specPageText, specPageAccesses in *.
  destruct (crazypdf.closed d); [discriminate|].
  destruct (gopdf.Page (crazypdf.reader d) (crazypdf.Number page));
    try discriminate. split; [now rewrite E | reflexivity].
Qed.

Lemma specAllPages_success (d : crazypdf.Document) (opts : list extract.Option)
      (pages : list crazypdf.Page) :
  forall acc,
    Forall (pageSucceeds d opts) pages ->
    specAllPages d opts acc pages
    = ((acc ++ map (fun page => fst (specPageText d page opts)) pages)%list, None)
    /\ pagesReached d opts pages = pages.
Proof.
  induction pages as [|page rest IH]; intros acc Hall.
  - cbn. now rewrite app_nil_r.
  - inversion Hall as [|? ? Hp Hrest]; subst.
    apply pageSucceeds_spec in Hp. destruct Hp as [Hp _].
    cbn [specAllPages pagesReached map]. rewrite Hp.
    destruct (IH (acc ++ [fst (specPageText d page opts)])%list Hrest) as [E1 E2].
    rewrite E1, E2, <- app_assoc. auto.
Qed.

(** X6. When [PageText] succeeds on every page of an open document,
    [AllPages] returns exactly one text per page, in page order, each the
    text [PageText] returns for that page; [Text] returns these texts
    joined by the configured separator; and both ask the row source for
    each page once, in page order, and for nothing else. *)
Theorem AllPages_every_page (d : crazypdf.Document) (opts : list extract.Option)
        (t : Trace) :
  crazypdf.closed d = false ->
  Forall (pageSucceeds d opts) (crazypdf.pages d) ->
  exists texts,
    let t' := (t ++ flat_map (fun page => [AccessPage (crazypdf.Number page);
                                           AccessRows (crazypdf.Number page)])
                             (crazypdf.pages d))%list in
    extract.AllPages d opts t = Some ((texts, None), t')
    /\ Forall2 (fun page text =>
                  forall t0, exists t1,
                      extract.PageText d page opts t0 = Some ((text, None), t1))
               (crazypdf.pages d) texts
    /\ extract.Text d opts t
       = Some ((String.concat (extract.PageSeparator (extract.applyOptions opts)) texts,
                None), t').
Proof.
  intros Hopen Hall.
  exists (map (fun page => fst (specPageText d page opts)) (crazypdf.pages d)).
  cbv zeta.
  assert (Hacc : flat_map (specPageAccesses d) (crazypdf.pages d)
                 = flat_map (fun page => [AccessPage (crazypdf.Number page);
                                          AccessRows (crazypdf.Number page)])
                            (crazypdf.pages d)).
  { induction Hall as [|page rest Hp Hrest IH]; [reflexivity|].
    cbn [flat_map]. rewrite IH. apply pageSucceeds_spec in Hp.
    now rewrite (proj2 Hp). }
  assert (E : extract.AllPages d opts t
              = Some ((map (fun page => fst (specPageText d page opts)) (crazypdf.pages d),
                       None),
                      (t ++ flat_map (fun page => [AccessPage (crazypdf.Number page);
                                                   AccessRows (crazypdf.Number page)])
                                     (crazypdf.pages d))%list)).
  { unfold extract.AllPages, crazypdf.IsClosed, crazypdf.Pages. rewrite Hopen.
    rewrite allPagesLoop_run.
    destruct (specAllPages_success d opts (crazypdf.pages d) [] Hall) as [E1 E2].
    now rewrite E1, E2, Hacc. }
  split; [exact E|]. split.
  - clear E Hacc. induction Hall as [|page rest Hp Hrest IH]; constructor; [|exact IH].
    intros t0. rewrite PageText_run. apply pageSucceeds_spec in Hp.
    destruct Hp as [Hp _].
    destruct (specPageText d page opts) as [text err]. cbn in Hp. subst err.
    eexists. reflexivity.
  - unfold extract.Text, crazypdf.IsClosed. rewrite Hopen. unfold bind.
    now rewrite E.
Qed.

(** X7. [PageText] fails exactly when the document is closed, the page
    is null or the rows of the page cannot be parsed, whatever the options.
    On a closed document it reads nothing and returns [ErrDocumentClosed];
    on a null page it reads the page only and returns the error of the
    null page with the page number; on a page whose rows cannot be parsed
    it reads the page and then its rows and returns the error of the row
    source, wrapped with the page number; otherwise it reads the page and
    then its rows and returns no error.  Every failure comes with the
    empty string. *)
Theorem PageText_failure_any_layout (d : crazypdf.Document) (page : crazypdf.Page)
        (opts : list extract.Option) (t : Trace) :
  let n := crazypdf.Number page in
  exists text err touched,
    extract.PageText d page opts t = Some ((text, err), (t ++ touched)%list)
    /\ if crazypdf.closed d
       then text = "" /\ err = Some ErrDocumentClosed /\ touched = []
       else match gopdf.Page (crazypdf.reader d) n with
            | gopdf.NullPage =>
                text = "" /\ err = Some (ErrPageNull n) /\ touched = [AccessPage n]
            | gopdf.FailingPage cause =>
                text = ""
                /\ (exists what, err = Some (ErrFailedToGet what n (ErrRowSource cause)))
                /\ touched = [AccessPage n; AccessRows n]
            | gopdf.RowsPage _ =>
                err = None /\ touched = [AccessPage n; AccessRows n]
            end.
Proof.
  intros n. rewrite PageText_run.
  unfold specPageText, specPageAccesses. fold n.
  destruct (crazypdf.closed d).
  - eexists _, _, _. split; [reflexivity|]. auto.
  - destruct (gopdf.Page (crazypdf.reader d) n);
      eexists _, _, _; (split; [reflexivity|]); eauto.
Qed.

(** X8. [PageTextByRow] and [PageStyledTexts] read the page alike and
    fail alike; when they succeed, the styled texts are the words of the
    rows, row after row and in the order of each row, with the same text,
    coordinates, font and font size. *)
Theorem rows_and_styled_texts_agree (r : gopdf.Reader) (pageNum : Z) (t : Trace) :
  exists rows styledTexts err1 err2 t',
    pdf.PageTextByRow r pageNum t = Some ((rows, err1), t')
    /\ pdf.PageStyledTexts r pageNum t = Some ((styledTexts, err2), t')
    /\ (err1 = None <-> err2 = None)
    /\ map (fun w => (pdf.wS w, pdf.wX w, pdf.wY w, pdf.wFont w, pdf.wFontSize w))
           (flat_map pdf.Words rows)
       = map (fun st => (pdf.Text st, pdf.stX st, pdf.stY st, pdf.stFont st,
                         pdf.stFontSize st))
             styledTexts.
Proof.
  unfold pdf.PageTextByRow, pdf.PageStyledTexts, bind.
  rewrite !getTextByRow_run.
  destruct (gopdf.Page r pageNum) as [| cause | rows].
  - eexists [], [], _, _, _. repeat split; try reflexivity; discriminate.
  - eexists [], [], _, _, _. repeat split; try reflexivity; discriminate.
  - eexists _, _, _, _, _. split; [reflexivity|]. split; [reflexivity|].
    split; [tauto|].
    unfold pdf.textRowsOf, pdf.styledTextsOf.
    induction rows as [|row rows IH]; [reflexivity|].
    cbn [map flat_map pdf.Words]. rewrite !map_app, IH. f_equal.
    rewrite !map_map. reflexivity.
Qed.

(** *** The reach of each option *)

Lemma applyOptions_snoc (opts : list extract.Option) (opt : extract.Option) :
  extract.applyOptions (opts ++ [opt]) = opt (extract.applyOptions opts).
Proof. unfold extract.applyOptions. now rewrite fold_left_app. Qed.

Lemma PageText_config (d : crazypdf.Document) (page : crazypdf.Page)
      (opts1 opts2 : list extract.Option) (t : Trace) :
  extract.Layout (extract.applyOptions opts1) = extract.Layout (extract.applyOptions opts2) ->
  (extract.Layout (extract.applyOptions opts1) = extract.LayoutPhysical ->
   extract.PageWidth (extract.applyOptions opts1)
   = extract.PageWidth (extract.applyOptions opts2)) ->
  extract.PageText d page opts1 t = extract.PageText d page opts2 t.
Proof.
  intros HL HW. unfold extract.PageText. cbv zeta. rewrite <- HL.
  destruct (Z.eqb_spec (extract.Layout (extract.applyOptions opts1)) extract.LayoutSimple);
    [reflexivity|].
  destruct (Z.eqb_spec (extract.Layout (extract.applyOptions opts1)) extract.LayoutRaw);
    [reflexivity|].
  destruct (Z.eqb_spec (extract.Layout (extract.applyOptions opts1)) extract.LayoutPhysical);
    [|reflexivity].
  now rewrite HW.
Qed.

Lemma allPagesLoop_config (d : crazypdf.Document) (opts1 opts2 : list extract.Option)
      (pages : list crazypdf.Page) :
  (forall page t, extract.PageText d page opts1 t = extract.PageText d page opts2 t) ->
  forall result t,
    extract.allPagesLoop d opts1 result pages t
    = extract.allPagesLoop d opts2 result pages t.
Proof.
  intros H. induction pages as [|page rest IH]; intros result t;
    cbn [extract.allPagesLoop]; [reflexivity|].
  unfold bind. rewrite H.
  destruct (extract.PageText d page opts2 t) as [[[text [e|]] t']|]; try reflexivity.
  apply IH.
Qed.

(** X9. The reach of each option.  [WithPageSeparator] changes nothing
    of what [PageText] and [AllPages] return; [WithPageWidth] changes
    nothing of what [PageText] returns unless the layout in force is the
    physical one; and after a last [WithLayout] of a mode other than the
    physical one, no option given before it matters to [PageText]. *)
Theorem options_scope (d : crazypdf.Document) (page : crazypdf.Page)
        (opts : list extract.Option) (t : Trace) :
  (forall sep,
      extract.PageText d page (opts ++ [extract.WithPageSeparator sep]) t
      = extract.PageText d page opts t
      /\ extract.AllPages d (opts ++ [extract.WithPageSeparator sep]) t
         = extract.AllPages d opts t)
  /\ (forall width,
         extract.Layout (extract.applyOptions opts) <> extract.LayoutPhysical ->
         extract.PageText d page (opts ++ [extract.WithPageWidth width]) t
         = extract.PageText d page opts t)
  /\ (forall mode others,
         mode <> extract.LayoutPhysical ->
         extract.PageText d page (opts ++ [extract.WithLayout mode]) t
         = extract.PageText d page (others ++ [extract.WithLayout mode]) t).
Proof.
  split; [|split].
  - intros sep.
    assert (H : forall p t0,
               extract.PageText d p (opts ++ [extract.WithPageSeparator sep]) t0
               = extract.PageText d p opts t0).
    { intros p t0. apply PageText_config; rewrite applyOptions_snoc; reflexivity. }
    split; [apply H|].
    unfold extract.AllPages. destruct (crazypdf.IsClosed d); [reflexivity|].
    now apply allPagesLoop_config.
  - intros width Hl. apply PageText_config; rewrite applyOptions_snoc; [reflexivity|].
    cbn. intros E. contradiction.
  - intros mode others Hm. apply PageText_config; rewrite !applyOptions_snoc.
    + reflexivity.
    + cbn. intros E. contradiction.
Qed.

End FacadeMore.

Lemma AllPages_every_page_witness :
  crazypdf.closed sampleDocument = false
  /\ Forall (pageSucceeds sampleDocument []) (crazypdf.pages sampleDocument)
  /\ exists texts,
      extract.Text sampleDocument [] []
      = Some ((String.concat (extract.PageSeparator (extract.applyOptions [])) texts,
               None),
              [AccessPage 1; AccessRows 1; AccessPage 2; AccessRows 2]).
Proof.
  assert (H : Forall (pageSucceeds sampleDocument []) (crazypdf.pages sampleDocument)).
  { repeat constructor; intros t; rewrite PageText_run; eexists _, _; reflexivity. }
  split; [reflexivity|]. split; [exact H|].
  destruct (AllPages_every_page sampleDocument [] [] eq_refl H) as (texts & _ & _ & E).
  exists texts. exact E.
Defined.

(** ** [abs] and the tolerance test *)

Lemma binary_round_aux_opp (sx : bool) (mx ex : Z) (lx : location) :
  SFopp (binary_round_aux prec emax sx mx ex lx)
  = binary_round_aux prec emax (negb sx) mx ex lx.
Proof.
  unfold binary_round_aux.
  destruct (shr_fexp prec emax mx ex lx) as [mrs' e'].
  destruct (shr_fexp prec emax _ e' loc_Exact) as [mrs'' e''].
  destruct (shr_m mrs''); try reflexivity.
  destruct (Z.leb e'' (emax - prec)); reflexivity.
Qed.

Lemma binary_round_opp (sx : bool) (mx : positive) (ex : Z) :
  SFopp (binary_round prec emax sx mx ex) = binary_round prec emax (negb sx) mx ex.
Proof.
  unfold binary_round. destruct (shl_align mx ex _) as [mz ez].
  apply binary_round_aux_opp.
Qed.

Lemma binary_normalize_opp (m e : Z) :
  SFabs (binary_normalize prec emax (- m) e false)
  = SFabs (binary_normalize prec emax m e false).
Proof.
  destruct m as [|p|p]; cbn [Z.opp binary_normalize]; [reflexivity| |].
  - rewrite <- (binary_round_opp false). cbn [negb].
    now destruct (binary_round prec emax false p e) as [[]|[]| |[] ? ?].
  - rewrite <- (binary_round_opp false). cbn [negb].
    now destruct (binary_round prec emax false p e) as [[]|[]| |[] ? ?].
Qed.

(** The magnitude of a difference does not depend on the order of its
    terms. *)
Lemma SFsub_swap (x y : spec_float) :
  SFabs (SF64sub x y) = SFabs (SF64sub y x).
Proof.
  destruct x as [sx|sx| |sx mx ex], y as [sy|sy| |sy my ey];
    try (destruct sx); try (destruct sy); try reflexivity.
  all: unfold SF64sub, SFsub; rewrite (Z.min_comm ey ex);
    set (ez := Z.min ex ey);
    set (a := cond_Zopp _ (Z.pos (fst (shl_align mx ex ez))));
    set (b := cond_Zopp _ (Z.pos (fst (shl_align my ey ez))));
    replace (b - a)%Z with (- (a - b))%Z by lia;
    now rewrite binary_normalize_opp.
Qed.

Lemma SFltb_specAbs (m : positive) (e : Z) (x y : spec_float) :
  SFabs x = SFabs y ->
  SFltb (S754_finite false m e) (specAbs x) = SFltb (S754_finite false m e) (specAbs y).
Proof.
  destruct x as [sx|sx| |sx mx ex], y as [sy|sy| |sy my ey]; cbn;
    try discriminate; try reflexivity.
  intros [= -> ->]. reflexivity.
Qed.

Lemma SFsub_self (x : spec_float) :
  match SF64sub x x with
  | S754_zero _ | S754_nan => True
  | _ => False
  end.
Proof.
  destruct x as [s|s| |s m e]; try (destruct s; exact I); [exact I|].
  unfold SF64sub, SFsub. rewrite Z.min_id.
  unfold shl_align. rewrite Z.sub_diag. exact I.
Qed.

(** The difference of two equal values is a zero, or a NaN. *)
Lemma SFsub_eqb (x y : spec_float) :
  SFeqb x y = true ->
  match SF64sub x y with
  | S754_zero _ | S754_nan => True
  | _ => False
  end.
Proof.
  unfold SFeqb.
  destruct x as [sx|sx| |sx mx ex], y as [sy|sy| |sy my ey];
    try (destruct sx); try (destruct sy); try discriminate; try (intros; exact I).
  - cbn [SFcompare]. destruct (Z.compare_spec ex ey) as [-> | |]; try discriminate.
    rewrite Pos.compare_cont_spec. cbn [Pos.switch_Eq].
    destruct (Pos.compare_spec mx my) as [-> | |]; try discriminate.
    intros _. apply (SFsub_self (S754_finite true my ey)).
  - cbn [SFcompare]. destruct (Z.compare_spec ex ey) as [-> | |]; try discriminate.
    rewrite Pos.compare_cont_spec. cbn [Pos.switch_Eq].
    destruct (Pos.compare_spec mx my) as [-> | |]; try discriminate.
    intros _. apply (SFsub_self (S754_finite false my ey)).
Qed.

(** Equal ordinates are within the tolerance of each other. *)
Lemma f64_eqb_within_tolerance (a b : float) :
  (a =? b)%float = true -> (pdf.yTolerance <? pdf.abs (a - b))%float = false.
Proof.
  rewrite FloatAxioms.eqb_spec. intros H. apply SFsub_eqb in H.
  rewrite FloatAxioms.ltb_spec, abs_value, FloatAxioms.sub_spec.
  change (Prim2SF pdf.yTolerance) with (S754_finite false 4503599627370496 (-51)).
  now destruct (SF64sub (Prim2SF a) (Prim2SF b)) as [[]|[]| |[] ? ?].
Qed.

(** X10. [abs] returns the magnitude of every binary64 value but a
    negative zero, which it returns as it is, a zero being not less than
    0; a NaN comes back a NaN.  So no value it returns is less than 0. *)
Theorem abs_magnitude (x : float) :
  Prim2SF (pdf.abs x)
  = match Prim2SF x with
    | S754_zero s => S754_zero s
    | _ => Prim2SF (PrimFloat.abs x)
    end
  /\ (pdf.abs x <? 0)%float = false.
Proof.
  split.
  - rewrite abs_value, FloatAxioms.abs_spec. unfold specAbs. now destruct (Prim2SF x).
  - rewrite FloatAxioms.ltb_spec, abs_value.
    change (Prim2SF 0) with (S754_zero false).
    now destruct (Prim2SF x) as [[]|[]| |[] ? ?].
Qed.

(** X11. The tolerance test of the line assembler is symmetric: whether
    [|a - b| > 2.0] holds, as the code computes it in binary64, does not
    depend on which of the two ordinates is the anchor. *)
Theorem tolerance_symmetric (a b : float) :
  (pdf.yTolerance <? pdf.abs (a - b))%float = (pdf.yTolerance <? pdf.abs (b - a))%float.
Proof.
  rewrite !FloatAxioms.ltb_spec, !abs_value, !FloatAxioms.sub_spec.
  change (Prim2SF pdf.yTolerance) with (S754_finite false 4503599627370496 (-51)).
  apply SFltb_specAbs, SFsub_swap.
Qed.

(** ** Lines come out from the top of the page down *)

Lemma StronglySorted_app_inv {A} (R : A -> A -> Prop) (l1 l2 : list A) :
  StronglySorted R (l1 ++ l2) ->
  StronglySorted R l1 /\ StronglySorted R l2
  /\ forall a b, In a l1 -> In b l2 -> R a b.
Proof.
  induction l1 as [|x l1 IH]; cbn [app]; intros S.
  - split; [constructor|]. split; [exact S|]. intros a b [].
  - inversion S as [|? ? S' F]; subst.
    destruct (IH S') as (S1 & S2 & C). rewrite Forall_forall in F.
    split; [|split; [exact S2|]].
    + constructor; [exact S1|]. rewrite Forall_forall. intros b Hb.
      apply F, in_or_app. now left.
    + intros a b [<- | Ha] Hb; [|now apply C].
      apply F, in_or_app. now right.
Qed.

Lemma pageOrder_not_above (a b : pdf.StyledText) :
  pageOrder a b -> (pdf.stY a <? pdf.stY b)%float = false.
Proof.
  intros [H | [H _]].
  - now apply f64_ltb_asym.
  - destruct (pdf.stY a <? pdf.stY b)%float eqn:E; [|reflexivity].
    apply f64_ltb_not_eqb in E. rewrite f64_eqb_sym in E. congruence.
Qed.

Lemma lines_descend (lines : list pdf.line) :
  Forall anchoredLine lines -> separatedLines lines ->
  StronglySorted pageOrder (List.concat (map pdf.texts lines)) ->
  Sorted above lines /\ Forall anchorOnTop lines.
Proof.
  induction lines as [|ln rest IH]; intros Ha Hs Hsorted.
  - split; constructor.
  - inversion Ha as [|? ? Hln Hrest]; subst.
    cbn [separatedLines] in Hs. destruct Hs as [Hnext Hs].
    cbn [map List.concat] in Hsorted.
    apply StronglySorted_app_inv in Hsorted.
    destruct Hsorted as (Sln & Srest & Hcross).
    destruct (IH Hrest Hs Srest) as [IH1 IH2].
    unfold anchoredLine in Hln.
    destruct (pdf.texts ln) as [|first others] eqn:Eln; [contradiction|].
    destruct Hln as [Hy _].
    split; constructor; auto.
    + destruct rest as [|next rest']; constructor.
      destruct (pdf.texts next) as [|f others'] eqn:Enext; [contradiction|].
      inversion Hrest as [|? ? Hnx _]; subst.
      unfold anchoredLine in Hnx. rewrite Enext in Hnx. destruct Hnx as [Hy' _].
      unfold above. rewrite Hy, Hy'.
      assert (P : pageOrder first f).
      { apply Hcross; [now left|]. cbn [map List.concat]. rewrite Enext. now left. }
      destruct P as [P | [P _]]; [exact P|].
      apply f64_eqb_within_tolerance in P. rewrite abs_tolerance in P.
      rewrite <- Hy in P. congruence.
    + unfold anchorOnTop. rewrite Eln, Hy. constructor.
      * apply f64_ltb_irrefl.
      * inversion Sln as [|? ? _ F]; subst.
        eapply Forall_impl; [|exact F]. intros run. apply pageOrder_not_above.
Qed.

Section TopDown.

Context `{RT : Runtime}.

(** X12. When every run has numbers for coordinates, the Lines of the
    physical layout come out from the top of the page down: the anchor of
    each Line is strictly greater than the anchor of every Line after it,
    and no run of a Line lies higher than the Line's anchor. *)
Theorem lines_top_to_bottom (runs : list pdf.StyledText) :
  Forall numericPosition runs ->
  exists lines,
    pdf.groupLines (sortSlice pdf.lessYX runs) = Some lines
    /\ StronglySorted (fun upper lower => (pdf.y lower <? pdf.y upper)%float = true) lines
    /\ Forall (fun ln =>
                 Forall (fun run => (pdf.y ln <? pdf.stY run)%float = false)
                        (pdf.texts ln))
              lines.
Proof.
  intros Hnum. exists (specAssemble (sortSlice pdf.lessYX runs)).
  split; [apply groupLines_spec|].
  destruct (specAssemble_facts (sortSlice pdf.lessYX runs)) as (Ha & Hs & Hc).
  assert (Hsorted : StronglySorted pageOrder (sortSlice pdf.lessYX runs)).
  { assert (Hnum' : Forall numericPosition (sortSlice pdf.lessYX runs)).
    { rewrite Forall_forall in *. intros x Hx. apply Hnum.
      eapply Permutation_in; [apply sortSlice_perm | exact Hx]. }
    eapply StronglySorted_weaken_in;
      [|apply sortSlice_sorted, lessYX_strictWeak, Hnum].
    rewrite Forall_forall in Hnum'. intros x y Hx Hy.
    apply lessYX_false_pageOrder; auto. }
  rewrite <- Hc in Hsorted.
  destruct (lines_descend _ Ha Hs Hsorted) as [H1 H2].
  split; [|exact H2].
  apply Sorted_StronglySorted; [|exact H1].
  intros a b c. unfold above. intros Hab Hbc. eapply f64_ltb_trans; eassumption.
Qed.

End TopDown.

Lemma lines_top_to_bottom_witness :
  Forall numericPosition
         [pdf.mkStyledText "c" 10 100 "F1" 10; pdf.mkStyledText "a" 10 103 "F1" 10;
          pdf.mkStyledText "b" 30 101.5 "F1" 10]
  /\ exists lines,
      pdf.groupLines
        (sortSlice pdf.lessYX
           [pdf.mkStyledText "c" 10 100 "F1" 10; pdf.mkStyledText "a" 10 103 "F1" 10;
            pdf.mkStyledText "b" 30 101.5 "F1" 10]) = Some lines
      /\ StronglySorted (fun upper lower => (pdf.y lower <? pdf.y upper)%float = true)
                        lines.
Proof.
  assert (H : Forall numericPosition
         [pdf.mkStyledText "c" 10 100 "F1" 10; pdf.mkStyledText "a" 10 103 "F1" 10;
          pdf.mkStyledText "b" 30 101.5 "F1" 10]).
  { repeat constructor; vm_compute; discriminate. }
  split; [exact H|].
  destruct (lines_top_to_bottom _ H) as (lines & E & S & _).
  exists lines. split; assumption.
Defined.

(** ** Trimming, once more *)

Lemma spaces_get (k i : nat) : (i < k)%nat -> String.get i (spaces k) = Some " "%char.
Proof.
  revert i; induction k as [|k IH]; intros i Hi; [lia|].
  destruct i; cbn; [reflexivity | apply IH; lia].
Qed.

Lemma spaces_length (k : nat) : String.length (spaces k) = k.
Proof. induction k; cbn; congruence. Qed.

Lemma spaces_add (j k : nat) : spaces j ++ spaces k = spaces (j + k).
Proof. induction j as [|j IH]; cbn; [reflexivity | now rewrite IH]. Qed.

Lemma string_length_app (a b : string) :
  String.length (a ++ b) = (String.length a + String.length b)%nat.
Proof. induction a as [|c a IH]; cbn; [reflexivity | now rewrite IH]. Qed.

Lemma substring_prefix_app (a b : string) : substring 0 (String.length a) (a ++ b) = a.
Proof.
  induction a as [|c a IH]; cbn.
  - destruct b; reflexivity.
  - now rewrite IH.
Qed.

Lemma trimRightLoop_unique (s : string) (m : nat) :
  (m = O \/ String.get (m - 1) s <> Some " "%char) ->
  forall n, (m <= n)%nat ->
            (forall i, (m <= i < n)%nat -> String.get i s = Some " "%char) ->
            pdf.trimRightLoop s n = m.
Proof.
  intros Hm. induction n as [|i IH]; intros Hle Hsp; cbn [pdf.trimRightLoop].
  - lia.
  - destruct (Nat.eq_dec m (Datatypes.S i)) as [-> | Hne].
    + destruct Hm as [Hm | Hm]; [discriminate|].
      cbn [Nat.sub] in Hm. rewrite Nat.sub_0_r in Hm.
      destruct (String.get i s) as [ch|]; [|reflexivity].
      destruct (Ascii.eqb_spec ch " ") as [-> | _]; [congruence | reflexivity].
    + rewrite (Hsp i) by lia. cbn. apply IH; [lia|].
      intros j Hj. apply Hsp. lia.
Qed.

(** Whatever ends without a space is what [trimRight] returns, however
    many spaces follow it. *)
Lemma trimRight_unique (body : string) (k : nat) :
  lastChar body <> Some " "%char -> pdf.trimRight (body ++ spaces k) = body.
Proof.
  intros Hlast. unfold pdf.trimRight.
  rewrite (trimRightLoop_unique (body ++ spaces k) (String.length body)).
  - apply substring_prefix_app.
  - destruct (String.length body) as [|n] eqn:E; [now left | right].
    unfold lastChar in Hlast. rewrite E in Hlast.
    rewrite <- append_correct1; [exact Hlast | lia].
  - rewrite string_length_app. lia.
  - intros i Hi. rewrite string_length_app, spaces_length in Hi.
    replace i with ((i - String.length body) + String.length body)%nat by lia.
    rewrite <- append_correct2. apply spaces_get. lia.
Qed.

Lemma trimRight_app_spaces (s : string) (k : nat) :
  pdf.trimRight (s ++ spaces k) = pdf.trimRight s.
Proof.
  destruct (trimRight_spec s) as [Hs Hlast].
  rewrite Hs at 1. rewrite string_app_assoc, spaces_add.
  apply trimRight_unique, Hlast.
Qed.

(** X13. [trimRight] is idempotent; spaces appended to a string do not
    change what it returns; a string of spaces only is trimmed to the
    empty string; and a string that does not end with a space comes back
    as it is. *)
Theorem trimRight_idempotent (s : string) (k : nat) :
  pdf.trimRight (pdf.trimRight s) = pdf.trimRight s
  /\ pdf.trimRight (s ++ spaces k) = pdf.trimRight s
  /\ pdf.trimRight (spaces k) = ""
  /\ (lastChar s <> Some " "%char -> pdf.trimRight s = s).
Proof.
  destruct (trimRight_spec s) as [Hs Hlast].
  set (body := pdf.trimRight s) in *.
  split; [|split; [|split]].
  - pose proof (trimRight_unique body 0 Hlast) as E. cbn [spaces] in E.
    now rewrite string_app_nil_r in E.
  - apply trimRight_app_spaces.
  - apply (trimRight_unique "" k). discriminate.
  - intros H. pose proof (trimRight_unique s 0 H) as E. cbn [spaces] in E.
    now rewrite string_app_nil_r in E.
Qed.

(** ** The grid, once more *)

Lemma trimRight_length (s : string) :
  (String.length (pdf.trimRight s) <= String.length s)%nat.
Proof.
  unfold pdf.trimRight.
  pose proof (trimRightLoop_le s (String.length s)).
  rewrite substring_prefix_length; assumption.
Qed.

Lemma string_of_list_length (l : list ascii) :
  String.length (string_of_list_ascii l) = List.length l.
Proof. induction l; cbn; congruence. Qed.

Lemma string_of_list_app (a b : list ascii) :
  string_of_list_ascii (a ++ b)%list = string_of_list_ascii a ++ string_of_list_ascii b.
Proof. induction a as [|c a IH]; cbn; [reflexivity | now rewrite IH]. Qed.

Lemma string_of_repeat (k : nat) : string_of_list_ascii (repeat " "%char k) = spaces k.
Proof. induction k as [|k IH]; cbn; [reflexivity | now rewrite IH]. Qed.

Lemma firstn_repeat_le {A} (x : A) (n k : nat) :
  (n <= k)%nat -> firstn n (repeat x k) = repeat x n.
Proof.
  revert k; induction n as [|n IH]; intros k H; [reflexivity|].
  destruct k; [lia|]. cbn. f_equal. apply IH. lia.
Qed.

Lemma skipn_repeat_sub {A} (x : A) (n k : nat) :
  skipn n (repeat x k) = repeat x (k - n).
Proof.
  revert k; induction n as [|n IH]; intros k; [now rewrite Nat.sub_0_r|].
  destruct k; [reflexivity|]. cbn. apply IH.
Qed.

Section GridMore.

Context `{RT : Runtime}.

Lemma specWriteTexts_length (charWidth : float) (lnTexts : list pdf.StyledText) :
  List.length (specWriteTexts charWidth (repeat " "%char 80) lnTexts) = 80%nat.
Proof. apply writeTexts_spec, repeat_length. Qed.

Lemma specWriteTexts_snoc (charWidth : float) (lineChars : list ascii)
      (lnTexts : list pdf.StyledText) (st : pdf.StyledText) :
  specWriteTexts charWidth lineChars (lnTexts ++ [st])
  = overlay (specWriteTexts charWidth lineChars lnTexts) (bytesOf st)
            (Z.to_nat (pdf.column charWidth st)).
Proof. unfold specWriteTexts. now rewrite fold_left_app. Qed.

(** X14. The physical layout never panics and keeps to its grid: for any
    runs and any page width, the page is the rendered Lines joined by
    single newlines, one rendered line for each Line of the assembler, and
    every rendered line has at most 80 bytes and does not end with a
    space. *)
Theorem physical_lines_fit_grid (styledTexts : list pdf.StyledText)
        (pageWidth : float) :
  exists lines rendered,
    pdf.groupLines (sortSlice pdf.lessYX styledTexts) = Some lines
    /\ pdf.physicalLayout styledTexts pageWidth = Some (String.concat newline rendered)
    /\ Forall2 (fun ln out =>
                  pdf.renderLine (pdf.charWidthOf pageWidth) ln = Some out
                  /\ (String.length out <= 80)%nat
                  /\ lastChar out <> Some " "%char)
               lines rendered.
Proof.
  exists (specAssemble (sortSlice pdf.lessYX styledTexts)),
    (map (specRenderLine (pdf.charWidthOf pageWidth))
         (specAssemble (sortSlice pdf.lessYX styledTexts))).
  split; [apply groupLines_spec|]. split; [apply physicalLayout_spec|].
  induction (specAssemble (sortSlice pdf.lessYX styledTexts)) as [|ln rest IH];
    cbn [map]; constructor; [|exact IH].
  split; [apply renderLine_spec|]. unfold specRenderLine. split.
  - eapply Nat.le_trans; [apply trimRight_length|].
    now rewrite string_of_list_length, specWriteTexts_length.
  - apply trimRight_spec.
Qed.

(** X15. The run written last is never overwritten: after the runs of a
    Line have been written into the buffer of 80 spaces, in any order, the
    buffer still has 80 columns and holds, from the column of the last
    run on, the bytes of that run up to column 79. *)
Theorem last_write_wins (charWidth : float) (lnTexts : list pdf.StyledText)
        (st : pdf.StyledText) :
  let col := Z.to_nat (pdf.column charWidth st) in
  let written := firstn (80 - col) (list_ascii_of_string (pdf.Text st)) in
  exists lineChars,
    pdf.writeTexts charWidth (repeat " "%char 80) (lnTexts ++ [st])%list = Some lineChars
    /\ List.length lineChars = 80%nat
    /\ firstn (List.length written) (skipn col lineChars) = written.
Proof.
  intros col written.
  destruct (writeTexts_spec charWidth (lnTexts ++ [st])%list (repeat " "%char 80))
    as [E L]; [apply repeat_length|].
  eexists. split; [exact E|]. split; [exact L|].
  rewrite specWriteTexts_snoc. unfold overlay. fold col. fold (bytesOf st).
  change (firstn (80 - col) (bytesOf st)) with written.
  pose proof (column_range charWidth st) as Hc.
  pose proof (specWriteTexts_length charWidth lnTexts) as Hlen.
  set (buf := specWriteTexts charWidth (repeat " "%char 80) lnTexts) in *.
  assert (Hcol : List.length (firstn col buf) = col)
    by (rewrite length_firstn; lia).
  rewrite skipn_app, Hcol, Nat.sub_diag.
  rewrite (skipn_all2 (firstn col buf)) by lia. cbn [skipn app].
  rewrite firstn_app, Nat.sub_diag, firstn_all. cbn [firstn]. apply app_nil_r.
Qed.

(** X16. A Line of a single run is rendered as that run's text behind as
    many spaces as its column, cut at 80 bytes, trailing spaces trimmed;
    the column is at most 79, so at least the first byte of the text is
    within the grid. *)
Theorem single_run_line (charWidth : float) (anchorY : float) (st : pdf.StyledText) :
  let col := Z.to_nat (pdf.column charWidth st) in
  pdf.renderLine charWidth (pdf.mkLine anchorY [st])
  = Some (pdf.trimRight
            (spaces col
             ++ string_of_list_ascii
                  (firstn (80 - col) (list_ascii_of_string (pdf.Text st)))))
  /\ (col <= 79)%nat.
Proof.
  intros col. pose proof (column_range charWidth st) as Hc.
  split; [|lia].
  rewrite renderLine_spec. unfold specRenderLine. cbn [pdf.texts].
  rewrite sortSlice_one. cbn [specWriteTexts fold_left]. fold col.
  unfold overlay. fold (bytesOf st).
  set (written := firstn (80 - col) (bytesOf st)).
  rewrite firstn_repeat_le, skipn_repeat_sub by lia.
  rewrite !string_of_list_app, !string_of_repeat, <- string_app_assoc.
  f_equal. apply trimRight_app_spaces.
Qed.

End GridMore.

(** ** The two word joiners write the same runs *)

Lemma StronglySorted_map {A B} (f : A -> B) (R : B -> B -> Prop) (l : list A) :
  StronglySorted (fun a b => R (f a) (f b)) l -> StronglySorted R (map f l).
Proof.
  induction 1 as [|a l S IH F]; cbn; constructor; [exact IH|].
  rewrite Forall_forall in *. intros b Hb.
  apply in_map_iff in Hb. destruct Hb as (x & <- & Hx). now apply F.
Qed.

Section SameRuns.

Context `{RT : Runtime}.

(** Sorting the words of a row is sorting its runs, when no two runs share
    an [x]. *)
Lemma sortSlice_words (content : list gopdf.Text) :
  distinctKeys gopdf.X content ->
  sortSlice extract.lessWX (map pdf.wordOfText content)
  = map pdf.wordOfText (sortSlice pdf.lessX content).
Proof.
  intros [Hnum Hnt].
  assert (SWw : StrictWeakOn extract.lessWX (map pdf.wordOfText content)).
  { apply (lessBy_strictWeak pdf.wX). intros w Hw.
    apply in_map_iff in Hw. destruct Hw as (a & <- & Ha). apply Hnum, Ha. }
  assert (NTw : NoTies extract.lessWX (map pdf.wordOfText content)).
  { intros w1 w2 H1 H2.
    apply in_map_iff in H1. destruct H1 as (a & <- & Ha).
    apply in_map_iff in H2. destruct H2 as (b & <- & Hb).
    destruct (Hnt a b Ha Hb) as [L | [L | ->]]; auto. }
  apply sorted_perm_unique with (less := extract.lessWX).
  - eapply NoTies_perm; [apply Permutation_sym, sortSlice_perm | exact NTw].
  - eapply Permutation_trans; [apply sortSlice_perm|].
    apply Permutation_map, Permutation_sym, sortSlice_perm.
  - apply sortSlice_sorted, SWw.
  - apply StronglySorted_map.
    apply (sortSlice_sorted _ pdf.lessX), (lessBy_strictWeak gopdf.X), Hnum.
Qed.

(** X17. On rows in which the [x] of the runs are numbers and no two
    runs share an [x], the conservative joiner ([PagePlainText]) and the
    stream-order joiner ([extractRawText] on the rows of [PageTextByRow])
    write the same lines but for the spaces: both return one line per row,
    joined by newlines, and the two lines of a row are made of the same
    run texts in the same order, with nothing but single spaces between
    neighbours. *)
Theorem simple_and_raw_same_runs (rows : list gopdf.Row) :
  Forall (fun row => distinctKeys gopdf.X (gopdf.Content row)) rows ->
  exists lines : list (string * string),
    pdf.plainTextRows "" rows = Some (String.concat newline (map fst lines))
    /\ extract.rawRows "" (pdf.textRowsOf rows)
       = Some (String.concat newline (map snd lines))
    /\ Forall2 (fun row ln =>
                  exists texts,
                    Permutation texts (map gopdf.S (gopdf.Content row))
                    /\ LineOfTexts texts (fst ln)
                    /\ LineOfTexts texts (snd ln))
               rows lines.
Proof.
  intros Hrows.
  exists (map (fun row => (conservativeLine row,
                           rawLine (pdf.mkTextRow (gopdf.Position row)
                                      (map pdf.wordOfText (gopdf.Content row)))))
              rows).
  rewrite !map_map. cbn [fst snd].
  split; [apply (plainTextRows_lines rows "")|].
  split.
  { unfold pdf.textRowsOf at 1. rewrite (rawRows_lines _ ""), map_map. reflexivity. }
  induction Hrows as [|row rows Hrow Hrows IH]; cbn [map]; constructor;
    [|exact IH].
  exists (map gopdf.S (sortSlice pdf.lessX (gopdf.Content row))).
  split; [apply Permutation_map, sortSlice_perm|].
  split; [apply conservativeLine_texts|]. cbn [fst snd].
  pose proof (rawLine_texts (pdf.mkTextRow (gopdf.Position row)
                               (map pdf.wordOfText (gopdf.Content row)))) as H.
  cbn [pdf.Words] in H. rewrite (sortSlice_words _ Hrow), map_map in H. exact H.
Qed.

End SameRuns.

Lemma simple_and_raw_same_runs_witness :
  Forall (fun row => distinctKeys gopdf.X (gopdf.Content row))
         [gopdf.mkRow 700 distinctRuns]
  /\ exists lines : list (string * string),
      pdf.plainTextRows "" [gopdf.mkRow 700 distinctRuns]
      = Some (String.concat newline (map fst lines))
      /\ extract.rawRows "" (pdf.textRowsOf [gopdf.mkRow 700 distinctRuns])
         = Some (String.concat newline (map snd lines)).
Proof.
  assert (H : Forall (fun row => distinctKeys gopdf.X (gopdf.Content row))
                     [gopdf.mkRow 700 distinctRuns]).
  { constructor; [apply distinctRuns_keys | constructor]. }
  split; [exact H|].
  destruct (simple_and_raw_same_runs _ H) as (lines & E1 & E2 & _).
  exists lines. split; assumption.
Defined.

(** ** [pkg/strings] *)

Lemma member_In (s : string) (l : list string) : member s l = true <-> In s l.
Proof.
  unfold member. rewrite existsb_exists. split.
  - intros (x & Hx & E). apply String.eqb_eq in E. now subst.
  - intros H. exists s. split; [exact H | apply String.eqb_refl].
Qed.

Lemma seenIs_step (seen : string -> bool) (processed : list string) (c : string) :
  seenIs seen processed -> seenIs (strings.setSeen seen c) (processed ++ [c]).
Proof.
  intros H k. unfold strings.setSeen, member. rewrite existsb_app. cbn.
  rewrite orb_false_r. fold (member k processed). rewrite <- H.
  destruct (k =? c)%string, (seen k); reflexivity.
Qed.

Section ProcessStrings.

Context `{LIB : strings.Library}.

Lemma skip_kept (str : string) :
  ((strings.cleanString str =? "")%string || (len (strings.cleanString str) <? 2)%Z)%bool
  = negb (kept str).
Proof.
  unfold kept, len.
  destruct (String.eqb_spec (strings.cleanString str) "") as [-> | _]; cbn; [reflexivity|].
  destruct (Z.ltb_spec (Z.of_nat (String.length (strings.cleanString str))) 2),
    (Z.leb_spec 2 (Z.of_nat (String.length (strings.cleanString str))));
    try reflexivity; lia.
Qed.

Lemma processLoop_snoc (rawStrings : list string) (str : string) :
  forall seen processed,
    seenIs seen processed ->
    strings.processLoop seen processed (rawStrings ++ [str])
    = let out := strings.processLoop seen processed rawStrings in
      if (kept str && negb (member (strings.cleanString str) out))%bool
      then (out ++ [strings.cleanString str])%list
      else out.
Proof.
  induction rawStrings as [|r rest IH]; intros seen processed Hseen;
    cbn [app strings.processLoop]; rewrite skip_kept.
  - cbv zeta. rewrite (Hseen (strings.cleanString str)).
    destruct (kept str), (member (strings.cleanString str) processed); reflexivity.
  - destruct (kept r); cbn [negb]; [|apply IH, Hseen].
    destruct (seen (strings.cleanString r)); cbn [negb]; [apply IH, Hseen|].
    apply IH, seenIs_step, Hseen.
Qed.

Lemma processLoop_facts (rawStrings : list string) :
  forall seen processed,
    seenIs seen processed -> NoDup processed ->
    NoDup (strings.processLoop seen processed rawStrings)
    /\ forall s, In s (strings.processLoop seen processed rawStrings)
                 <-> In s processed
                     \/ exists str, In str rawStrings
                                    /\ kept str = true /\ strings.cleanString str = s.
Proof.
  induction rawStrings as [|r rest IH]; intros seen processed Hseen Hnd;
    cbn [strings.processLoop].
  - split; [exact Hnd|]. intros s. split; [now left|].
    intros [H | (str & [] & _)]. exact H.
  - rewrite skip_kept.
    destruct (kept r) eqn:K; cbn [negb].
    + destruct (seen (strings.cleanString r)) eqn:Sn; cbn [negb].
      * destruct (IH seen processed Hseen Hnd) as [N I]. split; [exact N|].
        intros s. rewrite I. split.
        -- intros [H | (str & Hin & Hk & E)]; [now left|].
           right. exists str. split; [now right | auto].
        -- intros [H | (str & [<- | Hin] & Hk & E)]; [now left | |].
           ++ left. subst s. apply member_In. now rewrite <- Hseen.
           ++ right. exists str. auto.
      * assert (Hnew : ~ In (strings.cleanString r) processed).
        { intros H. apply member_In in H. rewrite <- Hseen in H. congruence. }
        destruct (IH _ (processed ++ [strings.cleanString r])%list
                     (seenIs_step _ _ _ Hseen)) as [N I].
        { apply NoDup_app; [exact Hnd | constructor; [intros [] | constructor] |].
          intros a Ha [<- | []]. exact (Hnew Ha). }
        split; [exact N|]. intros s. rewrite I, in_app_iff. cbn [In]. split.
        -- intros [[H | [<- | []]] | (str & Hin & Hk & E)].
           ++ now left.
           ++ right. exists r. split; [now left | auto].
           ++ right. exists str. split; [now right | auto].
        -- intros [H | (str & [<- | Hin] & Hk & E)].
           ++ left. now left.
           ++ left. right. left. exact E.
           ++ right. exists str. auto.
    + destruct (IH seen processed Hseen Hnd) as [N I]. split; [exact N|].
      intros s. rewrite I. split.
      * intros [H | (str & Hin & Hk & E)]; [now left|].
        right. exists str. split; [now right | auto].
      * intros [H | (str & [<- | Hin] & Hk & E)]; [now left | congruence |].
        right. exists str. auto.
Qed.

(** X18. [processStrings], whatever the library functions of
    [cleanString] do: no string comes out twice; a string comes out
    exactly when it is the cleaned form of some raw string and has two
    bytes or more; and the strings come out in the order in which they
    first occur, one more raw string adding its cleaned form at the end
    when it is long enough and new, and changing nothing otherwise. *)
Theorem processStrings_unique (rawStrings : list string) :
  NoDup (strings.processStrings rawStrings)
  /\ (forall s, In s (strings.processStrings rawStrings)
                <-> exists str, In str rawStrings
                                /\ strings.cleanString str = s
                                /\ (2 <= String.length s)%nat)
  /\ (forall str,
         strings.processStrings (rawStrings ++ [str])
         = (strings.processStrings rawStrings
            ++ if ((2 <=? len (strings.cleanString str))%Z
                   && negb (existsb (String.eqb (strings.cleanString str))
                                    (strings.processStrings rawStrings)))%bool
               then [strings.cleanString str] else [])%list).
Proof.
  unfold strings.processStrings.
  assert (H0 : seenIs (fun _ => false) []) by (intros k; reflexivity).
  destruct (processLoop_facts rawStrings _ [] H0 (NoDup_nil _)) as [N I].
  split; [exact N|]. split.
  - intros s. rewrite I. split.
    + intros [[] | (str & Hin & Hk & E)]. exists str. split; [exact Hin|].
      split; [exact E|]. unfold kept, len in Hk. rewrite E in Hk.
      apply Z.leb_le in Hk. lia.
    + intros (str & Hin & E & L). right. exists str. split; [exact Hin|].
      split; [|exact E]. unfold kept, len. rewrite E. apply Z.leb_le. lia.
  - intros str. rewrite (processLoop_snoc rawStrings str _ [] H0). cbv zeta.
    fold (kept str).
    fold (member (strings.cleanString str)
                 (strings.processLoop (fun _ => false) [] rawStrings)).
    destruct (kept str && negb _)%bool; [reflexivity | now rewrite app_nil_r].
Qed.

End ProcessStrings.

(** *** The chunk loop keeps whole buffers only *)

Lemma chunkLoop_acc (reads : list strings.read) :
  forall contentStr,
    strings.chunkLoop contentStr reads = (contentStr ++ strings.chunkLoop [] reads)%list.
Proof.
  induction reads as [|r rest IH]; intros contentStr; cbn [strings.chunkLoop].
  - now rewrite app_nil_r.
  - destruct (strings.failed r || _)%bool; [now rewrite app_nil_r|].
    rewrite IH, (IH ([] ++ strings.data r)%list). now rewrite app_assoc.
Qed.

(** X19. The chunk loop of [extractStringsFromPage] keeps whole
    buffers, and all of them up to the first read that is short or comes
    with an error.  When no read returns more than the 1024 bytes of the
    buffer, the reads split into those kept and the rest: every read kept
    is free of error and fills the buffer, the rest is empty or starts
    with a read that is short or comes with an error, and what the loop
    collects is exactly the bytes of the reads kept, in order, 1024 for
    each.  The first read of the rest is dropped with all that follow,
    whatever they hold. *)
Theorem chunkLoop_whole_buffers (reads : list strings.read) :
  Forall (fun r => (List.length (strings.data r) <= 1024)%nat) reads ->
  exists kept rest,
    reads = (kept ++ rest)%list
    /\ Forall (fun r => strings.failed r = false
                        /\ List.length (strings.data r) = 1024%nat) kept
    /\ match rest with
       | [] => True
       | r :: _ => strings.failed r = true
                   \/ (List.length (strings.data r) < 1024)%nat
       end
    /\ strings.chunkLoop [] reads = List.concat (map strings.data kept)
    /\ List.length (strings.chunkLoop [] reads) = (1024 * List.length kept)%nat.
Proof.
  induction 1 as [|r reads Hr Hrest IH]; cbn [strings.chunkLoop].
  - exists [], []. repeat split; constructor.
  - destruct (strings.failed r) eqn:F; cbn [orb].
    + exists [], (r :: reads). repeat split; auto.
    + destruct (Z.ltb_spec (Z.of_nat (List.length (strings.data r))) 1024) as [L | L].
      * exists [], (r :: reads). repeat split; auto. right. lia.
      * destruct IH as (kept & rest & E0 & E1 & E2 & E3 & E4).
        exists (r :: kept), rest. rewrite chunkLoop_acc. cbn [app].
        split; [now rewrite E0|].
        split; [constructor; [split; [exact F | lia] | exact E1]|].
        split; [exact E2|].
        cbn [map List.concat]. split; [now rewrite E3|].
        rewrite length_app, E4. cbn [List.length]. lia.
Qed.

(** Two full reads, then a short one that carries text: 2048 bytes are
    collected and the text of the third read is lost. *)
Lemma chunkLoop_whole_buffers_witness :
  Forall (fun r => (List.length (strings.data r) <= 1024)%nat)
         [strings.mkRead (repeat "a"%char 1024) false;
          strings.mkRead (repeat "b"%char 1024) false;
          strings.mkRead (list_ascii_of_string "(Hello) Tj") false]
  /\ exists kept rest,
      [strings.mkRead (repeat "a"%char 1024) false;
       strings.mkRead (repeat "b"%char 1024) false;
       strings.mkRead (list_ascii_of_string "(Hello) Tj") false]
      = (kept ++ rest)%list
      /\ strings.chunkLoop []
           [strings.mkRead (repeat "a"%char 1024) false;
            strings.mkRead (repeat "b"%char 1024) false;
            strings.mkRead (list_ascii_of_string "(Hello) Tj") false]
         = List.concat (map strings.data kept)
      /\ List.length
           (strings.chunkLoop []
              [strings.mkRead (repeat "a"%char 1024) false;
               strings.mkRead (repeat "b"%char 1024) false;
               strings.mkRead (list_ascii_of_string "(Hello) Tj") false])
         = 2048%nat.
Proof.
  assert (H : Forall (fun r => (List.length (strings.data r) <= 1024)%nat)
                     [strings.mkRead (repeat "a"%char 1024) false;
                      strings.mkRead (repeat "b"%char 1024) false;
                      strings.mkRead (list_ascii_of_string "(Hello) Tj") false]).
  { repeat constructor; cbn [strings.data]; rewrite ?repeat_length; cbn; lia. }
  split; [exact H|].
  destruct (chunkLoop_whole_buffers _ H) as (kept & rest & E0 & _ & _ & E3 & _).
  exists kept, rest. split; [exact E0|]. split; [exact E3|].
  vm_compute. reflexivity.
Defined.
